(** * IQR search sub-application: session engine and web handlers

    Shallow embedding of [smqtk/web/search_app/modules/iqr/iqr_search.py]
    (class [IqrSearch] and its route handlers), together with the parts of
    [smqtk.iqr] ([IqrSession], [IqrController]) that the handlers call.

    Conventions.
    - Identifiers (uuids, session ids) are Python strings: [string].
    - A Python [set] of [DescriptorElement]s and the in-memory descriptor
      index are finite maps keyed by the element's uuid ([gmap string _]);
      an element is the pair of its uuid and its payload, so that
      [d.uuid() for d in s] is [(map_to_list s).*1].
    - The elements of the nearest-neighbour index are objects that the
      working indexes, label sets and results of all sessions hold by
      reference.  A payload is the element as the index delivers it; the
      saliency maps that [update_saliency_map] writes into such an object
      are kept once, by element uuid, in [saliency_maps] of the
      application, and are seen wherever the element is held.
    - Probabilities are finite floats; only their order and equality are
      used, so they are represented by their exact rational value ([Qc]).
    - Handlers are state-passing functions over the application object;
      a Python exception is the [Raise] outcome, and the state reached when
      the exception leaves the function is kept (Python has no rollback).
    - [with obj:] on the controller or on a session is a lock acquisition,
      logged in a trace of lock events. *)

From Stdlib Require Import String ZArith List QArith Qcanon.
From stdpp Require Import base gmap strings list fin_maps sorting.

#[local] Set Warnings "-clear-no-such-hyp".

Local Open Scope string_scope.
Local Open Scope list_scope.
Local Open Scope nat_scope.

(** ** Data model *)

(** Payload of a descriptor: the numeric vector, and the saliency map
    (label -> uuid of the saliency image) used by the saliency generator. *)
Record DescriptorPayload := {
  d_vector : list Qc;
  d_saliency_map : list (Z * string);
}.

(** A descriptor element: stable identifier plus payload. *)
Definition DescriptorElement : Type := string * DescriptorPayload.

Definition d_uuid (d : DescriptorElement) : string := d.1.

(** Uploaded example data ([DataFileElement]): content uuid and file path. *)
Record DataElement := {
  de_uuid : string;
  de_path : string;
}.

(** ** Exceptions and outcomes *)

(** An exception object: its class and its text.  [ValueErrorSubclass] is
    an instance of a proper subclass of [ValueError] (such as
    [UnicodeDecodeError]), with the name of its class; [OtherError] is an
    instance of any class that is not [ValueError] or a subclass of it. *)
Inductive exn :=
| NotFound (id : string)
| InsufficientLabels (msg : string)
| InitializationFailure (msg : string)
| RankingFailure (cause : string)
| ValueError (msg : string)
| ValueErrorSubclass (name msg : string)
| IndexError (msg : string)
| OtherError (name msg : string).

(** [type(ex).__name__] *)
Definition exn_name (e : exn) : string :=
  match e with
  | NotFound _ => "NotFound"
  | InsufficientLabels _ => "InsufficientLabels"
  | InitializationFailure _ => "InitializationFailure"
  | RankingFailure _ => "RankingFailure"
  | ValueError _ => "ValueError"
  | ValueErrorSubclass n _ => n
  | IndexError _ => "IndexError"
  | OtherError n _ => n
  end.

(** [str(ex)] *)
Definition exn_str (e : exn) : string :=
  match e with
  | NotFound id => id
  | InsufficientLabels m => m
  | InitializationFailure m => m
  | RankingFailure m => m
  | ValueError m => m
  | ValueErrorSubclass _ m => m
  | IndexError m => m
  | OtherError _ m => m
  end.

(** [isinstance(ex, ValueError)]: what [except ValueError] catches. *)
Definition isinstance_ValueError (e : exn) : bool :=
  match e with
  | ValueError _ | ValueErrorSubclass _ _ => true
  | _ => false
  end.

(** The four kinds of failure a user can trigger. *)
Definition user_triggerable (e : exn) : bool :=
  match e with
  | NotFound _ | InsufficientLabels _
  | InitializationFailure _ | RankingFailure _ => true
  | _ => false
  end.

Inductive outcome (A : Type) :=
| Return (a : A)
| Raise (e : exn).
Arguments Return {A} a.
Arguments Raise {A} e.

Definition is_raise {A} (o : outcome A) : bool :=
  match o with Raise _ => true | Return _ => false end.

(** ** External capabilities

    The nearest-neighbour index, the relevancy ranker and the descriptor
    generator are plugins configured at start-up; the uploader and the
    data set belong to other modules.  They are parameters of the model. *)
Record Capabilities := {
  (** [nn_index.nn(d, n)]: the neighbours (distances are dropped by the
      caller). *)
  nn : DescriptorElement → nat → outcome (list DescriptorElement);
  (** Relevancy ranker: trained on positives and negatives, it gives a
      probability for each element of the pool. *)
  rank : list DescriptorElement → list DescriptorElement →
         list DescriptorElement → outcome (DescriptorElement → Qc);
  (** [descriptor_generator.compute_descriptor(data, factory)] *)
  compute_descriptor : DataElement → outcome DescriptorElement;
  (** [mod_upload.get_path_for_id(fid)], moved into the session work
      directory, wrapped as a [DataFileElement]. *)
  uploaded_data : string → string → DataElement;
  (** [data_set.has_uuid] / [data_set.get_data] *)
  data_set : gmap string DataElement;
  (** preview generation and static file writing for a data element *)
  preview_image : DataElement → outcome (string * (nat * nat));
  (** saliency data set ([smap_set.get_data]) *)
  smap_set : gmap string DataElement;
  (** [compute_descriptor(de, factory, topk_label_list=[label, 0])] *)
  saliency_descriptor : option DataElement → Z → outcome DescriptorElement;
}.

(** ** IQR session *)

Record IqrSession := {
  uuid : string;
  pos_seed_neighbors : nat;
  positive_descriptors : gmap string DescriptorPayload;
  negative_descriptors : gmap string DescriptorPayload;
  working_index : gmap string DescriptorPayload;
  results : option (list (DescriptorElement * Qc));
  target_label : option Z;
}.

Definition set_positive v (s : IqrSession) : IqrSession :=
  {| uuid := uuid s; pos_seed_neighbors := pos_seed_neighbors s;
     positive_descriptors := v;
     negative_descriptors := negative_descriptors s;
     working_index := working_index s; results := results s;
     target_label := target_label s |}.

Definition set_negative v (s : IqrSession) : IqrSession :=
  {| uuid := uuid s; pos_seed_neighbors := pos_seed_neighbors s;
     positive_descriptors := positive_descriptors s;
     negative_descriptors := v;
     working_index := working_index s; results := results s;
     target_label := target_label s |}.

Definition set_working_index v (s : IqrSession) : IqrSession :=
  {| uuid := uuid s; pos_seed_neighbors := pos_seed_neighbors s;
     positive_descriptors := positive_descriptors s;
     negative_descriptors := negative_descriptors s;
     working_index := v; results := results s;
     target_label := target_label s |}.

Definition set_results v (s : IqrSession) : IqrSession :=
  {| uuid := uuid s; pos_seed_neighbors := pos_seed_neighbors s;
     positive_descriptors := positive_descriptors s;
     negative_descriptors := negative_descriptors s;
     working_index := working_index s; results := v;
     target_label := target_label s |}.

Definition set_target_label v (s : IqrSession) : IqrSession :=
  {| uuid := uuid s; pos_seed_neighbors := pos_seed_neighbors s;
     positive_descriptors := positive_descriptors s;
     negative_descriptors := negative_descriptors s;
     working_index := working_index s; results := results s;
     target_label := v |}.

(** Modelled from the spec: the [IqrSession] constructor (smqtk.iqr is not
    part of the reviewed source).  A session starts with empty adjudication
    sets, an empty working index and no ordered result.  The handler passes
    the external key as the session uid and immediately looks the session up
    under that key, so the session identifier is the given uid. *)
Definition new_IqrSession (seed : nat) (session_uid : string) : IqrSession :=
  {| uuid := session_uid; pos_seed_neighbors := seed;
     positive_descriptors := ∅; negative_descriptors := ∅;
     working_index := ∅; results := None; target_label := None |}.

(** *** Descriptor sets and the working index *)

(** [s.update(ds)]: add every element, keyed by its uuid. *)
Definition add_many (ds : list DescriptorElement)
    (m : gmap string DescriptorPayload) : gmap string DescriptorPayload :=
  foldl (λ acc d, <[d_uuid d := d.2]> acc) m ds.

(** [s.difference_update(ds)]: drop every element with one of the uuids. *)
Definition remove_many (ds : list DescriptorElement)
    (m : gmap string DescriptorPayload) : gmap string DescriptorPayload :=
  foldl (λ acc d, delete (d_uuid d) acc) m ds.

(** The identifiers of a descriptor set: [d.uuid() for d in s]. *)
Definition uuids (m : gmap string DescriptorPayload) : list string :=
  (map_to_list m).*1.

(** Modelled from the spec: [working_index.get_many_descriptors(uids)] of
    the descriptor index (not part of the reviewed source).  Section 6:
    [get(id)] returns the element and fails with NotFound otherwise. *)
Fixpoint get_many_descriptors (m : gmap string DescriptorPayload)
    (uids : list string) : outcome (list DescriptorElement) :=
  match uids with
  | [] => Return []
  | u :: rest =>
      match m !! u with
      | None => Raise (NotFound u)
      | Some p =>
          match get_many_descriptors m rest with
          | Return ds => Return ((u, p) :: ds)
          | Raise e => Raise e
          end
      end
  end.

(** *** Session operations *)

(** Modelled from the spec: [IqrSession.adjudicate] (section 4.3).
    Removals first, then additions; positive additions before negative
    additions; adding to one set removes from the other. *)
Definition session_adjudicate
    (new_positives new_negatives un_positives un_negatives
       : list DescriptorElement)
    (s : IqrSession) : IqrSession :=
  let pos0 := remove_many un_positives (positive_descriptors s) in
  let neg0 := remove_many un_negatives (negative_descriptors s) in
  let neg1 := remove_many new_positives neg0 in
  let pos1 := add_many new_positives pos0 in
  let pos2 := remove_many new_negatives pos1 in
  let neg2 := add_many new_negatives neg1 in
  set_negative neg2 (set_positive pos2 s).

(** Modelled from the spec: the seeding loop of [update_working_index]
    (section 4.2): the neighbours of every positive, in turn; the first
    failure aborts. *)
Fixpoint seed_neighbors (c : Capabilities) (k : nat)
    (ps : list DescriptorElement) : outcome (list DescriptorElement) :=
  match ps with
  | [] => Return []
  | p :: rest =>
      match nn c p k with
      | Raise e => Raise e
      | Return ns =>
          match seed_neighbors c k rest with
          | Raise e => Raise e
          | Return more => Return (ns ++ more)
          end
      end
  end.

(** Modelled from the spec: [IqrSession.update_working_index] (section
    4.2, seed-and-expand).  Fails with an initialization error when there
    is no positive or the index cannot answer; otherwise the working index
    is rebuilt from scratch as the union of the neighbours of every
    positive.  On failure the session is left as it was. *)
Definition update_working_index (c : Capabilities) (s : IqrSession)
    : outcome unit * IqrSession :=
  match map_to_list (positive_descriptors s) with
  | [] => (Raise (InitializationFailure
                    "No positive descriptors to query the neighbor index with."),
           s)
  | ps =>
      match seed_neighbors c (pos_seed_neighbors s) ps with
      | Raise e => (Raise (InitializationFailure (exn_str e)), s)
      | Return ns => (Return (), set_working_index (add_many ns ∅) s)
      end
  end.

(** Order of the ranked result: higher probability first; equal
    probabilities by ascending identifier. *)
Definition result_le (a b : DescriptorElement * Qc) : Prop :=
  (b.2 < a.2)%Qc ∨ (a.2 = b.2 ∧ String.le (d_uuid a.1) (d_uuid b.1)).

#[global] Instance result_le_dec : RelDecision result_le.
Proof. intros a b. unfold result_le. apply _. Defined.

(** Modelled from the spec: [IqrSession.refine] (section 4.4).  Needs a
    positive and a non-empty working index; trains the ranker on the
    current labels, scores the whole working index and stores the pairs
    sorted by [result_le].  A ranker failure surfaces as a ranking error
    and the stored result is kept. *)
Definition refine (c : Capabilities) (s : IqrSession)
    : outcome unit * IqrSession :=
  if decide (positive_descriptors s = ∅) then
    (Raise (InsufficientLabels
              "Did not find at least one positive adjudication."), s)
  else if decide (working_index s = ∅) then
    (Raise (InsufficientLabels "Working index is empty."), s)
  else
    let pool := map_to_list (working_index s) in
    match rank c (map_to_list (positive_descriptors s))
                 (map_to_list (negative_descriptors s)) pool with
    | Raise e => (Raise (RankingFailure (exn_str e)), s)
    | Return score =>
        (Return (),
         set_results
           (Some (merge_sort result_le ((λ d, (d, score d)) <$> pool))) s)
    end.

(** Modelled from the spec: [IqrSession.ordered_results] (section 4.5):
    the stored sequence, or the empty one before the first refine. *)
Definition ordered_results (s : IqrSession) : list (DescriptorElement * Qc) :=
  default [] (results s).

(** Modelled from the spec: [IqrSession.reset] (section 4.6): clears both
    adjudication sets, the working index and the stored result; the
    identifier is kept. *)
Definition session_reset (s : IqrSession) : IqrSession :=
  {| uuid := uuid s; pos_seed_neighbors := pos_seed_neighbors s;
     positive_descriptors := ∅; negative_descriptors := ∅;
     working_index := ∅; results := None;
     target_label := target_label s |}.

(** ** Strings *)

(** [osp.join(a, b)] for a relative [b]. *)
Definition path_join (a b : string) : string :=
  String.append a (String.append "/" b).

(** ["%s" % l] for a list of identifiers. *)
Definition str_list (l : list string) : string :=
  String.append "["
    (String.append
       (String.concat ", "
          ((λ u, String.append "'" (String.append u "'")) <$> l))
       "]").

(** ** Application object *)

(** The mutable fields of [IqrSearch] that the handlers read and write.
    [iqr_controller] is the session registry of the [IqrController],
    keyed by session uuid. *)
Record IqrSearch := {
  cfg_pos_seed_neighbors : nat;
  saliency_descr_flag : bool;
  work_dir : string;
  iqr_controller : gmap string IqrSession;
  iqr_work_dirs : gmap string string;
  iqr_example_data : gmap string (gmap string DataElement);
  iqr_example_pos_descr : gmap string (gmap string DescriptorElement);
  static_cache : gmap string DataElement;
  (** saliency maps written into elements of the nearest-neighbour
      index, by element uuid *)
  saliency_maps : gmap string (list (Z * string));
}.

Definition set_controller v (a : IqrSearch) : IqrSearch :=
  {| cfg_pos_seed_neighbors := cfg_pos_seed_neighbors a;
     saliency_descr_flag := saliency_descr_flag a;
     work_dir := work_dir a;
     iqr_controller := v; iqr_work_dirs := iqr_work_dirs a;
     iqr_example_data := iqr_example_data a;
     iqr_example_pos_descr := iqr_example_pos_descr a;
     static_cache := static_cache a;
     saliency_maps := saliency_maps a |}.

Definition set_work_dirs v (a : IqrSearch) : IqrSearch :=
  {| cfg_pos_seed_neighbors := cfg_pos_seed_neighbors a;
     saliency_descr_flag := saliency_descr_flag a;
     work_dir := work_dir a;
     iqr_controller := iqr_controller a; iqr_work_dirs := v;
     iqr_example_data := iqr_example_data a;
     iqr_example_pos_descr := iqr_example_pos_descr a;
     static_cache := static_cache a;
     saliency_maps := saliency_maps a |}.

Definition set_example_data v (a : IqrSearch) : IqrSearch :=
  {| cfg_pos_seed_neighbors := cfg_pos_seed_neighbors a;
     saliency_descr_flag := saliency_descr_flag a;
     work_dir := work_dir a;
     iqr_controller := iqr_controller a; iqr_work_dirs := iqr_work_dirs a;
     iqr_example_data := v;
     iqr_example_pos_descr := iqr_example_pos_descr a;
     static_cache := static_cache a;
     saliency_maps := saliency_maps a |}.

Definition set_example_pos_descr v (a : IqrSearch) : IqrSearch :=
  {| cfg_pos_seed_neighbors := cfg_pos_seed_neighbors a;
     saliency_descr_flag := saliency_descr_flag a;
     work_dir := work_dir a;
     iqr_controller := iqr_controller a; iqr_work_dirs := iqr_work_dirs a;
     iqr_example_data := iqr_example_data a;
     iqr_example_pos_descr := v;
     static_cache := static_cache a;
     saliency_maps := saliency_maps a |}.

Definition set_static_cache v (a : IqrSearch) : IqrSearch :=
  {| cfg_pos_seed_neighbors := cfg_pos_seed_neighbors a;
     saliency_descr_flag := saliency_descr_flag a;
     work_dir := work_dir a;
     iqr_controller := iqr_controller a; iqr_work_dirs := iqr_work_dirs a;
     iqr_example_data := iqr_example_data a;
     iqr_example_pos_descr := iqr_example_pos_descr a;
     static_cache := v;
     saliency_maps := saliency_maps a |}.

Definition set_saliency_maps v (a : IqrSearch) : IqrSearch :=
  {| cfg_pos_seed_neighbors := cfg_pos_seed_neighbors a;
     saliency_descr_flag := saliency_descr_flag a;
     work_dir := work_dir a;
     iqr_controller := iqr_controller a; iqr_work_dirs := iqr_work_dirs a;
     iqr_example_data := iqr_example_data a;
     iqr_example_pos_descr := iqr_example_pos_descr a;
     static_cache := static_cache a;
     saliency_maps := v |}.

(** Modelled from the spec: descriptor elements are owned by the store,
    one per identifier, and held by reference (section 3; the element
    class is not part of the reviewed source).  [desr.saliency_map()] for
    an element of the nearest-neighbour index: the map written into the
    object, if any, else the one it came with. *)
Definition saliency_map (a : IqrSearch) (desr : DescriptorElement)
    : list (Z * string) :=
  default (d_saliency_map desr.2) (saliency_maps a !! d_uuid desr).

(** Modelled from the spec, as [saliency_map]:
    [desr.update_saliency_map(m)] on an element of the nearest-neighbour
    index is a dictionary update of the map of the object itself. *)
Definition update_saliency_map (desr : DescriptorElement)
    (m : list (Z * string)) (a : IqrSearch) : IqrSearch :=
  set_saliency_maps
    (<[d_uuid desr := m ++ filter (λ kv, kv.1 ∉ m.*1) (saliency_map a desr)]>
       (saliency_maps a)) a.

(** [IqrSearch.__init__]: a new controller and empty per-session
    dictionaries. *)
Definition new_IqrSearch (pos_seed : nat) (saliency : bool)
    (working_directory : string) : IqrSearch :=
  {| cfg_pos_seed_neighbors := pos_seed; saliency_descr_flag := saliency;
     work_dir := working_directory;
     iqr_controller := ∅; iqr_work_dirs := ∅;
     iqr_example_data := ∅; iqr_example_pos_descr := ∅;
     static_cache := ∅; saliency_maps := ∅ |}.

(** ** Locks *)

Inductive lock :=
| RegistryLock
| SessionLock (session_uuid : string).

Inductive lock_event :=
| Acquire (l : lock)
| Release (l : lock).

#[global] Instance lock_eq_dec : EqDecision lock.
Proof. solve_decision. Defined.

(** The application together with the lock events so far (oldest first). *)
Record World := {
  app : IqrSearch;
  trace : list lock_event;
}.

(** ** State and exception monad *)

Definition St (S A : Type) : Type := S → outcome A * S.

Definition ret {S A} (a : A) : St S A := λ st, (Return a, st).
Definition raise {S A} (e : exn) : St S A := λ st, (Raise e, st).
Definition bind {S A C} (m : St S A) (k : A → St S C) : St S C :=
  λ st, match m st with
        | (Return a, st') => k a st'
        | (Raise e, st') => (Raise e, st')
        end.
Definition get {S} : St S S := λ st, (Return st, st).
Definition modify {S} (f : S → S) : St S unit := λ st, (Return (), f st).

(** [d[k]]: a missing key raises. *)
Definition getitem {S V} (m : gmap string V) (k : string) : St S V :=
  match m !! k with
  | Some v => ret v
  | None => raise (OtherError "KeyError" k)
  end.

Notation "x <- m ;; k" := (bind m (λ x, k))
  (at level 100, m at next level, right associativity).
Notation "m ;;; k" := (bind m (λ _, k))
  (at level 100, right associativity).

(** Code that takes no lock, run inside a world. *)
Definition lift {A} (m : St IqrSearch A) : St World A :=
  λ w, let '(r, a) := m (app w) in (r, {| app := a; trace := trace w |}).

Definition log (e : lock_event) : St World unit :=
  modify (λ w, {| app := app w; trace := trace w ++ [e] |}).

(** Modelled from the spec: [__enter__] and [__exit__] of the controller
    and of a session (section 5) take and release that object's lock.
    [with obj: body]: the lock is released on every way out of the body. *)
Definition with_lock {A} (l : lock) (body : St World A) : St World A :=
  λ w, let '(_, w1) := log (Acquire l) w in
       let '(r, w2) := body w1 in
       let '(_, w3) := log (Release l) w2 in
       (r, w3).

(** ** Session controller *)

(** Modelled from the spec: [IqrController.has_session_uuid],
    [add_session] and [get_session] (section 4.1): a registry from key to
    session. *)
Definition has_session_uuid (sid : string) (a : IqrSearch) : bool :=
  bool_decide (is_Some (iqr_controller a !! sid)).

(** Modelled from the spec: [IqrController.add_session] registers the
    session under its own uuid. *)
Definition add_session (s : IqrSession) : St IqrSearch unit :=
  modify (λ a, set_controller (<[uuid s := s]> (iqr_controller a)) a).

(** Modelled from the spec: [IqrController.get_session]; an unknown uuid
    raises. *)
Definition get_session (sid : string) : St IqrSearch IqrSession :=
  a <- get ;;
  match iqr_controller a !! sid with
  | Some s => ret s
  | None => raise (OtherError "KeyError" sid)
  end.

(** The three per-session dictionaries filled when a session is created. *)
Definition register_work_dir (iqr_sess : IqrSession) (sid : string)
    : St IqrSearch unit :=
  modify (λ a, set_work_dirs
                 (<[uuid iqr_sess := path_join (work_dir a) sid]>
                    (iqr_work_dirs a)) a).

Definition register_example_data (iqr_sess : IqrSession) : St IqrSearch unit :=
  modify (λ a, set_example_data
                 (<[uuid iqr_sess := ∅]> (iqr_example_data a)) a).

Definition register_example_pos_descr (iqr_sess : IqrSession)
    : St IqrSearch unit :=
  modify (λ a, set_example_pos_descr
                 (<[uuid iqr_sess := ∅]> (iqr_example_pos_descr a)) a).

(** Body of [get_current_iqr_session], run under the registry lock. *)
Definition lookup_or_create (sid : string) : St IqrSearch IqrSession :=
  a <- get ;;
  (if negb (has_session_uuid sid a) then
     let iqr_sess := new_IqrSession (cfg_pos_seed_neighbors a) sid in
     add_session iqr_sess ;;;
     register_work_dir iqr_sess sid ;;;
     register_example_data iqr_sess ;;;
     register_example_pos_descr iqr_sess
   else ret ()) ;;;
  get_session sid.

Definition get_current_iqr_session (sid : string) : St World IqrSession :=
  with_lock RegistryLock (lift (lookup_or_create sid)).

(** Code run on a session object: the session registered under [sid] is
    the object; what the body does to it is visible in the registry. *)
Definition on_session {A} (sid : string)
    (body : St (IqrSession * IqrSearch) A) : St IqrSearch A :=
  λ a, match iqr_controller a !! sid with
       | Some s =>
           let '(r, (s', a')) := body (s, a) in
           (r, set_controller (<[sid := s']> (iqr_controller a')) a')
       | None => (Raise (OtherError "KeyError" sid), a)
       end.

(** [with self.get_current_iqr_session() as iqrs: body] *)
Definition with_current_session {A} (sid : string)
    (body : St (IqrSession * IqrSearch) A) : St World A :=
  _ <- get_current_iqr_session sid ;;
  with_lock (SessionLock sid) (lift (on_session sid body)).

(** Accessors for session code. *)
Definition iqrs {S} : St (IqrSession * S) IqrSession :=
  λ st, (Return st.1, st).
Definition self : St (IqrSession * IqrSearch) IqrSearch :=
  λ st, (Return st.2, st).
Definition modify_iqrs {S} (f : IqrSession → IqrSession)
    : St (IqrSession * S) unit :=
  modify (λ st, (f st.1, st.2)).
Definition modify_self (f : IqrSearch → IqrSearch)
    : St (IqrSession * IqrSearch) unit :=
  modify (λ st, (st.1, f st.2)).
(** A session method that may raise. *)
Definition call_iqrs {S A} (f : IqrSession → outcome A * IqrSession)
    : St (IqrSession * S) A :=
  λ st, let '(r, s') := f st.1 in (r, (s', st.2)).
Definition of_outcome {S A} (o : outcome A) : St S A := λ st, (o, st).

(** [try: body  except Exception as ex: handler ex] *)
Definition try_except {S A} (body : St S A) (handler : exn → St S A)
    : St S A :=
  λ st, match body st with
        | (Return a, st') => (Return a, st')
        | (Raise e, st') => handler e st'
        end.

(** ** Python slicing and shuffling *)

(** Clipping of one slice bound against the length (negative bounds count
    from the end). *)
Definition slice_index (len k : Z) : Z :=
  if (k <? 0)%Z then Z.max (k + len) 0 else Z.min k len.

(** [l[i:j]] *)
Definition py_slice {A} (l : list A) (i j : Z) : list A :=
  let len := Z.of_nat (length l) in
  let start := slice_index len i in
  let stop := slice_index len j in
  take (Z.to_nat (stop - start)) (drop (Z.to_nat start) l).

(** [x[i], x[j] = x[j], x[i]] *)
Definition swap {A} (i j : nat) (l : list A) : list A :=
  match l !! i, l !! j with
  | Some a, Some b => <[j := a]> (<[i := b]> l)
  | _, _ => l
  end.

(** [random.shuffle(x)]: for [i] from [len(x) - 1] down to [1], swap
    position [i] with a position drawn in [0, i].  [draw i] stands for the
    random number consumed at step [i]. *)
Fixpoint shuffle_from {A} (draw : nat → nat) (i : nat) (l : list A) : list A :=
  match i with
  | O => l
  | S i' => shuffle_from draw i' (swap i (draw i mod (i + 1)) l)
  end.

Definition shuffle {A} (draw : nat → nat) (l : list A) : list A :=
  shuffle_from draw (length l - 1) l.

(** ** Responses *)

Record preview_info := {
  pi_success : bool;
  pi_message : option string;
  pi_shape : option (nat * nat);
  pi_static_file_link : option string;
  pi_static_preview_link : option string;
  pi_smap_preview_link : option string;
  pi_smap_static_file_link : option string;
}.

Inductive response :=
| Html (template : string)
| JsonSessionInfo (session_uuid : string)
    (positive_uids negative_uids ex_pos : list string)
    (initialized : bool) (index_size : nat)
| StateArchive (name : string) (pos neg : list (list Qc))
| JsonSuccess (success : bool)
| JsonStatus (success : bool) (message : string)
| JsonPreview (info : preview_info)
| JsonAdjudication (is_pos is_neg : bool)
| JsonResults (res : list (string * Qc))
| JsonUids (uids : list string)
| Text (body : string) (status : nat).

(** ["ERROR: (%s) %s" % (type(ex).__name__, str(ex))] *)
Definition error_message (ex : exn) : string :=
  String.append "ERROR: ("
    (String.append (exn_name ex) (String.append ") " (exn_str ex))).

Definition adjudicate_message (pos_to_add pos_to_remove neg_to_add
    neg_to_remove : list string) : string :=
  String.append "Adjudicated Positive{+"
   (String.append (str_list pos_to_add)
   (String.append ", -"
   (String.append (str_list pos_to_remove)
   (String.append "}, Negative{+"
   (String.append (str_list neg_to_add)
   (String.append ", -"
   (String.append (str_list neg_to_remove) "} "))))))).

(** ** Route handlers *)

Section Handlers.
Variable c : Capabilities.
(** [flask.session.sid] of the request. *)
Variable sid : string.

(** [GET /] *)
Definition index : St World response :=
  ret (Html "iqr_search_index.html").

(** [GET /iqr_session_info] *)
Definition iqr_session_info : St World response :=
  with_current_session sid (
    s <- iqrs ;;
    a <- self ;;
    ex <- getitem (iqr_example_pos_descr a) (uuid s) ;;
    ret (JsonSessionInfo (uuid s)
           (uuids (positive_descriptors s))
           (uuids (negative_descriptors s))
           (map_to_list ex).*1
           (bool_decide (0 < size (working_index s)))
           (size (working_index s)))).

(** [GET /get_iqr_state] *)
Definition iqr_session_state : St World response :=
  bundle <-
    with_current_session sid (
      s <- iqrs ;;
      a <- self ;;
      ex <- getitem (iqr_example_pos_descr a) (uuid s) ;;
      ret (uuid s,
           remove_dups
             (((λ d : string * DescriptorElement, d_vector d.2.2)
                 <$> map_to_list ex) ++
              ((λ d, d_vector d.2) <$> map_to_list (positive_descriptors s))),
           remove_dups
             ((λ d, d_vector d.2)
                <$> map_to_list (negative_descriptors s)))) ;;
  let '(iqrs_uuid, pos_elements, neg_elements) := bundle in
  ret (StateArchive (String.append iqrs_uuid ".IqrState")
         pos_elements neg_elements).

(** [GET /check_current_iqr_session] *)
Definition check_current_iqr_session : St World response :=
  with_current_session sid (ret (JsonSuccess true)).

(** Static file of a data element, written once; the cached file is
    returned. *)
Definition cache_static (de : DataElement) : St World DataElement :=
  lift (modify (λ a,
    match static_cache a !! de_uuid de with
    | Some _ => a
    | None => set_static_cache (<[de_uuid de := de]> (static_cache a)) a
    end)) ;;;
  a <- lift get ;;
  getitem (static_cache a) (de_uuid de).

(** [GET /get_data_preview_image] *)
Definition get_ingest_item_image_rep (uid : string) : St World response :=
  de <- match data_set c !! uid with
        | Some de => ret (Some de)
        | None =>
            with_current_session sid (
              s <- iqrs ;;
              a <- self ;;
              ex <- getitem (iqr_example_data a) (uuid s) ;;
              ret (ex !! uid))
        end ;;
  info <- match de with
          | None =>
              ret {| pi_success := false;
                     pi_message := Some "UUID not part of the active data set!";
                     pi_shape := None; pi_static_file_link := None;
                     pi_static_preview_link := None;
                     pi_smap_preview_link := None;
                     pi_smap_static_file_link := None |}
          | Some de =>
              pv <- of_outcome (preview_image c de) ;;
              let '(preview_path, shape) := pv in
              cached <- cache_static de ;;
              ret {| pi_success := true; pi_message := None;
                     pi_shape := Some shape;
                     pi_static_file_link :=
                       Some (path_join "static/data" (de_path cached));
                     pi_static_preview_link :=
                       Some (path_join "static/data" preview_path);
                     pi_smap_preview_link := None;
                     pi_smap_static_file_link := None |}
          end ;;
  a <- lift get ;;
  if saliency_descr_flag a then
    with_current_session sid (
      s <- iqrs ;;
      match working_index s !! uid with
      | None => ret (JsonPreview info)
      | Some desr =>
          label <- match target_label s with
                   | Some l => ret l
                   | None => raise (OtherError "AttributeError" "target_label")
                   end ;;
          a <- self ;;
          (* the element is an object of the index: the update is made
             in place and seen by every holder of the element *)
          (if bool_decide (label ∈ (saliency_map a (uid, desr)).*1)
           then ret ()
           else
             temp_descr <- of_outcome (saliency_descriptor c de label) ;;
             modify_self
               (update_saliency_map (uid, desr)
                  (d_saliency_map temp_descr.2))) ;;;
          a <- self ;;
          sm_uuid <- match list_find (λ kv, kv.1 = label)
                             (saliency_map a (uid, desr)) with
                     | Some (_, kv) => ret kv.2
                     | None => raise (OtherError "KeyError" "target_label")
                     end ;;
          sm <- getitem (smap_set c) sm_uuid ;;
          pv <- of_outcome (preview_image c sm) ;;
          let sm_path := pv.1 in
          modify_self (λ a,
            match static_cache a !! sm_uuid with
            | Some _ => a
            | None => set_static_cache (<[sm_uuid := sm]> (static_cache a)) a
            end) ;;;
          a <- self ;;
          sm_cached <- getitem (static_cache a) sm_uuid ;;
          ret (JsonPreview
                 {| pi_success := pi_success info;
                    pi_message := pi_message info;
                    pi_shape := pi_shape info;
                    pi_static_file_link := pi_static_file_link info;
                    pi_static_preview_link := pi_static_preview_link info;
                    pi_smap_preview_link :=
                      Some (path_join "static/data" sm_path);
                    pi_smap_static_file_link :=
                      Some (path_join "static/data" (de_path sm_cached)) |})
      end)
  else ret (JsonPreview info).

(** [POST /iqr_ingest_file] *)
Definition iqr_ingest_file (fid : string) : St World response :=
  with_current_session sid (
    s <- iqrs ;;
    a <- self ;;
    wdir <- getitem (iqr_work_dirs a) (uuid s) ;;
    let upload_data := uploaded_data c wdir fid in
    let data_uuid := de_uuid upload_data in
    ex_data <- getitem (iqr_example_data a) (uuid s) ;;
    modify_self (λ a, set_example_data
                        (<[uuid s := <[data_uuid := upload_data]> ex_data]>
                           (iqr_example_data a)) a) ;;;
    r <- try_except
           (d <- of_outcome (compute_descriptor c upload_data) ;; ret (inr d))
           (λ ex, if isinstance_ValueError ex
                  then ret (inl (Text (String.append "Input Error: "
                                         (exn_str ex)) 400))
                  else raise ex) ;;
    match r with
    | inl early => ret early
    | inr upload_descr =>
        a <- self ;;
        ex_descr <- getitem (iqr_example_pos_descr a) (uuid s) ;;
        modify_self (λ a, set_example_pos_descr
                            (<[uuid s := <[data_uuid := upload_descr]> ex_descr]>
                               (iqr_example_pos_descr a)) a) ;;;
        (if saliency_descr_flag a then
           match d_saliency_map upload_descr.2 with
           | (l, _) :: _ => modify_iqrs (set_target_label (Some l))
           | [] => raise (IndexError "list index out of range")
           end
         else ret ()) ;;;
        modify_iqrs (session_adjudicate [upload_descr] [] [] []) ;;;
        ret (Text data_uuid 200)
    end).

(** [POST /iqr_initialize] *)
Definition iqr_initialize : St World response :=
  with_current_session sid (
    try_except
      (call_iqrs (update_working_index c) ;;;
       ret (JsonStatus true "Completed initialization"))
      (λ ex, ret (JsonStatus false (error_message ex)))).

(** [GET /get_example_adjudication] *)
Definition get_example_adjudication (elem_uuid : string) : St World response :=
  with_current_session sid (
    s <- iqrs ;;
    a <- self ;;
    ex <- getitem (iqr_example_pos_descr a) (uuid s) ;;
    ret (JsonAdjudication (bool_decide (is_Some (ex !! elem_uuid))) false)).

(** [GET /get_index_adjudication] *)
Definition get_index_adjudication (elem_uuid : string) : St World response :=
  with_current_session sid (
    s <- iqrs ;;
    let is_p := bool_decide (elem_uuid ∈ uuids (positive_descriptors s)) in
    let is_n := bool_decide (elem_uuid ∈ uuids (negative_descriptors s)) in
    ret (JsonAdjudication is_p is_n)).

(** [POST,GET /adjudicate] *)
Definition adjudicate (pos_to_add pos_to_remove neg_to_add neg_to_remove
    : list string) : St World response :=
  with_current_session sid (
    s <- iqrs ;;
    new_pos <- of_outcome (get_many_descriptors (working_index s) pos_to_add) ;;
    new_neg <- of_outcome (get_many_descriptors (working_index s) neg_to_add) ;;
    un_pos <- of_outcome (get_many_descriptors (working_index s) pos_to_remove) ;;
    un_neg <- of_outcome (get_many_descriptors (working_index s) neg_to_remove) ;;
    modify_iqrs (session_adjudicate new_pos new_neg un_pos un_neg)) ;;;
  ret (JsonStatus true
         (adjudicate_message pos_to_add pos_to_remove neg_to_add neg_to_remove)).

(** [POST /iqr_refine] *)
Definition iqr_refine : St World response :=
  with_current_session sid (
    try_except
      (call_iqrs (refine c) ;;;
       ret (JsonStatus true "Completed refinement"))
      (λ ex, ret (JsonStatus false (error_message ex)))).

(** [GET /iqr_ordered_results]; [i] and [j] are the optional request
    arguments. *)
Definition get_ordered_results (i_arg j_arg : option Z) : St World response :=
  with_current_session sid (
    s <- iqrs ;;
    let i := default 0%Z i_arg in
    let j := default (match results s with
                      | Some (x :: l) => Z.of_nat (length (x :: l))
                      | _ => 0%Z
                      end) j_arg in
    let r := py_slice (ordered_results s) i j in
    ret (JsonResults ((λ dp : DescriptorElement * Qc, (d_uuid dp.1, dp.2)) <$> r))).

(** [GET /reset_iqr_session] *)
Definition reset_iqr_session : St World response :=
  with_current_session sid (
    modify_iqrs session_reset ;;;
    s <- iqrs ;;
    a <- self ;;
    (* the work directory is removed and created again *)
    _ <- getitem (iqr_work_dirs a) (uuid s) ;;
    _ <- getitem (iqr_example_data a) (uuid s) ;;
    modify_self (λ a, set_example_data
                        (<[uuid s := ∅]> (iqr_example_data a)) a) ;;;
    _ <- getitem (iqr_example_pos_descr a) (uuid s) ;;
    modify_self (λ a, set_example_pos_descr
                        (<[uuid s := ∅]> (iqr_example_pos_descr a)) a) ;;;
    ret (JsonSuccess true)).

(** [GET /get_random_uids]; [draw] is the random source of the shuffle. *)
Definition get_random_uids (draw : nat → nat) : St World response :=
  all_ids <- with_current_session sid (
               s <- iqrs ;;
               ret (map_to_list (working_index s)).*1) ;;
  ret (JsonUids (shuffle draw all_ids)).

End Handlers.

(** The exposed operations. *)
Inductive request :=
| Index
| IqrSessionInfo
| IqrSessionState
| CheckCurrentIqrSession
| GetDataPreviewImage (uid : string)
| IqrIngestFile (fid : string)
| IqrInitialize
| GetExampleAdjudication (uid : string)
| GetIndexAdjudication (uid : string)
| Adjudicate (add_pos remove_pos add_neg remove_neg : list string)
| IqrRefine
| IqrOrderedResults (i j : option Z)
| ResetIqrSession
| GetRandomUids (draw : nat → nat).

Definition handle (c : Capabilities) (sid : string) (req : request)
    : St World response :=
  match req with
  | Index => index
  | IqrSessionInfo => iqr_session_info sid
  | IqrSessionState => iqr_session_state sid
  | CheckCurrentIqrSession => check_current_iqr_session sid
  | GetDataPreviewImage uid => get_ingest_item_image_rep c sid uid
  | IqrIngestFile fid => iqr_ingest_file c sid fid
  | IqrInitialize => iqr_initialize c sid
  | GetExampleAdjudication uid => get_example_adjudication sid uid
  | GetIndexAdjudication uid => get_index_adjudication sid uid
  | Adjudicate ap rp an rn => adjudicate sid ap rp an rn
  | IqrRefine => iqr_refine c sid
  | IqrOrderedResults i j => get_ordered_results sid i j
  | ResetIqrSession => reset_iqr_session sid
  | GetRandomUids draw => get_random_uids sid draw
  end.

(** ** Concurrent callers of [get_current_iqr_session]

    Request threads interleave at statement granularity.  Each caller runs
    the statements of [get_current_iqr_session] one at a time; a caller
    that finds the registry lock taken does not move. *)

Inductive gc_pc :=
| PcEnter                              (* with self._iqr_controller:      *)
| PcHas                                (* if not has_session_uuid(sid):   *)
| PcConstruct                          (* iqr_sess = IqrSession(...)      *)
| PcAdd (iqr_sess : IqrSession)        (* add_session(iqr_sess)           *)
| PcWorkDir (iqr_sess : IqrSession)    (* _iqr_work_dirs[...] = ...       *)
| PcExData (iqr_sess : IqrSession)     (* _iqr_example_data[...] = {}     *)
| PcExDescr (iqr_sess : IqrSession)    (* _iqr_example_pos_descr[...] = {} *)
| PcGet                                (* get_session(sid)                *)
| PcExit (r : outcome IqrSession)      (* leaving the with block          *)
| PcDone (r : outcome IqrSession).     (* returned                        *)

Record Caller := {
  key : string;
  pc : gc_pc;
}.

Record Conc := {
  c_app : IqrSearch;
  (** the caller holding the registry lock *)
  c_lock : option nat;
  c_callers : list Caller;
  (** every [IqrSession] constructed so far, oldest first *)
  c_created : list IqrSession;
}.

Definition goto (t : nat) (p : gc_pc) (st : Conc) : Conc :=
  {| c_app := c_app st; c_lock := c_lock st;
     c_callers := alter (λ cl, {| key := key cl; pc := p |}) t (c_callers st);
     c_created := c_created st |}.

Definition set_app (a : IqrSearch) (st : Conc) : Conc :=
  {| c_app := a; c_lock := c_lock st;
     c_callers := c_callers st; c_created := c_created st |}.

Definition set_lock (l : option nat) (st : Conc) : Conc :=
  {| c_app := c_app st; c_lock := l;
     c_callers := c_callers st; c_created := c_created st |}.

Definition record_created (s : IqrSession) (st : Conc) : Conc :=
  {| c_app := c_app st; c_lock := c_lock st;
     c_callers := c_callers st; c_created := c_created st ++ [s] |}.

(** One statement of caller [t]. *)
Definition caller_step (t : nat) (st : Conc) : Conc :=
  match c_callers st !! t with
  | None => st
  | Some cl =>
      match pc cl with
      | PcEnter =>
          match c_lock st with
          | None => goto t PcHas (set_lock (Some t) st)
          | Some _ => st
          end
      | PcHas =>
          if negb (has_session_uuid (key cl) (c_app st))
          then goto t PcConstruct st
          else goto t PcGet st
      | PcConstruct =>
          let iqr_sess :=
            new_IqrSession (cfg_pos_seed_neighbors (c_app st)) (key cl) in
          goto t (PcAdd iqr_sess) (record_created iqr_sess st)
      | PcAdd iqr_sess =>
          goto t (PcWorkDir iqr_sess)
            (set_app (add_session iqr_sess (c_app st)).2 st)
      | PcWorkDir iqr_sess =>
          goto t (PcExData iqr_sess)
            (set_app (register_work_dir iqr_sess (key cl) (c_app st)).2 st)
      | PcExData iqr_sess =>
          goto t (PcExDescr iqr_sess)
            (set_app (register_example_data iqr_sess (c_app st)).2 st)
      | PcExDescr iqr_sess =>
          goto t PcGet
            (set_app (register_example_pos_descr iqr_sess (c_app st)).2 st)
      | PcGet =>
          let '(r, a) := get_session (key cl) (c_app st) in
          goto t (PcExit r) (set_app a st)
      | PcExit r => goto t (PcDone r) (set_lock None st)
      | PcDone _ => st
      end
  end.

(** A schedule names the caller that moves at each step. *)
Definition run (sched : list nat) (st : Conc) : Conc :=
  foldl (λ st t, caller_step t st) st sched.

Definition start (a : IqrSearch) (keys : list string) : Conc :=
  {| c_app := a; c_lock := None;
     c_callers := (λ k, {| key := k; pc := PcEnter |}) <$> keys;
     c_created := [] |}.

(** What caller [t] received, once it has returned. *)
Definition returned (t : nat) (st : Conc) : option (outcome IqrSession) :=
  match c_callers st !! t with
  | Some {| pc := PcDone r |} => Some r
  | _ => None
  end.

(** The state in which caller [t] is at [p], the others as in [callers]. *)
Definition at_pc (callers : list Caller) (t : nat) (p : gc_pc)
    (a : IqrSearch) (l : option nat) (cr : list IqrSession) : Conc :=
  goto t p {| c_app := a; c_lock := l; c_callers := callers;
              c_created := cr |}.

(** A caller is inside the [with self._iqr_controller:] block. *)
Definition in_cs (p : gc_pc) : bool :=
  match p with
  | PcEnter | PcDone _ => false
  | _ => true
  end.

(** What a caller with key [k] knows at each point of the function. *)
Definition pc_fact (a : IqrSearch) (created : list IqrSession) (k : string)
    (p : gc_pc) : Prop :=
  match p with
  | PcEnter | PcHas => True
  | PcConstruct => iqr_controller a !! k = None
  | PcAdd s => uuid s = k ∧ iqr_controller a !! k = None ∧ s ∈ created
  | PcWorkDir _ | PcExData _ | PcExDescr _ | PcGet =>
      is_Some (iqr_controller a !! k)
  | PcExit r | PcDone r => ∃ s, r = Return s ∧ iqr_controller a !! k = Some s
  end.

(** Invariant of the concurrent executions that start from application
    [a0]. *)
Record conc_inv (a0 : IqrSearch) (st : Conc) : Prop := {
  inv_lock : ∀ t cl, c_callers st !! t = Some cl →
               (in_cs (pc cl) = true ↔ c_lock st = Some t);
  inv_mono : ∀ k s, iqr_controller a0 !! k = Some s →
               iqr_controller (c_app st) !! k = Some s;
  inv_nodup : NoDup (uuid <$> c_created st);
  inv_created : ∀ s, s ∈ c_created st →
    iqr_controller a0 !! uuid s = None ∧
    (∃ t cl, c_callers st !! t = Some cl ∧ key cl = uuid s) ∧
    (iqr_controller (c_app st) !! uuid s = Some s ∨
     ∃ t cl, c_callers st !! t = Some cl ∧ pc cl = PcAdd s);
  inv_registry : ∀ k s, iqr_controller (c_app st) !! k = Some s →
    iqr_controller a0 !! k = Some s ∨ s ∈ c_created st;
  inv_pc : ∀ t cl, c_callers st !! t = Some cl →
    pc_fact (c_app st) (c_created st) (key cl) (pc cl);
}.

(** ** Lock discipline *)

(** Locks held after a trace, most recently taken first. *)
Fixpoint held_after (tr : list lock_event) (held : list lock) : list lock :=
  match tr with
  | [] => held
  | Acquire l :: tr' => held_after tr' (l :: held)
  | Release l :: tr' =>
      held_after tr'
        (match list_find (λ l', l' = l) held with
         | Some (i, _) => delete i held
         | None => held
         end)
  end.

Definition is_session_lock (l : lock) : bool :=
  match l with SessionLock _ => true | RegistryLock => false end.

(** The registry lock and some session lock are both held. *)
Definition both_held (held : list lock) : bool :=
  bool_decide (RegistryLock ∈ held) && existsb is_session_lock held.

(** At no point of the trace are both levels held. *)
Definition never_both (tr : list lock_event) : Prop :=
  ∀ n, both_held (held_after (take n tr) []) = false.

(** ** A small installation, for examples *)

Definition vecA : DescriptorPayload :=
  {| d_vector := [Q2Qc (1 # 10); Q2Qc (2 # 10)]; d_saliency_map := [] |}.
Definition vecB : DescriptorPayload :=
  {| d_vector := [Q2Qc (3 # 10); Q2Qc (1 # 10)]; d_saliency_map := [] |}.
Definition descA : DescriptorElement := ("A", vecA).
Definition descB : DescriptorElement := ("B", vecB).

(** The generator accepts the file "good" and rejects anything else. *)
Definition demo_caps : Capabilities :=
  {| nn := λ _ k, Return (take k [descA; descB]);
     rank := λ _ _ _, Return (λ d, if String.eqb (d_uuid d) "A"
                                   then Q2Qc (9 # 10) else Q2Qc (4 # 10));
     compute_descriptor := λ de,
       if String.eqb (de_uuid de) "A" then Return descA
       else Raise (ValueError "cannot read");
     uploaded_data := λ wdir fid,
       {| de_uuid := if String.eqb fid "good" then "A" else "X";
          de_path := path_join wdir fid |};
     data_set := ∅;
     preview_image := λ de, Return (de_path de, (1, 1));
     smap_set := ∅;
     saliency_descriptor := λ _ _, Raise (ValueError "no saliency") |}.

(** A ranker that gives every element the same probability. *)
Definition flat_caps : Capabilities :=
  {| nn := nn demo_caps;
     rank := λ _ _ _, Return (λ _, Q2Qc (1 # 2));
     compute_descriptor := compute_descriptor demo_caps;
     uploaded_data := uploaded_data demo_caps;
     data_set := ∅;
     preview_image := preview_image demo_caps;
     smap_set := ∅;
     saliency_descriptor := saliency_descriptor demo_caps |}.

Definition app0 : IqrSearch := new_IqrSearch 2 false "/work".

Definition world0 : World := {| app := app0; trace := [] |}.

(** Serve a list of requests, each with the session key of its client,
    collecting the responses. *)
Fixpoint serve (c : Capabilities) (reqs : list (string * request))
    (w : World) : list (outcome response) * World :=
  match reqs with
  | [] => ([], w)
  | (sid, req) :: rest =>
      let '(r, w1) := handle c sid req w in
      let '(rs, w2) := serve c rest w1 in
      (r :: rs, w2)
  end.

(** ** Derived notions used in the statements *)

(** The session a handler works on for key [sid]: the registered one, or
    the one [get_current_iqr_session] creates. *)
Definition current_session (sid : string) (a : IqrSearch) : IqrSession :=
  default (new_IqrSession (cfg_pos_seed_neighbors a) sid)
          (iqr_controller a !! sid).

(** The application after the lookup-or-create step. *)
Definition ensure_session (sid : string) (a : IqrSearch) : IqrSearch :=
  (lookup_or_create sid a).2.

(** Lock events of one [with self.get_current_iqr_session() as iqrs:]. *)
Definition session_block (sid : string) : list lock_event :=
  [Acquire RegistryLock; Release RegistryLock;
   Acquire (SessionLock sid); Release (SessionLock sid)].

(** What a client sees of a ranked result. *)
Definition result_pairs (r : list (DescriptorElement * Qc))
    : list (string * Qc) :=
  (λ dp : DescriptorElement * Qc, (d_uuid dp.1, dp.2)) <$> r.

(** The slice in the words of the specification: the entries at the
    positions [p] with [i <= p < j], as far as they exist. *)
Definition spec_slice {A} (l : list A) (i j : Z) : list A :=
  (filter (λ px : nat * A, (i ≤ Z.of_nat px.1 < j)%Z) (imap pair l)).*2.

(** A world in which client "k" has uploaded "good", initialised and
    refined. *)
Definition world_ranked : World :=
  (serve demo_caps
     [("k", IqrIngestFile "good"); ("k", IqrInitialize); ("k", IqrRefine)]
     world0).2.

(** The two adjudication sets of a session share no identifier. *)
Definition disjoint_session (s : IqrSession) : Prop :=
  dom (positive_descriptors s) ## dom (negative_descriptors s).

Definition sessions_disjoint (a : IqrSearch) : Prop :=
  ∀ k s, iqr_controller a !! k = Some s → disjoint_session s.

(** A computation keeps an invariant of its state, on every way out. *)
Definition keeps {S A} (I : S → Prop) (m : St S A) : Prop :=
  ∀ st, I st → I (m st).2.

Definition body_inv (st : IqrSession * IqrSearch) : Prop :=
  disjoint_session st.1 ∧ sessions_disjoint st.2.

Definition world_inv (w : World) : Prop := sessions_disjoint (app w).

(** One call of the session's adjudicate operation. *)
Record adjudication := {
  new_positives : list DescriptorElement;
  new_negatives : list DescriptorElement;
  un_positives : list DescriptorElement;
  un_negatives : list DescriptorElement;
}.

Definition apply_adjudication (s : IqrSession) (adj : adjudication)
    : IqrSession :=
  session_adjudicate (new_positives adj) (new_negatives adj)
    (un_positives adj) (un_negatives adj) s.

(** The nearest-neighbour index answers a query for [k] neighbours with at
    most [k] elements. *)
Definition nn_answers_at_most (c : Capabilities) (k : nat)
    (p : DescriptorElement) : Prop :=
  ∀ ns, nn c p k = Return ns → length ns ≤ k.

(** The nearest-neighbour index answers a query for [k] neighbours with
    elements of at least [k] distinct identifiers. *)
Definition nn_answers_at_least (c : Capabilities) (k : nat)
    (p : DescriptorElement) : Prop :=
  ∃ ns, nn c p k = Return ns ∧
        k ≤ size (list_to_set (d_uuid <$> ns) : gset string).

(** The working index of a session, each element with its score. *)
Definition scored_pool (score : DescriptorElement → Qc) (s : IqrSession)
    : list (DescriptorElement * Qc) :=
  (λ d, (d, score d)) <$> map_to_list (working_index s).

(** An installation with seed-neighbour count 3 on the two-element index. *)
Definition world_seed3 : World :=
  (serve demo_caps [("k", IqrIngestFile "good")]
     {| app := new_IqrSearch 3 false "/work"; trace := [] |}).2.

Definition vecC : DescriptorPayload :=
  {| d_vector := [Q2Qc (2 # 10); Q2Qc (2 # 10)]; d_saliency_map := [] |}.
Definition descC : DescriptorElement := ("C", vecC).

(** An index of three descriptors: the neighbours of "A" are "A" and "B",
    those of any other element "B" and "C". *)
Definition chain_caps : Capabilities :=
  {| nn := λ p k, Return (take k (if String.eqb (d_uuid p) "A"
                                  then [descA; descB] else [descB; descC]));
     rank := rank demo_caps;
     compute_descriptor := compute_descriptor demo_caps;
     uploaded_data := uploaded_data demo_caps;
     data_set := ∅;
     preview_image := preview_image demo_caps;
     smap_set := ∅;
     saliency_descriptor := saliency_descriptor demo_caps |}.

(** Client "k" has uploaded "good" and marked its neighbour "B" positive:
    two positives, seed-neighbour count 2. *)
Definition world_two_positives : World :=
  (serve chain_caps
     [("k", IqrIngestFile "good"); ("k", IqrInitialize);
      ("k", Adjudicate ["B"] [] [] [])] world0).2.

(** An installation with saliency on: the generator gives the upload a
    saliency map for label 7, and computes a saliency map for any label
    asked for. *)
Definition saliency_caps : Capabilities :=
  {| nn := nn demo_caps;
     rank := rank demo_caps;
     compute_descriptor := λ de,
       Return (de_uuid de,
               {| d_vector := d_vector vecA;
                  d_saliency_map := [(7%Z, "smA")] |});
     uploaded_data := uploaded_data demo_caps;
     data_set := ∅;
     preview_image := preview_image demo_caps;
     smap_set := {["sm" := {| de_uuid := "sm"; de_path := "sm.png" |}]};
     saliency_descriptor := λ _ l,
       Return ("T", {| d_vector := []; d_saliency_map := [(l, "sm")] |}) |}.

(** Clients "k" and "j" have each uploaded "good" and initialized: the
    working indexes of both hold the elements "A" and "B" of the index. *)
Definition world_saliency : World :=
  (serve saliency_caps
     [("k", IqrIngestFile "good"); ("k", IqrInitialize);
      ("j", IqrIngestFile "good"); ("j", IqrInitialize)]
     {| app := new_IqrSearch 2 true "/work"; trace := [] |}).2.

(** A computation adds whole session blocks to the trace, nothing else. *)
Definition emits {A} (sid : string) (m : St World A) : Prop :=
  ∀ w, ∃ n, trace (m w).2
            = trace w ++ concat (replicate n (session_block sid)).

(** A world in which client "k" has only uploaded "good". *)
Definition world_uploaded : World :=
  (serve demo_caps [("k", IqrIngestFile "good")] world0).2.

(** ** Notions for the handlers as a whole *)

(** Requests that only query the session. *)
Definition read_only (req : request) : bool :=
  match req with
  | IqrSessionInfo | IqrSessionState | CheckCurrentIqrSession
  | GetExampleAdjudication _ | GetIndexAdjudication _
  | IqrOrderedResults _ _ | GetRandomUids _ => true
  | _ => false
  end.

(** The descriptors a list of identifiers resolves to in an index. *)
Definition resolve (m : gmap string DescriptorPayload) (uids : list string)
    : list DescriptorElement :=
  omap (λ u, pair u <$> m !! u) uids.

(** A computation keeps an invariant of its state on every way out, and
    what it returns satisfies [V]. *)
Definition keepsv {S A} (I : S → Prop) (V : A → Prop) (m : St S A) : Prop :=
  ∀ st, I st → I (m st).2 ∧ ∀ a, (m st).1 = Return a → V a.

(** Every registered session is registered under its own uuid and has its
    work directory and its two example dictionaries. *)
Definition well_formed (a : IqrSearch) : Prop :=
  ∀ k s, iqr_controller a !! k = Some s →
    uuid s = k ∧ is_Some (iqr_work_dirs a !! k) ∧
    is_Some (iqr_example_data a !! k) ∧
    is_Some (iqr_example_pos_descr a !! k).

(** Everything kept for clients other than [sid] is as in [a0], and a
    session of [sid] registered in [a0] is still registered. *)
Definition untouched (sid : string) (a0 a : IqrSearch) : Prop :=
  (∀ k, k ≠ sid →
     iqr_controller a !! k = iqr_controller a0 !! k ∧
     iqr_work_dirs a !! k = iqr_work_dirs a0 !! k ∧
     iqr_example_data a !! k = iqr_example_data a0 !! k ∧
     iqr_example_pos_descr a !! k = iqr_example_pos_descr a0 !! k) ∧
  (is_Some (iqr_controller a0 !! sid) → is_Some (iqr_controller a !! sid)) ∧
  (∀ s, iqr_controller a !! sid = Some s → uuid s = sid).

(** Invariant of the code run on the session of [sid]: the session keeps
    its uuid and the application keeps [Q]. *)
Definition on_own_session (sid : string) (Q : IqrSearch → Prop)
    (st : IqrSession * IqrSearch) : Prop :=
  uuid st.1 = sid ∧ Q st.2.

(** ** Properties *)

(** *** The lookup-or-create step and the session block *)

Lemma lookup_or_create_run sid a :
  lookup_or_create sid a =
    (Return (current_session sid a), ensure_session sid a).
Proof.
  unfold ensure_session, lookup_or_create, current_session,
    has_session_uuid, bind, get.
  destruct (iqr_controller a !! sid) as [s|] eqn:E; simpl.
  - unfold get_session, bind, get. simpl. by rewrite E.
  - unfold get_session, bind, get. simpl. by rewrite lookup_insert_eq.
Qed.

Lemma ensure_session_existing sid a :
  is_Some (iqr_controller a !! sid) → ensure_session sid a = a.
Proof.
  intros [s E].
  unfold ensure_session, lookup_or_create, has_session_uuid, bind, get.
  rewrite E. simpl. unfold get_session, bind, get. simpl. by rewrite E.
Qed.

Lemma ensure_session_new sid a :
  iqr_controller a !! sid = None →
  ensure_session sid a =
    (register_example_pos_descr (new_IqrSession (cfg_pos_seed_neighbors a) sid)
      (register_example_data (new_IqrSession (cfg_pos_seed_neighbors a) sid)
        (register_work_dir (new_IqrSession (cfg_pos_seed_neighbors a) sid) sid
          (add_session (new_IqrSession (cfg_pos_seed_neighbors a) sid) a).2).2).2).2.
Proof.
  intros E.
  unfold ensure_session, lookup_or_create, has_session_uuid, bind, get.
  rewrite E. simpl. unfold get_session, bind, get. simpl.
  by rewrite lookup_insert_eq.
Qed.

Lemma ensure_session_lookup sid a :
  iqr_controller (ensure_session sid a) !! sid = Some (current_session sid a).
Proof.
  destruct (iqr_controller a !! sid) as [s|] eqn:E.
  - rewrite ensure_session_existing by eauto.
    unfold current_session. by rewrite E.
  - rewrite ensure_session_new by done. unfold current_session. rewrite E.
    simpl. apply lookup_insert_eq.
Qed.

Lemma with_current_session_run {A} sid
    (body : St (IqrSession * IqrSearch) A) w :
  with_current_session sid body w =
    let '(r, (s', a')) :=
      body (current_session sid (app w), ensure_session sid (app w)) in
    (r, {| app := set_controller (<[sid := s']> (iqr_controller a')) a';
           trace := trace w ++ session_block sid |}).
Proof.
  unfold with_current_session, get_current_iqr_session, with_lock, lift,
    log, bind, modify.
  simpl. rewrite lookup_or_create_run. simpl.
  unfold on_session. rewrite ensure_session_lookup.
  destruct (body _) as [r [s' a']]. simpl.
  by rewrite <- !app_assoc.
Qed.

(** *** Ordered results: slicing *)

Section Slice.
Context {A : Type}.
Implicit Types l : list A.

Lemma spec_slice_from l (k i j : nat) :
  (filter (λ px : nat * A, (Z.of_nat i ≤ Z.of_nat px.1 < Z.of_nat j)%Z)
          (imap (λ p x, (k + p, x)) l)).*2
  = take (j - Nat.max i k) (drop (i - k) l).
Proof.
  revert k. induction l as [|x l IH]; intros k.
  - by rewrite drop_nil, take_nil.
  - rewrite imap_cons, filter_cons.
    rewrite (imap_ext _ (λ p x, (S k + p, x)))
      by (intros; simpl; f_equal; lia).
    case_decide as Hk; [rewrite fmap_cons|]; rewrite IH; simpl in Hk.
    + replace (i - k) with 0 by lia.
      replace (j - Nat.max i k) with (S (j - Nat.max i (S k))) by lia.
      replace (i - S k) with 0 by lia. done.
    + destruct (decide (k < i)).
      * replace (i - k) with (S (i - S k)) by lia. simpl.
        f_equal. lia.
      * replace (j - Nat.max i (S k)) with 0 by lia.
        replace (j - Nat.max i k) with 0 by lia. done.
Qed.

Lemma spec_slice_take_drop l (i j : nat) :
  spec_slice l (Z.of_nat i) (Z.of_nat j) = take (j - i) (drop i l).
Proof.
  unfold spec_slice.
  rewrite (imap_ext _ (λ p x, (0 + p, x))) by done.
  rewrite spec_slice_from. f_equal; [lia | f_equal; lia].
Qed.

Lemma py_slice_take_drop l (i j : nat) :
  py_slice l (Z.of_nat i) (Z.of_nat j) = take (j - i) (drop i l).
Proof.
  unfold py_slice, slice_index.
  destruct (Z.ltb_spec (Z.of_nat i) 0); [lia|].
  destruct (Z.ltb_spec (Z.of_nat j) 0); [lia|].
  destruct (decide (i < length l)) as [Hi|Hi].
  - replace (Z.to_nat (Z.of_nat i `min` Z.of_nat (length l))) with i by lia.
    destruct (decide (j ≤ length l)).
    + f_equal. lia.
    + rewrite !take_ge; [done | rewrite length_drop; lia ..].
  - rewrite !(drop_ge l) by lia. by rewrite !take_nil.
Qed.

Lemma py_slice_nil (i j : Z) : py_slice (@nil A) i j = [].
Proof. unfold py_slice. by rewrite drop_nil, take_nil. Qed.

Lemma py_slice_all l : py_slice l 0 (Z.of_nat (length l)) = l.
Proof.
  change 0%Z with (Z.of_nat 0). rewrite py_slice_take_drop.
  rewrite drop_0. apply take_ge. lia.
Qed.

Lemma py_slice_default (res : option (list A)) :
  py_slice (default [] res) 0
    (match res with
     | Some (x :: l) => Z.of_nat (length (x :: l))
     | _ => 0%Z
     end) = default [] res.
Proof.
  destruct res as [[|x l]|]; [apply py_slice_nil | | apply py_slice_nil].
  apply (py_slice_all (x :: l)).
Qed.
End Slice.

Lemma get_ordered_results_run sid i_arg j_arg w :
  (get_ordered_results sid i_arg j_arg w).1 =
    let s := current_session sid (app w) in
    Return (JsonResults (result_pairs
      (py_slice (ordered_results s) (default 0%Z i_arg)
         (default (match results s with
                   | Some (x :: l) => Z.of_nat (length (x :: l))
                   | _ => 0%Z
                   end) j_arg)))).
Proof.
  unfold get_ordered_results. rewrite with_current_session_run. done.
Qed.

(** C9 (as amended): for requested indices [0 <= i] and [0 <= j] the
    ordered-results operation returns the entries at positions [i, j)
    clipped to the length of the stored result: everything from [i] on when
    [j] exceeds the length, nothing when [i] is at or beyond the length;
    and for any indices nothing at all while no refine has stored a
    result. *)
Theorem get_ordered_results_slice sid (i j : Z) w :
  let s := current_session sid (app w) in
  let l := ordered_results s in
  (results s = None →
     (get_ordered_results sid (Some i) (Some j) w).1
       = Return (JsonResults [])) ∧
  ((0 ≤ i)%Z → (0 ≤ j)%Z →
     ∃ r, (get_ordered_results sid (Some i) (Some j) w).1
            = Return (JsonResults (result_pairs r)) ∧
          r = spec_slice l i j ∧
          r = take (Z.to_nat j - Z.to_nat i) (drop (Z.to_nat i) l) ∧
          ((Z.of_nat (length l) < j)%Z → r = drop (Z.to_nat i) l) ∧
          ((Z.of_nat (length l) ≤ i)%Z → r = [])).
Proof.
  intros s l. split.
  - intros Hnone. rewrite get_ordered_results_run. simpl.
    unfold ordered_results. fold s. rewrite Hnone. simpl.
    by rewrite py_slice_nil.
  - intros Hi Hj. rewrite get_ordered_results_run. simpl. fold s l.
    exists (py_slice l i j). split; [done|].
    rewrite <- (Z2Nat.id i), <- (Z2Nat.id j) by done.
    rewrite py_slice_take_drop, spec_slice_take_drop, !Nat2Z.id.
    repeat split.
    + intros Hlen. apply take_ge. rewrite length_drop. lia.
    + intros Hlen. rewrite drop_ge by lia. apply take_nil.
Qed.

Lemma get_ordered_results_slice_witness :
  (get_ordered_results "k" (Some 0%Z) (Some 5%Z) world_ranked).1
    = Return (JsonResults [("A", Q2Qc (9 # 10)); ("B", Q2Qc (4 # 10))]).
Proof.
  destruct (get_ordered_results_slice "k" 0 5 world_ranked) as [_ H].
  destruct H as (r & Hr & _ & Htake & _); [lia | lia |].
  rewrite Hr, Htake. vm_compute. reflexivity.
Defined.

(** C9 as stated fails for a negative [j]: with two stored entries, the
    request [i = 0], [j = -1] returns the first entry, although no position
    lies in [0, -1). *)
Lemma get_ordered_results_negative_stop :
  (0 ≤ 0)%Z ∧
  spec_slice (ordered_results (current_session "k" (app world_ranked)))
             0 (-1) = [] ∧
  (get_ordered_results "k" (Some 0%Z) (Some (-1)%Z) world_ranked).1
    = Return (JsonResults [("A", Q2Qc (9 # 10))]) ∧
  (get_ordered_results "k" (Some 0%Z) (Some (-1)%Z) world_ranked).1
    ≠ Return (JsonResults (result_pairs
        (spec_slice (ordered_results (current_session "k" (app world_ranked)))
                    0 (-1)))).
Proof.
  split; [lia|]. split; [by vm_compute|]. split; [by vm_compute|].
  vm_compute. discriminate.
Qed.

(** *** Reset *)

Ltac run_body :=
  unfold bind, modify_iqrs, modify_self, modify, iqrs, self, getitem, get,
    ret, raise, of_outcome, call_iqrs, try_except; simpl.

Lemma session_reset_fields s :
  positive_descriptors (session_reset s) = ∅ ∧
  negative_descriptors (session_reset s) = ∅ ∧
  working_index (session_reset s) = ∅ ∧
  results (session_reset s) = None ∧
  uuid (session_reset s) = uuid s.
Proof. done. Qed.

Lemma reset_iqr_session_run sid w :
  ∃ r a',
    reset_iqr_session sid w =
      (r, {| app := set_controller
                      (<[sid := session_reset (current_session sid (app w))]>
                         (iqr_controller (ensure_session sid (app w)))) a';
             trace := trace w ++ session_block sid |}).
Proof.
  unfold reset_iqr_session. rewrite with_current_session_run.
  run_body.
  repeat (case_match; simpl; simplify_eq); eauto.
Qed.

(** C8: reset clears the positive and the negative adjudication set, the
    working index and the stored ordered result, so that a later
    ordered-results call returns the empty list, and it keeps the session
    identifier: the same key still maps to the (now cleared) session. *)
Theorem reset_iqr_session_clears sid w :
  let before := current_session sid (app w) in
  let w' := (reset_iqr_session sid w).2 in
  ∃ after,
    iqr_controller (app w') !! sid = Some after ∧
    positive_descriptors after = ∅ ∧
    negative_descriptors after = ∅ ∧
    working_index after = ∅ ∧
    results after = None ∧
    ordered_results after = [] ∧
    uuid after = uuid before ∧
    ∀ i j, (get_ordered_results sid i j w').1 = Return (JsonResults []).
Proof.
  intros before w'. subst w'.
  destruct (reset_iqr_session_run sid w) as (r & a' & ->). simpl.
  exists (session_reset before). rewrite lookup_insert_eq.
  repeat split; try done.
  intros i j. rewrite get_ordered_results_run. simpl.
  unfold current_session. simpl. rewrite lookup_insert_eq. simpl.
  change (ordered_results (session_reset _)) with (@nil (DescriptorElement * Qc)).
  by rewrite py_slice_nil.
Qed.

(** *** Shuffling *)

Section Shuffle.
Context {A : Type}.
Implicit Types l : list A.

Lemma insert_head_Permutation l j a b :
  l !! j = Some b → b :: <[j := a]> l ≡ₚ a :: l.
Proof.
  revert j. induction l as [|x l IH]; intros [|j] Hj; simplify_eq/=.
  - apply perm_swap.
  - rewrite perm_swap, (IH j Hj). apply perm_swap.
Qed.

Lemma swap_lt_Permutation l i j a b :
  i < j → l !! i = Some a → l !! j = Some b →
  <[j := a]> (<[i := b]> l) ≡ₚ l.
Proof.
  revert i j. induction l as [|x l IH]; intros [|i] [|j] Hij Hi Hj;
    simplify_eq/=; try lia.
  - by apply insert_head_Permutation.
  - f_equiv. apply IH; [lia | done..].
Qed.

Lemma swap_Permutation l i j : swap i j l ≡ₚ l.
Proof.
  unfold swap.
  destruct (l !! i) as [a|] eqn:Hi; [|done].
  destruct (l !! j) as [b|] eqn:Hj; [|done].
  destruct (Nat.lt_total i j) as [Hlt|[->|Hlt]].
  - by apply swap_lt_Permutation.
  - simplify_eq. rewrite list_insert_insert_eq. by rewrite list_insert_id.
  - rewrite list_insert_insert_ne by lia. by apply swap_lt_Permutation.
Qed.

Lemma shuffle_from_Permutation draw i l : shuffle_from draw i l ≡ₚ l.
Proof.
  revert l. induction i as [|i IH]; intros l; simpl; [done|].
  by rewrite IH, swap_Permutation.
Qed.

Lemma shuffle_Permutation draw l : shuffle draw l ≡ₚ l.
Proof. apply shuffle_from_Permutation. Qed.
End Shuffle.

Lemma get_random_uids_run sid draw w :
  (get_random_uids sid draw w).1 =
    Return (JsonUids (shuffle draw
      (map_to_list (working_index (current_session sid (app w)))).*1)).
Proof.
  unfold get_random_uids, bind. rewrite with_current_session_run. done.
Qed.

(** C10: the random-order operation returns a permutation of exactly the
    identifiers of the session's working index: the same identifiers, each
    once, in some order.  An identifier that only occurs in the uploaded
    example data is not in the list. *)
Theorem get_random_uids_permutation sid draw w :
  let s := current_session sid (app w) in
  ∃ uids,
    (get_random_uids sid draw w).1 = Return (JsonUids uids) ∧
    uids ≡ₚ (map_to_list (working_index s)).*1 ∧
    NoDup uids ∧
    (∀ u, u ∈ uids ↔ u ∈ dom (working_index s)) ∧
    (∀ u ex, iqr_example_data (app w) !! uuid s = Some ex →
             u ∈ dom ex → u ∉ dom (working_index s) → u ∉ uids).
Proof.
  intros s. eexists. split; [apply get_random_uids_run|]. fold s.
  assert (Hperm : shuffle draw (map_to_list (working_index s)).*1
                    ≡ₚ (map_to_list (working_index s)).*1)
    by apply shuffle_Permutation.
  assert (Hmem : ∀ u, u ∈ shuffle draw (map_to_list (working_index s)).*1
                      ↔ u ∈ dom (working_index s)).
  { intros u. rewrite Hperm, elem_of_dom.
    rewrite list_elem_of_fmap. split.
    - intros ([k v] & -> & Hkv). apply elem_of_map_to_list in Hkv. eauto.
    - intros [v Hv]. exists (u, v). split; [done|].
      by apply elem_of_map_to_list. }
  repeat split.
  - done.
  - rewrite Hperm. apply NoDup_fst_map_to_list.
  - apply Hmem.
  - apply Hmem.
  - intros u ex _ _ Hnot Hin. by apply Hnot, Hmem.
Qed.

Lemma get_random_uids_permutation_witness :
  ∃ uids,
    (get_random_uids "k" (λ _, 0) world_uploaded).1 = Return (JsonUids uids) ∧
    "A" ∉ uids.
Proof.
  destruct (get_random_uids_permutation "k" (λ _, 0) world_uploaded)
    as (uids & Hr & _ & _ & _ & Hex).
  exists uids. split; [exact Hr|].
  eapply Hex.
  - vm_compute. reflexivity.
  - apply elem_of_dom. eexists. vm_compute. reflexivity.
  - apply not_elem_of_dom. vm_compute. reflexivity.
Defined.

(** *** Failures at the operation boundary *)

Lemma get_many_descriptors_missing m u rest :
  m !! u = None → get_many_descriptors m (u :: rest) = Raise (NotFound u).
Proof. intros H. simpl. by rewrite H. Qed.

(** The initialize operation always answers with a status object. *)
Lemma iqr_initialize_structured c sid w :
  ∃ ok msg, (iqr_initialize c sid w).1 = Return (JsonStatus ok msg).
Proof.
  unfold iqr_initialize. rewrite with_current_session_run. run_body.
  destruct (update_working_index c _) as [[[]|e] s']; simpl; eauto.
Qed.

(** The refine operation always answers with a status object. *)
Lemma iqr_refine_structured c sid w :
  ∃ ok msg, (iqr_refine c sid w).1 = Return (JsonStatus ok msg).
Proof.
  unfold iqr_refine. rewrite with_current_session_run. run_body.
  destruct (refine c _) as [[[]|e] s']; simpl; eauto.
Qed.

(** C1 (the code departs from it): an adjudicate request naming an
    identifier that the working index cannot resolve leaves the handler as
    a raised NotFound; no status object with the success flag off is
    produced. *)
Theorem adjudicate_unresolved_raises sid w u rest pos_to_remove neg_to_add
    neg_to_remove :
  working_index (current_session sid (app w)) !! u = None →
  (adjudicate sid (u :: rest) pos_to_remove neg_to_add neg_to_remove w).1
    = Raise (NotFound u) ∧
  user_triggerable (NotFound u) = true ∧
  ∀ r, (adjudicate sid (u :: rest) pos_to_remove neg_to_add neg_to_remove w).1
         ≠ Return r.
Proof.
  intros Hu.
  assert (Hrun : (adjudicate sid (u :: rest) pos_to_remove neg_to_add
                    neg_to_remove w).1 = Raise (NotFound u)).
  { unfold adjudicate. unfold bind at 1. rewrite with_current_session_run.
    run_body. by rewrite Hu. }
  rewrite Hrun. by repeat split.
Qed.

Lemma adjudicate_unresolved_raises_witness :
  (adjudicate "k" ["Z"] [] [] [] world_ranked).1 = Raise (NotFound "Z").
Proof.
  apply (adjudicate_unresolved_raises "k" world_ranked "Z" [] [] [] []).
  vm_compute. reflexivity.
Defined.

(** C2 (the code departs from it): when the descriptor of an uploaded file
    cannot be computed, the ingest operation answers "Input Error" and the
    uploaded element stays in the session's example-data map. *)
Theorem iqr_ingest_file_failure_keeps_upload c sid fid w wdir ex msg :
  let s := current_session sid (app w) in
  let a := ensure_session sid (app w) in
  let upload := uploaded_data c wdir fid in
  iqr_work_dirs a !! uuid s = Some wdir →
  iqr_example_data a !! uuid s = Some ex →
  compute_descriptor c upload = Raise (ValueError msg) →
  (iqr_ingest_file c sid fid w).1
    = Return (Text (String.append "Input Error: " msg) 400) ∧
  iqr_example_data (app (iqr_ingest_file c sid fid w).2) !! uuid s
    = Some (<[de_uuid upload := upload]> ex).
Proof.
  intros s a upload Hwd Hex Hfail.
  unfold iqr_ingest_file. rewrite with_current_session_run. run_body.
  fold s a. rewrite Hwd. simpl. rewrite Hex. simpl.
  fold upload. rewrite Hfail. simpl.
  split; [done|]. by rewrite lookup_insert_eq.
Qed.

Lemma iqr_ingest_file_failure_keeps_upload_witness :
  (iqr_ingest_file demo_caps "k" "bad" world_uploaded).1
    = Return (Text "Input Error: cannot read" 400) ∧
  iqr_example_data (app world_uploaded) !! "k"
    ≠ iqr_example_data
        (app (iqr_ingest_file demo_caps "k" "bad" world_uploaded).2) !! "k".
Proof.
  destruct (iqr_ingest_file_failure_keeps_upload demo_caps "k" "bad"
              world_uploaded "/work/k"
              {["A" := {| de_uuid := "A"; de_path := "/work/k/good" |}]}
              "cannot read") as [Hr Hst].
  - vm_compute. reflexivity.
  - vm_compute. reflexivity.
  - vm_compute. reflexivity.
  - split; [exact Hr|].
    change (uuid (current_session "k" (app world_uploaded))) with "k" in Hst.
    rewrite Hst. vm_compute. intros H. discriminate H.
Defined.

(** *** Adjudication sets *)

Lemma dom_add_many ds m :
  dom (add_many ds m) = dom m ∪ list_to_set (d_uuid <$> ds).
Proof.
  unfold add_many. revert m. induction ds as [|d ds IH]; intros m; simpl.
  - set_solver.
  - rewrite IH, dom_insert_L. set_solver.
Qed.

Lemma dom_remove_many ds m :
  dom (remove_many ds m) = dom m ∖ list_to_set (d_uuid <$> ds).
Proof.
  unfold remove_many. revert m. induction ds as [|d ds IH]; intros m; simpl.
  - set_solver.
  - rewrite IH, dom_delete_L. set_solver.
Qed.

Lemma elem_of_uuids u (m : gmap string DescriptorPayload) :
  u ∈ uuids m ↔ u ∈ dom m.
Proof.
  unfold uuids. rewrite elem_of_dom, list_elem_of_fmap. split.
  - intros ([k v] & -> & Hkv). apply elem_of_map_to_list in Hkv. eauto.
  - intros [v Hv]. exists (u, v). split; [done|].
    by apply elem_of_map_to_list.
Qed.

Lemma dom_session_adjudicate np nn up un s :
  dom (positive_descriptors (session_adjudicate np nn up un s))
    = ((dom (positive_descriptors s) ∖ list_to_set (d_uuid <$> up))
         ∪ list_to_set (d_uuid <$> np)) ∖ list_to_set (d_uuid <$> nn) ∧
  dom (negative_descriptors (session_adjudicate np nn up un s))
    = ((dom (negative_descriptors s) ∖ list_to_set (d_uuid <$> un))
         ∖ list_to_set (d_uuid <$> np)) ∪ list_to_set (d_uuid <$> nn).
Proof.
  unfold session_adjudicate. simpl.
  by rewrite !dom_remove_many, !dom_add_many, !dom_remove_many.
Qed.

Lemma session_adjudicate_disjoint np nn up un s :
  disjoint_session s → disjoint_session (session_adjudicate np nn up un s).
Proof.
  unfold disjoint_session. intros Hs.
  destruct (dom_session_adjudicate np nn up un s) as [-> ->].
  set_solver.
Qed.

Lemma new_IqrSession_disjoint seed k : disjoint_session (new_IqrSession seed k).
Proof. unfold disjoint_session. simpl. set_solver. Qed.

(** The invariant through the monad. *)
Section Keeps.
Context {S : Type} (I : S → Prop).

Lemma keeps_ret {A} (a : A) : keeps I (ret a).
Proof. by intros st. Qed.

Lemma keeps_raise {A} e : keeps I (@raise S A e).
Proof. by intros st. Qed.

Lemma keeps_get : keeps I get.
Proof. by intros st. Qed.

Lemma keeps_of_outcome {A} (o : outcome A) : keeps I (of_outcome o).
Proof. by intros st. Qed.

Lemma keeps_getitem {V} (m : gmap string V) k : keeps I (getitem m k).
Proof. intros st. unfold getitem. by case_match. Qed.

Lemma keeps_modify f : (∀ st, I st → I (f st)) → keeps I (modify f).
Proof. intros Hf st. apply Hf. Qed.

Lemma keeps_bind {A C} (m : St S A) (k : A → St S C) :
  keeps I m → (∀ a, keeps I (k a)) → keeps I (bind m k).
Proof.
  intros Hm Hk st Hst. unfold bind.
  specialize (Hm st Hst). destruct (m st) as [[a|e] st']; simpl in *.
  - by apply Hk.
  - done.
Qed.

Lemma keeps_try_except {A} (m : St S A) h :
  keeps I m → (∀ e, keeps I (h e)) → keeps I (try_except m h).
Proof.
  intros Hm Hh st Hst. unfold try_except.
  specialize (Hm st Hst). destruct (m st) as [[a|e] st']; simpl in *.
  - done.
  - by apply Hh.
Qed.
End Keeps.

Lemma keeps_iqrs : keeps body_inv iqrs.
Proof. by intros st. Qed.

Lemma keeps_self : keeps body_inv self.
Proof. by intros st. Qed.

Lemma keeps_modify_iqrs f :
  (∀ s, disjoint_session s → disjoint_session (f s)) →
  keeps body_inv (modify_iqrs f).
Proof. intros Hf [s a] [Hs Ha]. split; [by apply Hf | done]. Qed.

Lemma keeps_modify_self f :
  (∀ a, iqr_controller (f a) = iqr_controller a) →
  keeps body_inv (modify_self f).
Proof.
  intros Hf [s a] [Hs Ha]. split; [done|].
  intros k s'. simpl. rewrite Hf. apply Ha.
Qed.

Lemma keeps_call_iqrs {A} (f : IqrSession → outcome A * IqrSession) :
  (∀ s, disjoint_session s → disjoint_session (f s).2) →
  keeps body_inv (call_iqrs f).
Proof.
  intros Hf [s a] [Hs Ha]. unfold call_iqrs. simpl.
  specialize (Hf s Hs). destruct (f s) as [r s']. by split.
Qed.

Lemma ensure_session_disjoint sid a :
  sessions_disjoint a → sessions_disjoint (ensure_session sid a).
Proof.
  intros Ha. destruct (iqr_controller a !! sid) as [s|] eqn:E.
  - by rewrite ensure_session_existing by eauto.
  - rewrite ensure_session_new by done. intros k s. simpl.
    rewrite lookup_insert. case_decide; [|apply Ha].
    intros ?; simplify_eq. apply new_IqrSession_disjoint.
Qed.

Lemma current_session_disjoint sid a :
  sessions_disjoint a → disjoint_session (current_session sid a).
Proof.
  intros Ha. unfold current_session.
  destruct (iqr_controller a !! sid) as [s|] eqn:E; simpl.
  - by eapply Ha.
  - apply new_IqrSession_disjoint.
Qed.

Lemma keeps_with_current_session {A} sid
    (body : St (IqrSession * IqrSearch) A) :
  keeps body_inv body → keeps world_inv (with_current_session sid body).
Proof.
  intros Hbody w Hw. rewrite with_current_session_run.
  specialize (Hbody (current_session sid (app w),
                     ensure_session sid (app w))).
  destruct (body _) as [r [s' a']]. simpl in *.
  destruct Hbody as [Hs' Ha'].
  { split; [by apply current_session_disjoint
           | by apply ensure_session_disjoint]. }
  intros k s. unfold world_inv. simpl. rewrite lookup_insert.
  case_decide; [|apply Ha']. by intros ?; simplify_eq.
Qed.

Lemma keeps_lift_modify f :
  (∀ a, iqr_controller (f a) = iqr_controller a) →
  keeps world_inv (lift (modify f)).
Proof.
  intros Hf w Hw k s. unfold world_inv. simpl. rewrite Hf. apply Hw.
Qed.

Lemma keeps_lift_get : keeps world_inv (lift get).
Proof. by intros w. Qed.

Lemma update_working_index_sets c s :
  positive_descriptors (update_working_index c s).2 = positive_descriptors s ∧
  negative_descriptors (update_working_index c s).2 = negative_descriptors s.
Proof.
  unfold update_working_index.
  destruct (map_to_list (positive_descriptors s)); [done|].
  by destruct (seed_neighbors c _ _).
Qed.

Lemma refine_sets c s :
  positive_descriptors (refine c s).2 = positive_descriptors s ∧
  negative_descriptors (refine c s).2 = negative_descriptors s.
Proof.
  unfold refine. repeat case_decide; try done. by destruct (rank c _ _ _).
Qed.

Ltac keeps_step :=
  first
    [ apply keeps_ret | apply keeps_raise | apply keeps_iqrs
    | apply keeps_self | apply keeps_getitem | apply keeps_of_outcome
    | apply keeps_lift_get
    | apply keeps_with_current_session
    | apply keeps_try_except; [|intros ?]
    | apply keeps_bind; [|intros ?]
    | apply keeps_modify_self; intros ?; simpl;
      repeat case_match; reflexivity
    | apply keeps_lift_modify; intros ?; simpl;
      repeat case_match; reflexivity
    | apply keeps_modify_iqrs; intros ? ?;
      first [ by apply session_adjudicate_disjoint
            | by apply new_IqrSession_disjoint
            | unfold disjoint_session in *; simpl; set_solver ]
    | progress case_match ].

Lemma handle_keeps c sid req : keeps world_inv (handle c sid req).
Proof.
  destruct req; simpl.
  - by intros w.
  - unfold iqr_session_info. repeat keeps_step.
  - unfold iqr_session_state. repeat keeps_step.
  - unfold check_current_iqr_session. repeat keeps_step.
  - unfold get_ingest_item_image_rep, cache_static. repeat keeps_step.
  - unfold iqr_ingest_file. repeat keeps_step.
  - unfold iqr_initialize. repeat keeps_step.
    apply keeps_call_iqrs. intros s Hs. unfold disjoint_session in *.
    by destruct (update_working_index_sets c s) as [-> ->].
  - unfold get_example_adjudication. repeat keeps_step.
  - unfold get_index_adjudication. repeat keeps_step.
  - unfold adjudicate. repeat keeps_step.
  - unfold iqr_refine. repeat keeps_step.
    apply keeps_call_iqrs. intros s Hs. unfold disjoint_session in *.
    by destruct (refine_sets c s) as [-> ->].
  - unfold get_ordered_results. repeat keeps_step.
  - unfold reset_iqr_session. repeat keeps_step.
  - unfold get_random_uids. repeat keeps_step.
Qed.

Lemma serve_keeps c reqs w : world_inv w → world_inv (serve c reqs w).2.
Proof.
  revert w. induction reqs as [|[sid req] reqs IH]; intros w Hw; simpl.
  - done.
  - pose proof (handle_keeps c sid req w Hw) as H1.
    destruct (handle c sid req w) as [r w1]. simpl in H1.
    specialize (IH w1 H1). by destruct (serve c reqs w1) as [rs w2].
Qed.

Lemma get_index_adjudication_run sid u w :
  (get_index_adjudication sid u w).1 =
    let s := current_session sid (app w) in
    Return (JsonAdjudication
              (bool_decide (u ∈ uuids (positive_descriptors s)))
              (bool_decide (u ∈ uuids (negative_descriptors s)))).
Proof.
  unfold get_index_adjudication. by rewrite with_current_session_run.
Qed.

Lemma adjudications_disjoint seed k (adjs : list adjudication) :
  disjoint_session (foldl apply_adjudication (new_IqrSession seed k) adjs).
Proof.
  assert (H : ∀ s, disjoint_session s →
                   disjoint_session (foldl apply_adjudication s adjs)).
  { induction adjs as [|adj adjs IH]; intros s Hs; simpl; [done|].
    apply IH. by apply session_adjudicate_disjoint. }
  apply H, new_IqrSession_disjoint.
Qed.

(** C3: from a new application, after any finite sequence of requests
    (adjudicate calls and whatever else clients send), the positive and
    the negative identifier set of every session are disjoint, and the
    index-adjudication query never reports an identifier as both; the same
    holds after every prefix of a sequence of adjudicate calls on a new
    session.  Within one adjudicate call, an identifier added to the
    negatives ends up negative and not positive, and one added to the
    positives (and not also to the negatives) ends up positive and not
    negative. *)
Theorem adjudication_sets_disjoint c reqs seed sal wd sid :
  let w := (serve c reqs {| app := new_IqrSearch seed sal wd;
                            trace := [] |}).2 in
  let s := current_session sid (app w) in
  dom (positive_descriptors s) ## dom (negative_descriptors s) ∧
  (∀ u, ∃ is_pos is_neg,
      (get_index_adjudication sid u w).1
        = Return (JsonAdjudication is_pos is_neg) ∧
      is_pos && is_neg = false) ∧
  (∀ (adjs : list adjudication) n,
      let s' := foldl apply_adjudication (new_IqrSession seed sid)
                      (take n adjs) in
      dom (positive_descriptors s') ## dom (negative_descriptors s')) ∧
  (∀ adj u,
      let s' := apply_adjudication s adj in
      (u ∈ d_uuid <$> new_negatives adj →
         u ∈ dom (negative_descriptors s') ∧
         u ∉ dom (positive_descriptors s')) ∧
      (u ∈ d_uuid <$> new_positives adj →
       u ∉ d_uuid <$> new_negatives adj →
         u ∈ dom (positive_descriptors s') ∧
         u ∉ dom (negative_descriptors s'))).
Proof.
  intros w s.
  assert (Hs : disjoint_session s).
  { apply current_session_disjoint. apply serve_keeps.
    intros k s0. simpl. by rewrite lookup_empty. }
  split; [exact Hs|]. split; [|split].
  - intros u. do 2 eexists. split; [apply get_index_adjudication_run|].
    simpl. fold s.
    destruct (bool_decide_reflect (u ∈ uuids (positive_descriptors s)))
      as [Hp|]; [|done].
    destruct (bool_decide_reflect (u ∈ uuids (negative_descriptors s)))
      as [Hn|]; [|done].
    apply elem_of_uuids in Hp, Hn. unfold disjoint_session in Hs. set_solver.
  - intros adjs n. apply adjudications_disjoint.
  - intros adj u s'. subst s'. unfold apply_adjudication.
    destruct (dom_session_adjudicate (new_positives adj) (new_negatives adj)
                (un_positives adj) (un_negatives adj) s) as [-> ->].
    split; [intros Hn | intros Hp Hn]; set_solver.
Qed.

Lemma adjudication_sets_disjoint_witness :
  let s' := apply_adjudication (current_session "k" (app world_ranked))
              {| new_positives := []; new_negatives := [descA];
                 un_positives := []; un_negatives := [] |} in
  "A" ∈ dom (positive_descriptors (current_session "k" (app world_ranked))) ∧
  "A" ∈ dom (negative_descriptors s') ∧
  "A" ∉ dom (positive_descriptors s').
Proof.
  intros s'. split.
  { apply elem_of_dom. eexists. vm_compute. reflexivity. }
  destruct (adjudication_sets_disjoint demo_caps
              [("k", IqrIngestFile "good"); ("k", IqrInitialize);
               ("k", IqrRefine)] 2 false "/work" "k")
    as (_ & _ & _ & Hcall).
  destruct (Hcall {| new_positives := []; new_negatives := [descA];
                     un_positives := []; un_negatives := [] |} "A")
    as [Hneg _].
  apply Hneg. simpl. set_solver.
Defined.

(** *** Working index construction *)

Lemma size_list_to_set_le (l : list string) :
  size (list_to_set l : gset string) ≤ length l.
Proof.
  induction l as [|x l IH].
  - by rewrite list_to_set_nil, size_empty.
  - rewrite list_to_set_cons, size_union_alt, size_singleton. simpl.
    pose proof (subseteq_size (list_to_set l ∖ {[x]}) (list_to_set l)
                  (C := gset string)) as H.
    specialize (H ltac:(set_solver)). lia.
Qed.

Lemma update_working_index_rebuild c s wi0 :
  working_index (update_working_index c (set_working_index wi0 s)).2
    = (if is_raise (update_working_index c s).1 then wi0
       else working_index (update_working_index c s).2).
Proof.
  unfold update_working_index.
  cbn [positive_descriptors pos_seed_neighbors set_working_index].
  destruct (map_to_list (positive_descriptors s)) as [|p ps]; [done|].
  by destruct (seed_neighbors c _ (p :: ps)).
Qed.

Lemma iqr_initialize_run c sid w :
  iqr_initialize c sid w =
    let s := current_session sid (app w) in
    let a := ensure_session sid (app w) in
    let '(r, s') := update_working_index c s in
    (Return (match r with
             | Return _ => JsonStatus true "Completed initialization"
             | Raise ex => JsonStatus false (error_message ex)
             end),
     {| app := set_controller (<[sid := s']> (iqr_controller a)) a;
        trace := trace w ++ session_block sid |}).
Proof.
  unfold iqr_initialize. rewrite with_current_session_run. run_body.
  by destruct (update_working_index c _) as [[[]|e] s'].
Qed.

Lemma seed_neighbors_Return c k ps :
  (∃ ns, seed_neighbors c k ps = Return ns) ↔
  ∀ p, p ∈ ps → ∃ ns, nn c p k = Return ns.
Proof.
  induction ps as [|p ps IH]; simpl.
  - split; [|by eauto]. intros _ p Hp. by apply elem_of_nil in Hp.
  - split.
    + intros [ns Hns] q Hq.
      destruct (nn c p k) as [ns0|e] eqn:Hp; [|done].
      destruct (seed_neighbors c k ps) as [more|e] eqn:Hps; [|done].
      apply elem_of_cons in Hq as [->|Hq]; [by eauto|].
      apply IH; [by eauto|done].
    + intros Hall. destruct (Hall p) as [ns0 ->]; [by left|].
      destruct (proj2 IH) as [more ->]; [|by eauto].
      intros q Hq. apply Hall. by right.
Qed.

Lemma seed_neighbors_length c k ps all :
  (∀ p, p ∈ ps → nn_answers_at_most c k p) →
  seed_neighbors c k ps = Return all → length all ≤ k * length ps.
Proof.
  revert all. induction ps as [|p ps IH]; intros all Hmost; simpl.
  - intros ?; simplify_eq. simpl. lia.
  - destruct (nn c p k) as [ns0|e] eqn:Hp; [|done].
    destruct (seed_neighbors c k ps) as [more|e] eqn:Hps; [|done].
    intros ?; simplify_eq. rewrite length_app.
    pose proof (Hmost p ltac:(by left) ns0 Hp).
    pose proof (IH more ltac:(intros q Hq; apply Hmost; by right) eq_refl).
    nia.
Qed.

Lemma seed_neighbors_incl c k ps all p ns :
  seed_neighbors c k ps = Return all →
  p ∈ ps → nn c p k = Return ns → ns ⊆ all.
Proof.
  revert all. induction ps as [|q ps IH]; intros all; simpl.
  - intros _ Hp. by apply elem_of_nil in Hp.
  - destruct (nn c q k) as [ns0|e] eqn:Hq; [|done].
    destruct (seed_neighbors c k ps) as [more|e] eqn:Hps; [|done].
    intros ? Hp Hns; simplify_eq.
    apply elem_of_cons in Hp as [->|Hp].
    + rewrite Hq in Hns. simplify_eq. set_solver.
    + specialize (IH more eq_refl Hp Hns). set_solver.
Qed.

Lemma size_add_many_le (all : list DescriptorElement) :
  size (add_many all ∅) ≤ length all.
Proof.
  rewrite <- (size_dom (D := gset string)), dom_add_many.
  rewrite dom_empty_L, (left_id_L ∅ (∪)).
  rewrite <- (length_fmap d_uuid all). apply size_list_to_set_le.
Qed.

Lemma size_add_many_ge (ns all : list DescriptorElement) :
  ns ⊆ all →
  size (list_to_set (d_uuid <$> ns) : gset string) ≤ size (add_many all ∅).
Proof.
  intros Hsub. rewrite <- (size_dom (D := gset string) (add_many all ∅)).
  rewrite dom_add_many, dom_empty_L, (left_id_L ∅ (∪)).
  apply subseteq_size. intros u. rewrite !elem_of_list_to_set.
  rewrite !list_elem_of_fmap. intros (d & -> & Hd). exists d.
  split; [done|]. by apply Hsub.
Qed.

Lemma update_working_index_run c s :
  map_to_list (positive_descriptors s) ≠ [] →
  update_working_index c s =
    match seed_neighbors c (pos_seed_neighbors s)
            (map_to_list (positive_descriptors s)) with
    | Raise e => (Raise (InitializationFailure (exn_str e)), s)
    | Return ns => (Return (), set_working_index (add_many ns ∅) s)
    end.
Proof.
  intros Hps. unfold update_working_index.
  by destruct (map_to_list (positive_descriptors s)).
Qed.

(** C4: with [P >= 1] positives and seed-neighbour count [K], initialize
    succeeds exactly when the index answers the query of every positive.
    A successful initialize starts from nothing: the working index is the
    union of the answers, whatever it held before is gone, the result
    being the same for any previous content; running initialize again
    yields the same working index, so the same size.  The working index
    has at most [K * P] entries when the index answers each query with at
    most [K] elements, and at least [K] entries when it answers the query
    of some positive with [K] distinct identifiers. *)
Theorem iqr_initialize_size c sid w :
  let s := current_session sid (app w) in
  let K := pos_seed_neighbors s in
  let ps := map_to_list (positive_descriptors s) in
  let P := size (positive_descriptors s) in
  let w' := (iqr_initialize c sid w).2 in
  1 ≤ P →
  ((iqr_initialize c sid w).1
     = Return (JsonStatus true "Completed initialization") ↔
   ∀ p, p ∈ ps → ∃ ns, nn c p K = Return ns) ∧
  ((iqr_initialize c sid w).1
     = Return (JsonStatus true "Completed initialization") →
   ∃ s',
     iqr_controller (app w') !! sid = Some s' ∧
     (∃ ns, seed_neighbors c K ps = Return ns ∧
            working_index s' = add_many ns ∅) ∧
     (∀ wi0, working_index (update_working_index c (set_working_index wi0 s)).2
               = working_index s') ∧
     (∀ s'', iqr_controller (app (iqr_initialize c sid w').2) !! sid = Some s'' →
             working_index s'' = working_index s' ∧
             size (working_index s'') = size (working_index s')) ∧
     ((∀ p, p ∈ ps → nn_answers_at_most c K p) →
      size (working_index s') ≤ K * P) ∧
     ((∃ p, p ∈ ps ∧ nn_answers_at_least c K p) →
      K ≤ size (working_index s'))).
Proof.
  intros s K ps P w' HP. subst w'.
  pose proof (length_map_to_list (positive_descriptors s)) as Hsz.
  fold ps in Hsz. fold P in Hsz.
  assert (Hps : ps ≠ []) by (intros E; rewrite E in Hsz; simpl in Hsz; lia).
  pose proof (update_working_index_run c s Hps) as Hrun.
  fold ps K in Hrun.
  pose proof (seed_neighbors_Return c K ps) as Hret.
  rewrite iqr_initialize_run. cbv zeta. fold s.
  destruct (seed_neighbors c K ps) as [all|e] eqn:Hseed.
  2:{ rewrite Hrun. simpl. split; [|done]. split; [done|].
      intros Hall. apply Hret in Hall as [ns ?]. done. }
  rewrite Hrun. simpl. split.
  { split; [|done]. intros _. apply Hret. by eauto. }
  intros _. exists (set_working_index (add_many all ∅) s).
  rewrite lookup_insert_eq. split; [done|]. split; [by exists all|].
  pose proof (update_working_index_rebuild c s) as Hre.
  rewrite Hrun in Hre. simpl in Hre.
  split; [exact Hre|]. split; [|split].
  - intros s''. rewrite iqr_initialize_run. cbv zeta.
    unfold current_session at 1. simpl. rewrite lookup_insert_eq. simpl.
    specialize (Hre (add_many all ∅)).
    destruct (update_working_index c (set_working_index (add_many all ∅) s))
      as [r2 s2] eqn:E2. simpl in *.
    rewrite lookup_insert_eq. intros ?; simplify_eq. by rewrite Hre.
  - intros Hmost. simpl.
    pose proof (seed_neighbors_length c K ps all Hmost Hseed) as Hlen.
    pose proof (size_add_many_le all). unfold DescriptorElement in *.
    rewrite Hsz in Hlen. lia.
  - intros (p & Hp & ns & Hns & Hk). simpl.
    pose proof (seed_neighbors_incl c K ps all p ns Hseed Hp Hns) as Hsub.
    pose proof (size_add_many_ge ns all Hsub). lia.
Qed.

Lemma iqr_initialize_size_witness :
  ∃ s', iqr_controller
          (app (iqr_initialize chain_caps "k" world_two_positives).2) !! "k"
          = Some s' ∧
        2 ≤ size (working_index s') ≤ 2 * 2 ∧
        size (working_index s') = 3.
Proof.
  pose proof (iqr_initialize_size chain_caps "k" world_two_positives) as H.
  cbv zeta in H.
  assert (HK : pos_seed_neighbors
                 (current_session "k" (app world_two_positives)) = 2)
    by (vm_compute; reflexivity).
  assert (HP : size (positive_descriptors
                       (current_session "k" (app world_two_positives))) = 2)
    by (vm_compute; reflexivity).
  rewrite HK, HP in H.
  destruct H as [_ H]; [lia|].
  destruct H as (s' & Hs' & _ & _ & _ & Hup & Hlow).
  - vm_compute. reflexivity.
  - exists s'. split; [exact Hs'|]. split; [split|].
    + apply Hlow. exists descA. split.
      * apply elem_of_map_to_list. vm_compute. reflexivity.
      * exists [descA; descB]. split; vm_compute; [reflexivity|lia].
    + apply Hup. intros p _ ns Hns. simpl in Hns. simplify_eq.
      rewrite length_take. lia.
    + assert (Hc : ∃ sx,
        iqr_controller
          (app (iqr_initialize chain_caps "k" world_two_positives).2) !! "k"
          = Some sx ∧ size (working_index sx) = 3).
      { eexists. split; vm_compute; reflexivity. }
      destruct Hc as (sx & Hsx & H3). rewrite Hs' in Hsx. by simplify_eq.
Defined.

(** C4 as stated fails when the index holds fewer than [K] descriptors:
    with [K = 3], one positive and a two-element index, initialize succeeds
    with a working index of size 2. *)
Lemma iqr_initialize_small_index :
  let s := current_session "k" (app world_seed3) in
  let w' := (iqr_initialize demo_caps "k" world_seed3).2 in
  pos_seed_neighbors s = 3 ∧
  size (positive_descriptors s) = 1 ∧
  (iqr_initialize demo_caps "k" world_seed3).1
    = Return (JsonStatus true "Completed initialization") ∧
  size (working_index (current_session "k" (app w'))) = 2 ∧
  ¬ (3 ≤ size (working_index (current_session "k" (app w'))) ≤ 3 * 1).
Proof.
  assert (H : size (working_index
                      (current_session "k"
                         (app (iqr_initialize demo_caps "k" world_seed3).2)))
              = 2) by (vm_compute; reflexivity).
  simpl. rewrite H. repeat split; try (vm_compute; reflexivity). lia.
Qed.

(** *** Ranking *)

#[global] Instance result_le_total : Total result_le.
Proof.
  intros a b. unfold result_le.
  destruct (Qc_dec a.2 b.2) as [[Hlt|Hgt]|Heq]; [by right; left | by left; left |].
  destruct (total String.le (d_uuid a.1) (d_uuid b.1)); [left | right];
    right; by split.
Qed.

#[global] Instance result_le_trans : Transitive result_le.
Proof.
  intros a b d. unfold result_le.
  intros [Hab|[Hab Uab]] [Hbd|[Hbd Ubd]].
  - left. by eapply Qclt_trans.
  - left. by rewrite <- Hbd.
  - left. by rewrite Hab.
  - right. split; [congruence | by etrans].
Qed.

Lemma result_le_prob a b : result_le a b → (b.2 ≤ a.2)%Qc.
Proof.
  intros [H|[-> _]]; [by apply Qclt_le_weak | apply Qcle_refl].
Qed.

Lemma result_le_tie a b :
  result_le a b → a.2 = b.2 → String.le (d_uuid a.1) (d_uuid b.1).
Proof.
  intros [H|[_ H]] Heq; [|done].
  rewrite Heq in H. by apply Qclt_not_eq in H.
Qed.

Lemma StronglySorted_lookup {A} (R : relation A) l i j x y :
  StronglySorted R l → i < j → l !! i = Some x → l !! j = Some y → R x y.
Proof.
  intros Hl Hij Hi Hj. rewrite <- (take_drop j l) in Hl.
  eapply StronglySorted_app_1_elem_of; [exact Hl | |].
  - eapply list_elem_of_lookup_2. by rewrite lookup_take_lt.
  - eapply (list_elem_of_lookup_2 _ 0). rewrite lookup_drop.
    by rewrite Nat.add_0_r.
Qed.

Lemma scored_pool_antisym score s x1 x2 :
  x1 ∈ scored_pool score s → x2 ∈ scored_pool score s →
  result_le x1 x2 → result_le x2 x1 → x1 = x2.
Proof.
  unfold scored_pool. rewrite !list_elem_of_fmap.
  intros ([k1 v1] & -> & H1) ([k2 v2] & -> & H2) H12 H21.
  assert (Hp : score (k1, v1) = score (k2, v2)).
  { apply result_le_prob in H12, H21. simpl in *. by apply Qcle_antisym. }
  pose proof (result_le_tie _ _ H12 Hp) as U12.
  pose proof (result_le_tie _ _ H21 (eq_sym Hp)) as U21.
  simpl in *. unfold d_uuid in *. simpl in *.
  assert (k1 = k2) as -> by (by apply (anti_symm String.le)).
  apply elem_of_map_to_list in H1, H2. by simplify_eq.
Qed.

Lemma refine_success c s :
  (refine c s).1 = Return () →
  ∃ score,
    rank c (map_to_list (positive_descriptors s))
           (map_to_list (negative_descriptors s))
           (map_to_list (working_index s)) = Return score ∧
    (refine c s).2
      = set_results (Some (merge_sort result_le (scored_pool score s))) s.
Proof.
  unfold refine. repeat case_decide; try done.
  destruct (rank c _ _ _) as [score|e]; [|done]. intros _. by exists score.
Qed.

Lemma iqr_refine_run c sid w :
  iqr_refine c sid w =
    let s := current_session sid (app w) in
    let a := ensure_session sid (app w) in
    let '(r, s') := refine c s in
    (Return (match r with
             | Return _ => JsonStatus true "Completed refinement"
             | Raise ex => JsonStatus false (error_message ex)
             end),
     {| app := set_controller (<[sid := s']> (iqr_controller a)) a;
        trace := trace w ++ session_block sid |}).
Proof.
  unfold iqr_refine. rewrite with_current_session_run. run_body.
  by destruct (refine c _) as [[[]|e] s'].
Qed.

(** C5: when refine succeeds, the stored ordered result holds one
    (element, probability) pair for each element of the working index, in
    non-increasing order of probability, entries of equal probability in
    ascending order of identifier; it is the only arrangement of the scored
    working index with that order, and it is what the ordered-results
    operation returns. *)
Theorem iqr_refine_sorted c sid w :
  let s := current_session sid (app w) in
  let w' := (iqr_refine c sid w).2 in
  (iqr_refine c sid w).1 = Return (JsonStatus true "Completed refinement") →
  ∃ s' score r,
    iqr_controller (app w') !! sid = Some s' ∧
    results s' = Some r ∧
    rank c (map_to_list (positive_descriptors s))
           (map_to_list (negative_descriptors s))
           (map_to_list (working_index s)) = Return score ∧
    r ≡ₚ scored_pool score s ∧
    r.*1 ≡ₚ map_to_list (working_index s') ∧
    StronglySorted result_le r ∧
    (∀ i j x y, i < j → r !! i = Some x → r !! j = Some y →
       (y.2 ≤ x.2)%Qc ∧ (x.2 = y.2 → String.le (d_uuid x.1) (d_uuid y.1))) ∧
    (∀ r', r' ≡ₚ scored_pool score s → StronglySorted result_le r' → r' = r) ∧
    (get_ordered_results sid None None w').1
      = Return (JsonResults (result_pairs r)).
Proof.
  intros s w' Hok. subst w'. rewrite iqr_refine_run in Hok |- *.
  simpl in Hok |- *. fold s in Hok |- *.
  destruct (refine c s) as [r0 s'] eqn:Hrun.
  destruct r0 as [[]|e]; [|done]. clear Hok. simpl.
  destruct (refine_success c s) as (score & Hrank & Hs');
    [by rewrite Hrun|].
  rewrite Hrun in Hs'. simpl in Hs'. subst s'.
  set (r := merge_sort result_le (scored_pool score s)).
  assert (Hperm : r ≡ₚ scored_pool score s) by apply merge_sort_Permutation.
  assert (Hsorted : StronglySorted result_le r)
    by apply (StronglySorted_merge_sort _).
  exists (set_results (Some r) s), score, r.
  rewrite lookup_insert_eq. repeat split; try done.
  - cbn [working_index set_results]. rewrite Hperm. unfold scored_pool.
    rewrite <- list_fmap_compose. by rewrite list_fmap_id.
  - eapply result_le_prob, StronglySorted_lookup; eauto.
  - intros Heq. eapply result_le_tie; [|done].
    eapply StronglySorted_lookup; eauto.
  - intros r' Hr' Hs'. eapply (StronglySorted_unique_strong result_le);
      [|done|done|by rewrite Hr'].
    intros x1 x2 Hx1 Hx2. rewrite Hr' in Hx1. rewrite Hperm in Hx2.
    by apply (scored_pool_antisym score s).
  - rewrite get_ordered_results_run. cbv zeta.
    unfold current_session. cbn [app iqr_controller set_controller].
    rewrite lookup_insert_eq. cbn [default]. unfold ordered_results.
    by rewrite py_slice_default.
Qed.

Lemma iqr_refine_sorted_witness :
  ∃ r, (get_ordered_results "k" None None
          (iqr_refine flat_caps "k" world_ranked).2).1
         = Return (JsonResults (result_pairs r)) ∧
       r.*1 = [descA; descB].
Proof.
  destruct (iqr_refine_sorted flat_caps "k" world_ranked)
    as (s' & score & r & Hs' & Hres & Hrank & Hperm & _ & Hsorted & _ & Huniq
        & Hout).
  - vm_compute. reflexivity.
  - exists r. split; [exact Hout|].
    rewrite <- (Huniq [(descA, Q2Qc (1 # 2)); (descB, Q2Qc (1 # 2))]).
    + reflexivity.
    + assert (Hscore : score = λ _, Q2Qc (1 # 2)).
      { vm_compute in Hrank. by injection Hrank. }
      rewrite Hscore. vm_compute. reflexivity.
    + repeat constructor; right; split; try reflexivity; by vm_compute.
Defined.

(** *** Lock discipline *)

Lemma emits_ret {A} sid (a : A) : emits sid (ret a).
Proof. intros w. exists 0. simpl. by rewrite app_nil_r. Qed.

Lemma emits_raise {A} sid e : emits sid (@raise World A e).
Proof. intros w. exists 0. simpl. by rewrite app_nil_r. Qed.

Lemma emits_of_outcome {A} sid (o : outcome A) : emits sid (of_outcome o).
Proof. intros w. exists 0. simpl. by rewrite app_nil_r. Qed.

Lemma emits_getitem {V} sid (m : gmap string V) k : emits sid (getitem m k).
Proof.
  intros w. exists 0. unfold getitem. case_match; simpl; by rewrite app_nil_r.
Qed.

Lemma emits_lift {A} sid (m : St IqrSearch A) : emits sid (lift m).
Proof.
  intros w. exists 0. unfold lift. destruct (m (app w)). simpl.
  by rewrite app_nil_r.
Qed.

Lemma emits_bind {A C} sid (m : St World A) (k : A → St World C) :
  emits sid m → (∀ a, emits sid (k a)) → emits sid (bind m k).
Proof.
  intros Hm Hk w. unfold bind. destruct (Hm w) as [n Hn].
  destruct (m w) as [[a|e] w1]; simpl in *.
  - destruct (Hk a w1) as [n' Hn']. exists (n + n').
    rewrite Hn', Hn, replicate_add, concat_app. by rewrite app_assoc.
  - by exists n.
Qed.

Lemma emits_with_current_session {A} sid
    (body : St (IqrSession * IqrSearch) A) :
  emits sid (with_current_session sid body).
Proof.
  intros w. exists 1. rewrite with_current_session_run.
  by destruct (body _) as [r [s' a']].
Qed.

Ltac emits_step :=
  first
    [ apply emits_ret | apply emits_raise | apply emits_of_outcome
    | apply emits_getitem | apply emits_lift | apply emits_with_current_session
    | apply emits_bind; [|intros ?]
    | progress case_match ].

Lemma handle_emits c sid req : emits sid (handle c sid req).
Proof.
  destruct req; simpl;
    unfold index, iqr_session_info, iqr_session_state,
      check_current_iqr_session, get_ingest_item_image_rep, cache_static,
      iqr_ingest_file, iqr_initialize, get_example_adjudication,
      get_index_adjudication, adjudicate, iqr_refine, get_ordered_results,
      reset_iqr_session, get_random_uids;
    repeat emits_step.
Qed.

Lemma held_after_app tr1 tr2 held :
  held_after (tr1 ++ tr2) held = held_after tr2 (held_after tr1 held).
Proof.
  revert held. induction tr1 as [|[l|l] tr1 IH]; intros held; simpl; auto.
Qed.

Lemma held_after_session_block sid :
  held_after (session_block sid) [] = [].
Proof. simpl. by rewrite decide_True. Qed.

Lemma held_after_blocks sid n :
  held_after (concat (replicate n (session_block sid))) [] = [].
Proof.
  induction n as [|n IH]; [done|].
  cbn [replicate concat]. by rewrite held_after_app, held_after_session_block.
Qed.

Lemma never_both_blocks sid n :
  never_both (concat (replicate n (session_block sid))).
Proof.
  induction n as [|n IH]; intros m.
  - cbn [replicate concat]. by rewrite take_nil.
  - cbn [replicate concat]. rewrite take_app.
    rewrite held_after_app.
    destruct (decide (m < 4)) as [Hm|Hm].
    + replace (m - length (session_block sid)) with 0 by (simpl; lia).
      rewrite take_0. cbn [held_after].
      do 4 (destruct m as [|m]; [simpl; try by rewrite ?decide_True|]).
      lia.
    + rewrite (take_ge (session_block sid)) by (simpl; lia).
      rewrite held_after_session_block. apply IH.
Qed.

(** C7: in every execution of every exposed operation the registry lock
    and a session lock are never held at the same time.  The lock events
    of an operation are whole session blocks: the registry lock is taken,
    released, and only then the session's lock is taken and released; at
    the end no lock is held. *)
Theorem lock_levels_never_nested c sid req a :
  let tr := trace (handle c sid req {| app := a; trace := [] |}).2 in
  never_both tr ∧
  held_after tr [] = [] ∧
  ∃ n, tr = concat (replicate n
                      [Acquire RegistryLock; Release RegistryLock;
                       Acquire (SessionLock sid); Release (SessionLock sid)]).
Proof.
  intros tr. subst tr.
  destruct (handle_emits c sid req {| app := a; trace := [] |}) as [n Hn].
  simpl in Hn. rewrite Hn.
  split; [apply never_both_blocks|]. split; [apply held_after_blocks|].
  by exists n.
Qed.

(** *** Concurrent callers *)

Lemma lookup_goto t p st t' :
  c_callers (goto t p st) !! t' =
    if decide (t' = t)
    then (λ cl, {| key := key cl; pc := p |}) <$> c_callers st !! t
    else c_callers st !! t'.
Proof.
  unfold goto. simpl. case_decide as Ht.
  - subst. apply list_lookup_alter_eq.
  - by apply list_lookup_alter_ne.
Qed.

Lemma lookup_goto_key t p st t' cl' :
  c_callers (goto t p st) !! t' = Some cl' →
  ∃ cl, c_callers st !! t' = Some cl ∧ key cl' = key cl ∧
        (t' = t ∧ pc cl' = p ∨ t' ≠ t ∧ cl' = cl).
Proof.
  rewrite lookup_goto. case_decide as Ht.
  - subst. destruct (c_callers st !! t) as [cl|]; [|done].
    simpl. intros ?; simplify_eq. exists cl. simpl. auto.
  - intros ?. exists cl'. auto.
Qed.

Lemma lookup_goto_back t p st t' cl :
  c_callers st !! t' = Some cl →
  ∃ cl', c_callers (goto t p st) !! t' = Some cl' ∧ key cl' = key cl ∧
         (t' ≠ t → cl' = cl).
Proof.
  intros H. rewrite lookup_goto. case_decide as Ht.
  - subst. rewrite H. simpl. eexists. split; [done|]. split; [done|]. done.
  - exists cl. auto.
Qed.

Lemma conc_inv_start a keys : conc_inv a (start a keys).
Proof.
  split; simpl.
  - intros t cl Hcl. apply list_lookup_fmap_Some in Hcl as (k & -> & _).
    simpl. split; done.
  - done.
  - constructor.
  - intros s Hs. by apply elem_of_nil in Hs.
  - auto.
  - intros t cl Hcl. apply list_lookup_fmap_Some in Hcl as (k & -> & _).
    done.
Qed.

Lemma inv_exclusive a0 st t cl t' cl' :
  conc_inv a0 st →
  c_callers st !! t = Some cl → in_cs (pc cl) = true →
  c_callers st !! t' = Some cl' → in_cs (pc cl') = true → t' = t.
Proof.
  intros Hinv Ht Hin Ht' Hin'.
  apply (inv_lock _ _ Hinv _ _ Ht) in Hin.
  apply (inv_lock _ _ Hinv _ _ Ht') in Hin'. congruence.
Qed.


Lemma conc_inv_step a0 st st1 t k p p' :
  conc_inv a0 st →
  c_callers st !! t = Some {| key := k; pc := p |} →
  c_callers st1 = c_callers st →
  (in_cs p' = true ↔ c_lock st1 = Some t) →
  (∀ t', t' ≠ t → (c_lock st1 = Some t' ↔ c_lock st = Some t')) →
  (∀ k' s', iqr_controller (c_app st) !! k' = Some s' →
            iqr_controller (c_app st1) !! k' = Some s') →
  (∀ k' s', iqr_controller (c_app st1) !! k' = Some s' →
            iqr_controller (c_app st) !! k' = Some s' ∨ s' ∈ c_created st1) →
  (iqr_controller (c_app st1) = iqr_controller (c_app st) ∨ in_cs p = true) →
  (c_created st1 = c_created st ∨
   ∃ s, c_created st1 = c_created st ++ [s] ∧ uuid s = k ∧ p' = PcAdd s ∧
        iqr_controller a0 !! k = None ∧ k ∉ uuid <$> c_created st) →
  (∀ s, p = PcAdd s →
        iqr_controller (c_app st1) !! uuid s = Some s ∨ p' = PcAdd s) →
  pc_fact (c_app st1) (c_created st1) k p' →
  conc_inv a0 (goto t p' st1).
Proof.
  intros Hinv Hcl Hcallers Hlock Hlock' Hmono Hnew Hreg Hcr Hadd Hfact.
  pose proof (λ t' cl', inv_exclusive a0 st t _ t' cl' Hinv Hcl) as Hexcl.
  destruct Hinv as [Hl Hm Hn Hc Hr Hp].
  assert (Hsub : ∀ s, s ∈ c_created st → s ∈ c_created st1).
  { intros s Hs. destruct Hcr as [->|(s1 & -> & _)]; set_solver. }
  assert (Hat : c_callers (goto t p' st1) !! t = Some {| key := k; pc := p' |}).
  { rewrite lookup_goto, decide_True by done. by rewrite Hcallers, Hcl. }
  assert (Hother : ∀ t' cl', t' ≠ t → c_callers st !! t' = Some cl' →
                     c_callers (goto t p' st1) !! t' = Some cl').
  { intros t' cl' Hne H. rewrite lookup_goto, decide_False by done.
    by rewrite Hcallers. }
  split.
  - intros t' cl' Hcl'. destruct (decide (t' = t)) as [->|Hne].
    + rewrite Hat in Hcl'. by simplify_eq.
    + rewrite lookup_goto, decide_False, Hcallers in Hcl' by done.
      simpl. rewrite (Hl _ _ Hcl'). symmetry. by apply Hlock'.
  - intros k' s' H. simpl. by apply Hmono, Hm.
  - simpl. destruct Hcr as [->|(s & -> & Hu & _ & _ & Hfresh)]; [done|].
    rewrite fmap_app. apply NoDup_app. split; [done|]. split.
    + intros x Hx Hx'. simpl in Hx'. apply list_elem_of_singleton in Hx'.
      subst. done.
    + simpl. apply NoDup_singleton.
  - intros s Hs. simpl in Hs.
    assert (Hold : s ∈ c_created st ∨
              (c_created st1 = c_created st ++ [s] ∧ uuid s = k ∧
               p' = PcAdd s ∧ iqr_controller a0 !! k = None)).
    { destruct Hcr as [Heq|(s1 & Heq & Hu & Hp' & H0 & _)];
        rewrite Heq in Hs; [by left|].
      apply elem_of_app in Hs as [?|Hs]; [by left|].
      apply list_elem_of_singleton in Hs as ->. by right. }
    destruct Hold as [Hs0|(Heq & Hu & Hp' & H0)].
    + destruct (Hc s Hs0) as (H1 & (t1 & cl1 & Hcl1 & Hk1) & H3).
      split; [done|]. split.
      * destruct (decide (t1 = t)) as [->|Hne].
        -- rewrite Hcl in Hcl1. simplify_eq. simpl in *.
           by exists t, {| key := k; pc := p' |}.
        -- exists t1, cl1. split; [by apply Hother | done].
      * destruct H3 as [H3|(t2 & cl2 & Hcl2 & Hpc2)]; [left; by apply Hmono|].
        destruct (decide (t2 = t)) as [->|Hne].
        -- rewrite Hcl in Hcl2. simplify_eq. simpl in *.
           destruct (Hadd s Hpc2) as [?|Hp']; [by left|right].
           by exists t, {| key := k; pc := p' |}.
        -- right. exists t2, cl2. split; [by apply Hother | done].
    + split; [by rewrite Hu|]. split.
      * by exists t, {| key := k; pc := p' |}.
      * right. by exists t, {| key := k; pc := p' |}.
  - intros k' s' H. simpl in *.
    destruct (Hnew _ _ H) as [H1|H1]; [|by right].
    destruct (Hr _ _ H1) as [?|?]; [by left | right; by apply Hsub].
  - intros t' cl' Hcl'. simpl. destruct (decide (t' = t)) as [->|Hne].
    + rewrite Hat in Hcl'. by simplify_eq.
    + rewrite lookup_goto, decide_False, Hcallers in Hcl' by done.
      pose proof (Hp _ _ Hcl') as Hf.
      destruct Hreg as [Hreg|Hin].
      * destruct (pc cl'); simpl in *; rewrite ?Hreg; try done.
        destruct Hf as (? & ? & ?). auto.
      * destruct (in_cs (pc cl')) eqn:Hin'.
        { by destruct (Hne (Hexcl _ _ Hin Hcl' Hin')). }
        destruct (pc cl'); simpl in *; try done.
        destruct Hf as (s & -> & Hs). exists s. split; [done|]. by apply Hmono.
Qed.

Lemma caller_step_inv a0 t st : conc_inv a0 st → conc_inv a0 (caller_step t st).
Proof.
  intros Hinv. unfold caller_step.
  destruct (c_callers st !! t) as [[k p]|] eqn:Hcl; [|done].
  pose proof (inv_pc _ _ Hinv _ _ Hcl) as Hfact.
  pose proof (inv_lock _ _ Hinv _ _ Hcl) as Hlk.
  cbn [pc key] in *. destruct p; cbn [in_cs pc_fact] in *.
  - (* with self._iqr_controller: *)
    destruct (c_lock st) as [holder|] eqn:Hlock; [done|].
    apply (conc_inv_step a0 st _ t k _ _ Hinv Hcl); simpl.
    + done.
    + done.
    + intros t' Hne. rewrite Hlock. split; intros ?; simplify_eq.
    + done.
    + intros ???. by left.
    + by left.
    + by left.
    + done.
    + done.
  - (* has_session_uuid *)
    assert (c_lock st = Some t) by by apply Hlk.
    unfold has_session_uuid.
    destruct (iqr_controller (c_app st) !! k) as [s|] eqn:Hk; simpl;
      (apply (conc_inv_step a0 st _ t k _ _ Hinv Hcl); simpl;
       [done | done | done | done | by left | by left | by left | done
       | by rewrite ?Hk]).
  - (* IqrSession(...) *)
    assert (c_lock st = Some t) by by apply Hlk.
    apply (conc_inv_step a0 st _ t k _ _ Hinv Hcl); simpl.
    + done.
    + done.
    + done.
    + done.
    + intros ???. by left.
    + by left.
    + right. eexists. split; [done|]. split; [done|]. split; [done|]. split.
      * destruct (iqr_controller a0 !! k) as [s0|] eqn:H0; [|done].
        apply (inv_mono _ _ Hinv) in H0. congruence.
      * intros Hin. apply list_elem_of_fmap in Hin as (s' & Hu & Hs').
        destruct (inv_created _ _ Hinv s' Hs') as (_ & _ & [Hreg|Hthr]).
        -- rewrite <- Hu in Hreg. congruence.
        -- destruct Hthr as (t2 & cl2 & Hcl2 & Hpc2).
           assert (t2 = t).
           { eapply (inv_exclusive a0 st t _ t2 cl2 Hinv Hcl); [done|done|].
             by rewrite Hpc2. }
           subst. rewrite Hcl in Hcl2. simplify_eq.
    + done.
    + split; [done|]. split; [done|]. set_solver.
  - (* add_session *)
    destruct Hfact as (Hu & Hnone & Hs).
    assert (c_lock st = Some t) by by apply Hlk.
    apply (conc_inv_step a0 st _ t k _ _ Hinv Hcl); simpl.
    + done.
    + done.
    + done.
    + intros k' s' Hk'. rewrite lookup_insert_ne; [done|]. congruence.
    + intros k' s'. rewrite lookup_insert. case_decide.
      * intros ?; simplify_eq. by right.
      * by left.
    + by right.
    + by left.
    + intros s' ?; simplify_eq. left. apply lookup_insert_eq.
    + rewrite Hu, lookup_insert_eq. eauto.
  - (* _iqr_work_dirs *)
    assert (c_lock st = Some t) by by apply Hlk.
    apply (conc_inv_step a0 st _ t k _ _ Hinv Hcl); simpl;
      [done | done | done | done | by left | by left | by left | done | done].
  - (* _iqr_example_data *)
    assert (c_lock st = Some t) by by apply Hlk.
    apply (conc_inv_step a0 st _ t k _ _ Hinv Hcl); simpl;
      [done | done | done | done | by left | by left | by left | done | done].
  - (* _iqr_example_pos_descr *)
    assert (c_lock st = Some t) by by apply Hlk.
    apply (conc_inv_step a0 st _ t k _ _ Hinv Hcl); simpl;
      [done | done | done | done | by left | by left | by left | done | done].
  - (* get_session *)
    assert (c_lock st = Some t) by by apply Hlk.
    destruct Hfact as [s Hs].
    unfold get_session, bind, get. simpl. rewrite Hs. simpl.
    apply (conc_inv_step a0 st _ t k _ _ Hinv Hcl); simpl;
      [done | done | done | done | by left | by left | by left | done | eauto].
  - (* leaving the with block *)
    assert (Hheld : c_lock st = Some t) by by apply Hlk.
    apply (conc_inv_step a0 st _ t k _ _ Hinv Hcl); simpl.
    + done.
    + done.
    + intros t' Hne. rewrite Hheld. split; intros ?; simplify_eq.
    + done.
    + intros ???. by left.
    + by left.
    + by left.
    + done.
    + done.
  - done.
Qed.

Lemma run_inv a0 sched st : conc_inv a0 st → conc_inv a0 (run sched st).
Proof.
  revert st. induction sched as [|t sched IH]; intros st Hst; simpl; [done|].
  apply IH. by apply caller_step_inv.
Qed.

Lemma run_cons t sched st : run (t :: sched) st = run sched (caller_step t st).
Proof. done. Qed.

Lemma caller_step_at t st k p :
  c_callers st !! t = Some {| key := k; pc := p |} →
  caller_step t st =
    match p with
    | PcEnter =>
        match c_lock st with
        | None => goto t PcHas (set_lock (Some t) st)
        | Some _ => st
        end
    | PcHas =>
        if negb (has_session_uuid k (c_app st))
        then goto t PcConstruct st
        else goto t PcGet st
    | PcConstruct =>
        let iqr_sess :=
          new_IqrSession (cfg_pos_seed_neighbors (c_app st)) k in
        goto t (PcAdd iqr_sess) (record_created iqr_sess st)
    | PcAdd iqr_sess =>
        goto t (PcWorkDir iqr_sess)
          (set_app (add_session iqr_sess (c_app st)).2 st)
    | PcWorkDir iqr_sess =>
        goto t (PcExData iqr_sess)
          (set_app (register_work_dir iqr_sess k (c_app st)).2 st)
    | PcExData iqr_sess =>
        goto t (PcExDescr iqr_sess)
          (set_app (register_example_data iqr_sess (c_app st)).2 st)
    | PcExDescr iqr_sess =>
        goto t PcGet
          (set_app (register_example_pos_descr iqr_sess (c_app st)).2 st)
    | PcGet =>
        let '(r, a) := get_session k (c_app st) in
        goto t (PcExit r) (set_app a st)
    | PcExit r => goto t (PcDone r) (set_lock None st)
    | PcDone _ => st
    end.
Proof. intros H. unfold caller_step. by rewrite H. Qed.

Lemma lookup_goto_same t p st k p0 :
  c_callers st !! t = Some {| key := k; pc := p0 |} →
  c_callers (goto t p st) !! t = Some {| key := k; pc := p |}.
Proof. intros H. rewrite lookup_goto, decide_True by done. by rewrite H. Qed.

Lemma lookup_goto_other t p st t' :
  t' ≠ t → c_callers (goto t p st) !! t' = c_callers st !! t'.
Proof. intros H. by rewrite lookup_goto, decide_False. Qed.


Lemma caller_step_at_pc t callers k p0 a l p cr :
  callers !! t = Some {| key := k; pc := p0 |} →
  caller_step t (at_pc callers t p a l cr) =
    match p with
    | PcEnter =>
        match l with
        | None => at_pc callers t PcHas a (Some t) cr
        | Some _ => at_pc callers t p a l cr
        end
    | PcHas =>
        if negb (has_session_uuid k a) then at_pc callers t PcConstruct a l cr
        else at_pc callers t PcGet a l cr
    | PcConstruct =>
        at_pc callers t
          (PcAdd (new_IqrSession (cfg_pos_seed_neighbors a) k)) a l
          (cr ++ [new_IqrSession (cfg_pos_seed_neighbors a) k])
    | PcAdd iqr_sess =>
        at_pc callers t (PcWorkDir iqr_sess) (add_session iqr_sess a).2 l cr
    | PcWorkDir iqr_sess =>
        at_pc callers t (PcExData iqr_sess)
          (register_work_dir iqr_sess k a).2 l cr
    | PcExData iqr_sess =>
        at_pc callers t (PcExDescr iqr_sess)
          (register_example_data iqr_sess a).2 l cr
    | PcExDescr iqr_sess =>
        at_pc callers t PcGet (register_example_pos_descr iqr_sess a).2 l cr
    | PcGet =>
        at_pc callers t (PcExit (get_session k a).1) (get_session k a).2 l cr
    | PcExit r => at_pc callers t (PcDone r) a None cr
    | PcDone _ => at_pc callers t p a l cr
    end.
Proof.
  intros Hcl. unfold at_pc.
  erewrite caller_step_at by (eapply lookup_goto_same; simpl; exact Hcl).
  destruct p; try destruct l; simpl; try case_match;
    unfold goto; simpl; by rewrite ?list_alter_alter_eq.
Qed.

Lemma get_session_Some k a s :
  iqr_controller a !! k = Some s → get_session k a = (Return s, a).
Proof. intros H. unfold get_session, bind, get. simpl. by rewrite H. Qed.

(** A caller that runs alone does what [lookup_or_create] does. *)
Lemma caller_runs t st k :
  c_callers st !! t = Some {| key := k; pc := PcEnter |} →
  c_lock st = None →
  let st' := run (replicate 9 t) st in
  c_app st' = ensure_session k (c_app st) ∧
  returned t st' = Some (Return (current_session k (c_app st))) ∧
  c_lock st' = None ∧
  c_created st' =
    c_created st ++
    (if has_session_uuid k (c_app st) then []
     else [new_IqrSession (cfg_pos_seed_neighbors (c_app st)) k]) ∧
  ∀ t', t' ≠ t → c_callers st' !! t' = c_callers st !! t'.
Proof.
  intros Hcl Hlock st'. subst st'. cbn [replicate].
  rewrite run_cons, (caller_step_at _ _ _ _ Hcl), Hlock.
  change (goto t PcHas (set_lock (Some t) st)) with
    (at_pc (c_callers st) t PcHas (c_app st) (Some t) (c_created st)).
  rewrite run_cons, (caller_step_at_pc _ _ _ _ _ _ _ _ Hcl).
  unfold has_session_uuid, current_session, returned.
  destruct (iqr_controller (c_app st) !! k) as [s|] eqn:Hk; simpl negb;
    cbv iota.
  - rewrite ensure_session_existing by eauto.
    rewrite run_cons, (caller_step_at_pc _ _ _ _ _ _ _ _ Hcl).
    rewrite (get_session_Some _ _ _ Hk). cbn [fst snd].
    do 6 (rewrite run_cons, (caller_step_at_pc _ _ _ _ _ _ _ _ Hcl)).
    simpl. rewrite list_lookup_alter_eq, Hcl. simpl.
    repeat split; try done.
    + by rewrite app_nil_r.
    + intros t' Hne. by rewrite list_lookup_alter_ne.
  - rewrite ensure_session_new by done.
    do 6 (rewrite run_cons, (caller_step_at_pc _ _ _ _ _ _ _ _ Hcl)).
    erewrite get_session_Some by (simpl; apply lookup_insert_eq).
    cbn [fst snd].
    rewrite run_cons, (caller_step_at_pc _ _ _ _ _ _ _ _ Hcl).
    simpl. rewrite list_lookup_alter_eq, Hcl. simpl.
    repeat split; try done.
    intros t' Hne. by rewrite list_lookup_alter_ne.
Qed.

Lemma run_app s1 s2 st : run (s1 ++ s2) st = run s2 (run s1 st).
Proof. apply foldl_app. Qed.

Lemma caller_step_keys t st :
  key <$> c_callers (caller_step t st) = key <$> c_callers st.
Proof.
  assert (Halter : ∀ p (l : list Caller),
            key <$> alter (λ cl, {| key := key cl; pc := p |}) t l
            = key <$> l).
  { intros p l. apply list_eq. intros i.
    rewrite !list_lookup_fmap, list_lookup_alter. case_decide; [|done].
    subst. by destruct (l !! i). }
  unfold caller_step. destruct (c_callers st !! t) as [[k p]|]; [|done].
  unfold goto. simpl.
  destruct p; simpl; repeat case_match; simpl; rewrite ?Halter; done.
Qed.

Lemma run_keys sched a keys :
  key <$> c_callers (run sched (start a keys)) = keys.
Proof.
  assert (H : ∀ st, key <$> c_callers (run sched st) = key <$> c_callers st).
  { induction sched as [|t sched IH]; intros st; [done|].
    rewrite run_cons, IH. apply caller_step_keys. }
  rewrite H. simpl. rewrite <- list_fmap_compose. apply list_fmap_id.
Qed.

Lemma returned_Some t st r :
  returned t st = Some r →
  ∃ k, c_callers st !! t = Some {| key := k; pc := PcDone r |}.
Proof.
  unfold returned. destruct (c_callers st !! t) as [[k p]|]; [|done].
  destruct p; try done. intros ?; simplify_eq. eauto.
Qed.

Lemma run_returned a keys sched t k r :
  keys !! t = Some k →
  returned t (run sched (start a keys)) = Some r →
  ∃ s, r = Return s ∧
       iqr_controller (c_app (run sched (start a keys))) !! k = Some s.
Proof.
  intros Hk Hr. apply returned_Some in Hr as [k' Hcl].
  assert (k' = k) as ->.
  { pose proof (run_keys sched a keys) as Hkeys.
    apply (f_equal (λ l, l !! t)) in Hkeys.
    rewrite list_lookup_fmap, Hcl, Hk in Hkeys. by simplify_eq/=. }
  pose proof (run_inv a sched _ (conc_inv_start a keys)) as Hinv.
  apply (inv_pc _ _ Hinv _ _ Hcl).
Qed.

Lemma run_created a keys sched s :
  s ∈ c_created (run sched (start a keys)) →
  uuid s ∈ keys ∧ iqr_controller a !! uuid s = None.
Proof.
  intros Hs.
  pose proof (run_inv a sched _ (conc_inv_start a keys)) as Hinv.
  destruct (inv_created _ _ Hinv s Hs) as (Hnone & (t & cl & Hcl & Hk) & _).
  split; [|done].
  rewrite <- (run_keys sched a keys), <- Hk.
  apply list_elem_of_fmap. exists cl. split; [done|].
  by eapply list_elem_of_lookup_2.
Qed.

Lemma get_current_iqr_session_run sid w :
  get_current_iqr_session sid w =
    (Return (current_session sid (app w)),
     {| app := ensure_session sid (app w);
        trace := trace w ++ [Acquire RegistryLock; Release RegistryLock] |}).
Proof.
  unfold get_current_iqr_session, with_lock, lift, log, modify. simpl.
  rewrite lookup_or_create_run. simpl. by rewrite <- app_assoc.
Qed.

Lemma current_session_ensure sid a :
  current_session sid (ensure_session sid a) = current_session sid a.
Proof.
  unfold current_session at 1. by rewrite ensure_session_lookup.
Qed.

Lemma ensure_session_idemp sid a :
  ensure_session sid (ensure_session sid a) = ensure_session sid a.
Proof.
  apply ensure_session_existing. rewrite ensure_session_lookup. eauto.
Qed.

Lemma get_current_iqr_session_existing a sid s tr :
  iqr_controller a !! sid = Some s →
  get_current_iqr_session sid {| app := a; trace := tr |}
    = (Return s,
       {| app := a;
          trace := tr ++ [Acquire RegistryLock; Release RegistryLock] |}).
Proof.
  intros Hs. rewrite get_current_iqr_session_run. simpl.
  rewrite ensure_session_existing by eauto.
  unfold current_session. by rewrite Hs.
Qed.

Lemma get_current_iqr_session_twice a sid tr :
  ∃ s w1 w2,
    get_current_iqr_session sid {| app := a; trace := tr |} = (Return s, w1) ∧
    get_current_iqr_session sid w1 = (Return s, w2) ∧
    app w2 = app w1 ∧
    iqr_controller (app w1) !! sid = Some s ∧
    (iqr_controller a !! sid = None → uuid s = sid).
Proof.
  eexists _, _, _.
  split; [apply get_current_iqr_session_run|].
  split; [rewrite get_current_iqr_session_run; simpl;
          by rewrite current_session_ensure|].
  simpl. split; [apply ensure_session_idemp|].
  split; [apply ensure_session_lookup|].
  intros Hnone. unfold current_session. by rewrite Hnone.
Qed.

Lemma run_same_key a keys sched t1 t2 k r1 r2 :
  keys !! t1 = Some k → keys !! t2 = Some k →
  returned t1 (run sched (start a keys)) = Some r1 →
  returned t2 (run sched (start a keys)) = Some r2 →
  ∃ s, r1 = Return s ∧ r2 = Return s ∧
       iqr_controller (c_app (run sched (start a keys))) !! k = Some s.
Proof.
  intros Hk1 Hk2 Hr1 Hr2.
  destruct (run_returned _ _ _ _ _ _ Hk1 Hr1) as (s1 & -> & Hs1).
  destruct (run_returned _ _ _ _ _ _ Hk2 Hr2) as (s2 & -> & Hs2).
  exists s1. split; [done|]. split; [congruence|done].
Qed.

Lemma run_two_callers a sid sched r1 r2 :
  iqr_controller a !! sid = None →
  returned 0 (run sched (start a [sid; sid])) = Some r1 →
  returned 1 (run sched (start a [sid; sid])) = Some r2 →
  ∃ s, c_created (run sched (start a [sid; sid])) = [s] ∧
       r1 = Return s ∧ r2 = Return s ∧ uuid s = sid.
Proof.
  intros Hnone Hr1 Hr2.
  pose proof (run_inv a sched _ (conc_inv_start a [sid; sid])) as Hinv.
  destruct (run_same_key a [sid; sid] sched 0 1 sid r1 r2 eq_refl eq_refl
              Hr1 Hr2) as (s & -> & -> & Hs).
  assert (Hin : s ∈ c_created (run sched (start a [sid; sid]))).
  { destruct (inv_registry _ _ Hinv _ _ Hs) as [?|?]; [congruence|done]. }
  assert (Hkey : ∀ s', s' ∈ c_created (run sched (start a [sid; sid])) →
                       uuid s' = sid).
  { intros s' Hs'. destruct (run_created a [sid; sid] sched s' Hs') as [Hk _].
    apply elem_of_cons in Hk as [?|Hk]; [done|].
    by apply list_elem_of_singleton in Hk. }
  pose proof (inv_nodup _ _ Hinv) as Hnd.
  exists s. split; [|by auto].
  destruct (c_created (run sched (start a [sid; sid])))
    as [|x [|y rest]] eqn:Hcr.
  - by apply elem_of_nil in Hin.
  - by apply list_elem_of_singleton in Hin as ->.
  - exfalso. rewrite !fmap_cons in Hnd.
    rewrite (Hkey x), (Hkey y) in Hnd
      by (repeat first [apply list_elem_of_here | apply list_elem_of_further]).
    apply NoDup_cons in Hnd as [Hnd _]. apply Hnd, list_elem_of_here.
Qed.

Lemma run_two_callers_return a sid :
  let st := run (replicate 9 0 ++ replicate 9 1) (start a [sid; sid]) in
  returned 0 st = Some (Return (current_session sid a)) ∧
  returned 1 st = Some (Return (current_session sid a)) ∧
  c_app st = ensure_session sid a.
Proof.
  intros st. subst st. rewrite run_app.
  assert (H0 : c_callers (start a [sid; sid]) !! 0
               = Some {| key := sid; pc := PcEnter |}) by reflexivity.
  assert (H1 : c_callers (start a [sid; sid]) !! 1
               = Some {| key := sid; pc := PcEnter |}) by reflexivity.
  assert (Hl : c_lock (start a [sid; sid]) = None) by reflexivity.
  assert (Ha : c_app (start a [sid; sid]) = a) by reflexivity.
  generalize dependent (start a [sid; sid]). intros st0 H0 H1 Hl Ha.
  destruct (caller_runs 0 st0 sid H0 Hl) as (Happ & Hret & Hlock & _ & Hoth).
  cbv zeta in *.
  generalize dependent (run (replicate 9 0) st0).
  intros st1 Happ Hret Hlock Hoth.
  assert (H1' : c_callers st1 !! 1 = Some {| key := sid; pc := PcEnter |}).
  { rewrite Hoth; [exact H1 | lia]. }
  destruct (caller_runs 1 st1 sid H1' Hlock) as (Happ' & Hret' & _ & _ & Hoth').
  cbv zeta in *.
  generalize dependent (run (replicate 9 1) st1).
  intros st2 Happ' Hret' Hoth'.
  rewrite Happ', Hret', Happ, Ha.
  rewrite current_session_ensure, ensure_session_idemp.
  split; [|split; reflexivity].
  unfold returned in *. rewrite Hoth' by lia. rewrite <- Ha. exact Hret.
Qed.

(** C6: get-or-create makes at most one session per key.  A registered
    session is returned as it is and nothing is created; two calls in a
    row return the same session, the second creating nothing.  Under any
    interleaving of any number of concurrent callers no two sessions with
    the same identifier are ever constructed, and callers with the same key
    receive the same session; two concurrent callers with the same
    unregistered key cause exactly one session to be constructed and both
    receive it.  Both callers do return when each is given its turn. *)
Theorem get_current_iqr_session_single_session a sid :
  (∀ s tr, iqr_controller a !! sid = Some s →
     get_current_iqr_session sid {| app := a; trace := tr |}
       = (Return s,
          {| app := a;
             trace := tr ++ [Acquire RegistryLock; Release RegistryLock] |})) ∧
  (∀ tr, ∃ s w1 w2,
     get_current_iqr_session sid {| app := a; trace := tr |} = (Return s, w1) ∧
     get_current_iqr_session sid w1 = (Return s, w2) ∧
     app w2 = app w1 ∧
     iqr_controller (app w1) !! sid = Some s ∧
     (iqr_controller a !! sid = None → uuid s = sid)) ∧
  (∀ keys sched,
     NoDup (uuid <$> c_created (run sched (start a keys))) ∧
     (∀ s, s ∈ c_created (run sched (start a keys)) →
           uuid s ∈ keys ∧ iqr_controller a !! uuid s = None) ∧
     (∀ t1 t2 k r1 r2,
        keys !! t1 = Some k → keys !! t2 = Some k →
        returned t1 (run sched (start a keys)) = Some r1 →
        returned t2 (run sched (start a keys)) = Some r2 →
        ∃ s, r1 = Return s ∧ r2 = Return s ∧
             iqr_controller (c_app (run sched (start a keys))) !! k
               = Some s)) ∧
  (iqr_controller a !! sid = None →
   ∀ sched r1 r2,
     returned 0 (run sched (start a [sid; sid])) = Some r1 →
     returned 1 (run sched (start a [sid; sid])) = Some r2 →
     ∃ s, c_created (run sched (start a [sid; sid])) = [s] ∧
          r1 = Return s ∧ r2 = Return s ∧ uuid s = sid) ∧
  (let st := run (replicate 9 0 ++ replicate 9 1) (start a [sid; sid]) in
   returned 0 st = Some (Return (current_session sid a)) ∧
   returned 1 st = Some (Return (current_session sid a)) ∧
   c_app st = ensure_session sid a).
Proof.
  split; [|split; [|split; [|split]]].
  - intros s tr. apply get_current_iqr_session_existing.
  - intros tr. apply get_current_iqr_session_twice.
  - intros keys sched. split; [|split].
    + apply (inv_nodup a), run_inv, conc_inv_start.
    + apply run_created.
    + apply run_same_key.
  - intros Hnone sched r1 r2. by apply run_two_callers.
  - apply run_two_callers_return.
Qed.

Lemma get_current_iqr_session_single_session_witness :
  ∃ s, c_created
         (run [0; 1; 0; 1; 0; 1; 0; 1; 0; 1; 0; 1; 0; 1; 0; 1; 0; 1; 1; 1; 1; 1]
              (start app0 ["k"; "k"])) = [s] ∧
       uuid s = "k".
Proof.
  destruct (get_current_iqr_session_single_session app0 "k")
    as (_ & _ & _ & Htwo & _).
  assert (Hnone : iqr_controller app0 !! "k" = None)
    by (vm_compute; reflexivity).
  assert (H0 : returned 0
            (run [0; 1; 0; 1; 0; 1; 0; 1; 0; 1; 0; 1; 0; 1; 0; 1; 0; 1; 1; 1;
                  1; 1] (start app0 ["k"; "k"]))
          = Some (Return (new_IqrSession 2 "k")))
    by (vm_compute; reflexivity).
  assert (H1 : returned 1
            (run [0; 1; 0; 1; 0; 1; 0; 1; 0; 1; 0; 1; 0; 1; 0; 1; 0; 1; 1; 1;
                  1; 1] (start app0 ["k"; "k"]))
          = Some (Return (new_IqrSession 2 "k")))
    by (vm_compute; reflexivity).
  destruct (Htwo Hnone _ _ _ H0 H1) as (s & Hs & _ & _ & Hu).
  exists s. split; [exact Hs | exact Hu].
Defined.

(** *** Failed operations and the session state *)

Lemma refine_failure_unchanged c s :
  is_raise (refine c s).1 = true → (refine c s).2 = s.
Proof.
  unfold refine. repeat case_decide; try done.
  by destruct (rank c _ _ _).
Qed.

Lemma update_working_index_failure_unchanged c s :
  is_raise (update_working_index c s).1 = true →
  (update_working_index c s).2 = s.
Proof.
  unfold update_working_index.
  destruct (map_to_list (positive_descriptors s)) as [|p ps]; [done|].
  by destruct (seed_neighbors c _ (p :: ps)).
Qed.

Lemma set_controller_same sid a :
  set_controller
    (<[sid := current_session sid a]> (iqr_controller (ensure_session sid a)))
    (ensure_session sid a) = ensure_session sid a.
Proof.
  rewrite insert_id by apply ensure_session_lookup.
  by destruct (ensure_session sid a).
Qed.

(** A refine request that fails leaves the application as the
    lookup-or-create step left it: no adjudication, working index or stored
    result has changed. *)
Lemma iqr_refine_failure_unchanged c sid w msg :
  (iqr_refine c sid w).1 = Return (JsonStatus false msg) →
  app (iqr_refine c sid w).2 = ensure_session sid (app w).
Proof.
  rewrite iqr_refine_run. cbv zeta.
  pose proof (refine_failure_unchanged c (current_session sid (app w))) as H.
  destruct (refine c (current_session sid (app w))) as [[[]|e] s']; [done|].
  intros _. simpl in *. rewrite H by done. apply set_controller_same.
Qed.

Lemma iqr_initialize_failure_unchanged c sid w msg :
  (iqr_initialize c sid w).1 = Return (JsonStatus false msg) →
  app (iqr_initialize c sid w).2 = ensure_session sid (app w).
Proof.
  rewrite iqr_initialize_run. cbv zeta.
  pose proof (update_working_index_failure_unchanged c
                (current_session sid (app w))) as H.
  destruct (update_working_index c (current_session sid (app w)))
    as [[[]|e] s']; [done|].
  intros _. simpl in *. rewrite H by done. apply set_controller_same.
Qed.

(** ** The handlers as a whole *)

(** *** Queries leave the application alone *)

Lemma with_current_session_pure {A} sid
    (f : IqrSession → IqrSearch → outcome A) w :
  with_current_session sid (λ st, (f st.1 st.2, st)) w =
    (f (current_session sid (app w)) (ensure_session sid (app w)),
     {| app := ensure_session sid (app w);
        trace := trace w ++ session_block sid |}).
Proof.
  rewrite with_current_session_run. simpl. by rewrite set_controller_same.
Qed.

Lemma read_only_app c sid req w :
  read_only req = true →
  app (handle c sid req w).2 = ensure_session sid (app w).
Proof.
  destruct req; try done; intros _; simpl.
  - unfold iqr_session_info. rewrite with_current_session_run. run_body.
    destruct (iqr_example_pos_descr _ !! _); simpl;
      apply set_controller_same.
  - unfold iqr_session_state, bind. rewrite with_current_session_run.
    run_body. destruct (iqr_example_pos_descr _ !! _); simpl;
      apply set_controller_same.
  - unfold check_current_iqr_session. rewrite with_current_session_run.
    simpl. apply set_controller_same.
  - unfold get_example_adjudication. rewrite with_current_session_run.
    run_body. destruct (iqr_example_pos_descr _ !! _); simpl;
      apply set_controller_same.
  - unfold get_index_adjudication. rewrite with_current_session_run.
    simpl. apply set_controller_same.
  - unfold get_ordered_results. rewrite with_current_session_run.
    simpl. apply set_controller_same.
  - unfold get_random_uids, bind. rewrite with_current_session_run.
    simpl. apply set_controller_same.
Qed.

(** X1: the query handlers ([iqr_session_info], [get_iqr_state],
    [check_current_iqr_session], [get_example_adjudication],
    [get_index_adjudication], [iqr_ordered_results], [get_random_uids])
    change nothing beyond what [get_current_iqr_session] does: the
    application afterwards is the one after the lookup-or-create step; if
    the client's session was registered the application is unchanged; the
    session registered afterwards is the client's current session. *)
Theorem read_only_requests_keep_state c sid req w :
  read_only req = true →
  app (handle c sid req w).2 = ensure_session sid (app w) ∧
  (is_Some (iqr_controller (app w) !! sid) →
     app (handle c sid req w).2 = app w) ∧
  iqr_controller (app (handle c sid req w).2) !! sid
    = Some (current_session sid (app w)).
Proof.
  intros Hro. rewrite (read_only_app c sid req w Hro).
  split; [done|]. split.
  - apply ensure_session_existing.
  - apply ensure_session_lookup.
Qed.

Lemma read_only_requests_keep_state_witness :
  app (handle demo_caps "k" (GetIndexAdjudication "A") world_ranked).2
    = app world_ranked.
Proof.
  destruct (read_only_requests_keep_state demo_caps "k"
              (GetIndexAdjudication "A") world_ranked eq_refl)
    as (_ & Hsame & _).
  apply Hsame. eexists. vm_compute. reflexivity.
Defined.

(** *** Adjudicate requests *)

Lemma get_many_descriptors_spec m uids :
  match get_many_descriptors m uids with
  | Return ds => ds = resolve m uids ∧ Forall (λ u, is_Some (m !! u)) uids
  | Raise e => ∃ u, e = NotFound u ∧ u ∈ uids ∧ m !! u = None
  end.
Proof.
  induction uids as [|u uids IH]; simpl.
  - by split.
  - unfold resolve. simpl. destruct (m !! u) as [p|] eqn:Hu; simpl.
    + destruct (get_many_descriptors m uids) as [ds|e].
      * destruct IH as [-> HF]. split; [done|]. constructor; [by rewrite Hu|done].
      * destruct IH as (u' & -> & Hin & Hnone). exists u'.
        split; [done|]. split; [by right|done].
    + exists u. split; [done|]. split; [by left|done].
Qed.

Lemma adjudicate_run sid pos_to_add pos_to_remove neg_to_add neg_to_remove w :
  adjudicate sid pos_to_add pos_to_remove neg_to_add neg_to_remove w =
    let s := current_session sid (app w) in
    let a := ensure_session sid (app w) in
    let failed e :=
      (Raise e, {| app := a; trace := trace w ++ session_block sid |}) in
    match get_many_descriptors (working_index s) pos_to_add with
    | Raise e => failed e
    | Return new_pos =>
    match get_many_descriptors (working_index s) neg_to_add with
    | Raise e => failed e
    | Return new_neg =>
    match get_many_descriptors (working_index s) pos_to_remove with
    | Raise e => failed e
    | Return un_pos =>
    match get_many_descriptors (working_index s) neg_to_remove with
    | Raise e => failed e
    | Return un_neg =>
        (Return (JsonStatus true
                   (adjudicate_message pos_to_add pos_to_remove neg_to_add
                      neg_to_remove)),
         {| app := set_controller
                     (<[sid := session_adjudicate new_pos new_neg un_pos
                                 un_neg s]> (iqr_controller a)) a;
            trace := trace w ++ session_block sid |})
    end end end end.
Proof.
  unfold adjudicate. unfold bind at 1. rewrite with_current_session_run.
  run_body.
  repeat (destruct (get_many_descriptors _ _); simpl;
          [|by rewrite set_controller_same]).
  done.
Qed.

(** X4: [adjudicate] is all or nothing.  If every identifier of the four
    lists is in the working index, the request succeeds with the status
    message and the session becomes the adjudication of the four resolved
    lists.  Otherwise it raises NotFound for an identifier that is listed
    and not indexed, and the application is as after the lookup-or-create
    step: no label has changed. *)
Theorem adjudicate_all_or_nothing sid pos_to_add pos_to_remove neg_to_add
    neg_to_remove w :
  let s := current_session sid (app w) in
  let wi := working_index s in
  let ids := pos_to_add ++ neg_to_add ++ pos_to_remove ++ neg_to_remove in
  let out := adjudicate sid pos_to_add pos_to_remove neg_to_add
               neg_to_remove w in
  (Forall (λ u, is_Some (wi !! u)) ids →
     out.1 = Return (JsonStatus true
                       (adjudicate_message pos_to_add pos_to_remove
                          neg_to_add neg_to_remove)) ∧
     iqr_controller (app out.2) !! sid
       = Some (session_adjudicate (resolve wi pos_to_add)
                 (resolve wi neg_to_add) (resolve wi pos_to_remove)
                 (resolve wi neg_to_remove) s)) ∧
  (¬ Forall (λ u, is_Some (wi !! u)) ids →
     ∃ u, u ∈ ids ∧ wi !! u = None ∧ out.1 = Raise (NotFound u) ∧
          app out.2 = ensure_session sid (app w)).
Proof.
  intros s wi ids out. subst out ids. rewrite adjudicate_run. cbv zeta.
  fold s wi.
  pose proof (get_many_descriptors_spec wi pos_to_add) as H1.
  pose proof (get_many_descriptors_spec wi neg_to_add) as H2.
  pose proof (get_many_descriptors_spec wi pos_to_remove) as H3.
  pose proof (get_many_descriptors_spec wi neg_to_remove) as H4.
  rewrite !Forall_app.
  assert (Hbad : ∀ u l, u ∈ l → wi !! u = None →
                   ¬ Forall (λ u, is_Some (wi !! u)) l).
  { intros u l Hin Hnone HF. rewrite Forall_forall in HF.
    apply HF in Hin. rewrite Hnone in Hin. by destruct Hin. }
  destruct (get_many_descriptors wi pos_to_add) as [d1|e1].
  2:{ destruct H1 as (u & -> & Hin & Hnone). split.
      - intros (HF & _). by destruct (Hbad u _ Hin Hnone).
      - intros _. exists u. rewrite !elem_of_app. auto. }
  destruct (get_many_descriptors wi neg_to_add) as [d2|e2].
  2:{ destruct H2 as (u & -> & Hin & Hnone). split.
      - intros (_ & HF & _). by destruct (Hbad u _ Hin Hnone).
      - intros _. exists u. rewrite !elem_of_app. auto. }
  destruct (get_many_descriptors wi pos_to_remove) as [d3|e3].
  2:{ destruct H3 as (u & -> & Hin & Hnone). split.
      - intros (_ & _ & HF & _). by destruct (Hbad u _ Hin Hnone).
      - intros _. exists u. rewrite !elem_of_app. auto 10. }
  destruct (get_many_descriptors wi neg_to_remove) as [d4|e4].
  2:{ destruct H4 as (u & -> & Hin & Hnone). split.
      - intros (_ & _ & _ & HF). by destruct (Hbad u _ Hin Hnone).
      - intros _. exists u. rewrite !elem_of_app. auto 10. }
  destruct H1 as [-> F1], H2 as [-> F2], H3 as [-> F3], H4 as [-> F4].
  split.
  - intros _. split; [done|]. simpl. by rewrite lookup_insert_eq.
  - intros Hnot. by destruct Hnot.
Qed.

Lemma adjudicate_all_or_nothing_witness :
  (adjudicate "k" [] [] ["B"] [] world_ranked).1
    = Return (JsonStatus true
        "Adjudicated Positive{+[], -[]}, Negative{+['B'], -[]} ") ∧
  ∃ u, (adjudicate "k" ["A"; "Z"] [] ["B"] [] world_ranked).1
         = Raise (NotFound u) ∧
       app (adjudicate "k" ["A"; "Z"] [] ["B"] [] world_ranked).2
         = app world_ranked.
Proof.
  split.
  - destruct (adjudicate_all_or_nothing "k" [] [] ["B"] [] world_ranked)
      as [Hok _].
    apply Hok. simpl. apply Forall_cons. split; [|done].
    eexists. vm_compute. reflexivity.
  - destruct (adjudicate_all_or_nothing "k" ["A"; "Z"] [] ["B"] []
                world_ranked) as [_ Hbad].
    destruct Hbad as (u & _ & _ & Hr & Happ).
    + intros HF. simpl in HF. apply Forall_cons in HF as [_ HF].
      apply Forall_cons in HF as [HZ _]. revert HZ. vm_compute.
      intros [x Hx]. discriminate Hx.
    + exists u. split; [exact Hr|]. rewrite Happ.
      apply ensure_session_existing. eexists. vm_compute. reflexivity.
Defined.

(** *** Initialize and refine never raise *)

(** X5: [iqr_initialize] and [iqr_refine] never raise: a failure of the
    session operation becomes a response with success false and the name
    and message of the exception, success the fixed completion message.
    Each takes exactly one session block of locks. *)
Theorem initialize_refine_never_raise c sid w :
  let s := current_session sid (app w) in
  (iqr_initialize c sid w).1
    = Return (match (update_working_index c s).1 with
              | Return _ => JsonStatus true "Completed initialization"
              | Raise ex => JsonStatus false (error_message ex)
              end) ∧
  (iqr_refine c sid w).1
    = Return (match (refine c s).1 with
              | Return _ => JsonStatus true "Completed refinement"
              | Raise ex => JsonStatus false (error_message ex)
              end) ∧
  trace (iqr_initialize c sid w).2 = trace w ++ session_block sid ∧
  trace (iqr_refine c sid w).2 = trace w ++ session_block sid.
Proof.
  intros s. rewrite iqr_initialize_run, iqr_refine_run. cbv zeta. fold s.
  destruct (update_working_index c s) as [r1 s1].
  destruct (refine c s) as [r2 s2]. done.
Qed.

(** *** Ingest *)

(** X6: when the descriptor generator fails on an upload, an exception
    that is an instance of ValueError (the class itself or a subclass of
    it) becomes the text response "Input Error: ..." with status 400 and
    any exception of another class propagates.  In both cases the session
    has no new positive, the example descriptors and the work directories
    are as before, and the locks taken are one session block. *)
Theorem iqr_ingest_file_failure_frame c sid fid w wdir ex e :
  let s := current_session sid (app w) in
  let a := ensure_session sid (app w) in
  let upload := uploaded_data c wdir fid in
  let out := iqr_ingest_file c sid fid w in
  iqr_work_dirs a !! uuid s = Some wdir →
  iqr_example_data a !! uuid s = Some ex →
  compute_descriptor c upload = Raise e →
  out.1 = (if isinstance_ValueError e
           then Return (Text (String.append "Input Error: " (exn_str e)) 400)
           else Raise e) ∧
  iqr_controller (app out.2) !! sid = Some s ∧
  iqr_example_pos_descr (app out.2) = iqr_example_pos_descr a ∧
  iqr_work_dirs (app out.2) = iqr_work_dirs a ∧
  trace out.2 = trace w ++ session_block sid.
Proof.
  intros s a upload out Hwd Hex Hfail. subst out.
  unfold iqr_ingest_file. rewrite with_current_session_run. run_body.
  fold s a. rewrite Hwd. simpl. rewrite Hex. simpl.
  fold upload. rewrite Hfail. simpl.
  destruct e; simpl; by rewrite lookup_insert_eq.
Qed.

Lemma iqr_ingest_file_failure_frame_witness :
  iqr_controller (app (iqr_ingest_file demo_caps "k" "bad" world_ranked).2)
    !! "k" = iqr_controller (app world_ranked) !! "k".
Proof.
  destruct (iqr_ingest_file_failure_frame demo_caps "k" "bad" world_ranked
              "/work/k"
              {["A" := {| de_uuid := "A"; de_path := "/work/k/good" |}]}
              (ValueError "cannot read")) as (_ & Hs & _).
  - vm_compute. reflexivity.
  - vm_compute. reflexivity.
  - vm_compute. reflexivity.
  - rewrite Hs. vm_compute. reflexivity.
Defined.

Lemma dom_singleton_positive (d : DescriptorElement) s :
  d_uuid d ∈ dom (positive_descriptors (session_adjudicate [d] [] [] [] s)) ∧
  d_uuid d ∉ dom (negative_descriptors (session_adjudicate [d] [] [] [] s)).
Proof.
  destruct (dom_session_adjudicate [d] [] [] [] s) as [-> ->]. simpl.
  set_solver.
Qed.

(** X7: a successful upload, with saliency off, answers the uuid of the
    data element with status 200, stores the element and its descriptor in
    the session's two example dictionaries under that uuid and adjudicates
    the descriptor positive.  Afterwards [get_example_adjudication] of the
    data uuid and [get_index_adjudication] of the descriptor uuid both
    answer positive and not negative. *)
Theorem iqr_ingest_file_success c sid fid w wdir ex exd d :
  let s := current_session sid (app w) in
  let a := ensure_session sid (app w) in
  let upload := uploaded_data c wdir fid in
  let out := iqr_ingest_file c sid fid w in
  iqr_work_dirs a !! uuid s = Some wdir →
  iqr_example_data a !! uuid s = Some ex →
  iqr_example_pos_descr a !! uuid s = Some exd →
  saliency_descr_flag a = false →
  compute_descriptor c upload = Return d →
  out.1 = Return (Text (de_uuid upload) 200) ∧
  iqr_example_data (app out.2) !! uuid s
    = Some (<[de_uuid upload := upload]> ex) ∧
  iqr_example_pos_descr (app out.2) !! uuid s
    = Some (<[de_uuid upload := d]> exd) ∧
  iqr_controller (app out.2) !! sid
    = Some (session_adjudicate [d] [] [] [] s) ∧
  (get_example_adjudication sid (de_uuid upload) out.2).1
    = Return (JsonAdjudication true false) ∧
  (get_index_adjudication sid (d_uuid d) out.2).1
    = Return (JsonAdjudication true false).
Proof.
  intros s a upload out Hwd Hex Hexd Hsal Hok.
  assert (Hout : out =
    (Return (Text (de_uuid upload) 200),
     {| app :=
          set_controller
            (<[sid := session_adjudicate [d] [] [] [] s]> (iqr_controller a))
            (set_example_pos_descr
               (<[uuid s := <[de_uuid upload := d]> exd]>
                  (iqr_example_pos_descr a))
               (set_example_data
                  (<[uuid s := <[de_uuid upload := upload]> ex]>
                     (iqr_example_data a)) a));
        trace := trace w ++ session_block sid |})).
  { subst out. unfold iqr_ingest_file. rewrite with_current_session_run.
    run_body. fold s a. rewrite Hwd. simpl. rewrite Hex. simpl.
    fold upload. rewrite Hok. simpl. rewrite Hexd. simpl.
    by rewrite Hsal. }
  rewrite Hout. simpl. rewrite !lookup_insert_eq.
  split; [done|]. split; [done|]. split; [done|]. split; [done|].
  assert (Hcur : ∀ tr,
    current_session sid
      (app {| app :=
          set_controller
            (<[sid := session_adjudicate [d] [] [] [] s]> (iqr_controller a))
            (set_example_pos_descr
               (<[uuid s := <[de_uuid upload := d]> exd]>
                  (iqr_example_pos_descr a))
               (set_example_data
                  (<[uuid s := <[de_uuid upload := upload]> ex]>
                     (iqr_example_data a)) a));
        trace := tr |}) = session_adjudicate [d] [] [] [] s).
  { intros tr. unfold current_session. simpl. by rewrite lookup_insert_eq. }
  split.
  - unfold get_example_adjudication. rewrite with_current_session_run.
    rewrite Hcur. run_body.
    rewrite ensure_session_existing
      by (simpl; rewrite lookup_insert_eq; eauto).
    simpl. rewrite lookup_insert_eq. simpl. by rewrite lookup_insert_eq.
  - rewrite get_index_adjudication_run. cbv zeta. rewrite Hcur.
    destruct (dom_singleton_positive d s) as [Hp Hn].
    rewrite bool_decide_eq_true_2 by (by apply elem_of_uuids).
    rewrite bool_decide_eq_false_2; [done|].
    intros Hin. by apply elem_of_uuids in Hin.
Qed.

Lemma iqr_ingest_file_success_witness :
  (get_example_adjudication "k" "A"
     (iqr_ingest_file demo_caps "k" "good"
        (get_current_iqr_session "k" world0).2).2).1
  = Return (JsonAdjudication true false).
Proof.
  destruct (iqr_ingest_file_success demo_caps "k" "good"
              (get_current_iqr_session "k" world0).2 "/work/k" ∅ ∅ descA)
    as (_ & _ & _ & _ & Hq & _).
  - vm_compute. reflexivity.
  - vm_compute. reflexivity.
  - vm_compute. reflexivity.
  - vm_compute. reflexivity.
  - vm_compute. reflexivity.
  - exact Hq.
Defined.

(** *** Reset and the example data *)

(** X8: [reset_iqr_session].  Without a work directory entry for the
    session the request raises KeyError and the example data are
    untouched.  With the three entries present it answers success, both
    example dictionaries of the session become empty and the work
    directory entries are kept; afterwards [get_example_adjudication]
    answers (false, false) for every identifier and [iqr_session_info]
    reports no positives, no negatives, no examples and an uninitialized
    working index. *)
Theorem reset_empties_example_dictionaries sid w :
  let s := current_session sid (app w) in
  let a := ensure_session sid (app w) in
  let out := reset_iqr_session sid w in
  (iqr_work_dirs a !! uuid s = None →
     out.1 = Raise (OtherError "KeyError" (uuid s)) ∧
     iqr_example_data (app out.2) = iqr_example_data a) ∧
  (is_Some (iqr_work_dirs a !! uuid s) →
   is_Some (iqr_example_data a !! uuid s) →
   is_Some (iqr_example_pos_descr a !! uuid s) →
     out.1 = Return (JsonSuccess true) ∧
     iqr_example_data (app out.2) !! uuid s = Some ∅ ∧
     iqr_example_pos_descr (app out.2) !! uuid s = Some ∅ ∧
     iqr_work_dirs (app out.2) = iqr_work_dirs a ∧
     (∀ u, (get_example_adjudication sid u out.2).1
             = Return (JsonAdjudication false false)) ∧
     (iqr_session_info sid out.2).1
       = Return (JsonSessionInfo (uuid s) [] [] [] false 0)).
Proof.
  intros s a out. split.
  - intros Hnone. subst out. unfold reset_iqr_session.
    rewrite with_current_session_run. run_body. fold s a.
    by rewrite Hnone.
  - intros [wd Hwd] [ex Hex] [exd Hexd].
    assert (Hout : out =
      (Return (JsonSuccess true),
       {| app :=
            set_controller
              (<[sid := session_reset s]> (iqr_controller a))
              (set_example_pos_descr
                 (<[uuid s := ∅]> (iqr_example_pos_descr a))
                 (set_example_data (<[uuid s := ∅]> (iqr_example_data a)) a));
          trace := trace w ++ session_block sid |})).
    { subst out. unfold reset_iqr_session. rewrite with_current_session_run.
      run_body. fold s a. rewrite Hwd. simpl. rewrite Hex. simpl.
      by rewrite Hexd. }
    rewrite Hout. simpl. rewrite !lookup_insert_eq.
    split; [done|]. split; [done|]. split; [done|]. split; [done|].
    split.
    + intros u. unfold get_example_adjudication.
      rewrite with_current_session_run. run_body.
      rewrite ensure_session_existing
        by (simpl; rewrite lookup_insert_eq; eauto).
      unfold current_session. simpl. rewrite lookup_insert_eq. simpl.
      rewrite lookup_insert_eq. simpl. by rewrite lookup_empty.
    + unfold iqr_session_info. rewrite with_current_session_run. run_body.
      rewrite ensure_session_existing
        by (simpl; rewrite lookup_insert_eq; eauto).
      unfold current_session. simpl. rewrite lookup_insert_eq. simpl.
      rewrite lookup_insert_eq. simpl.
      by rewrite map_to_list_empty, map_size_empty.
Qed.

Lemma reset_empties_example_dictionaries_witness :
  (get_example_adjudication "k" "A" (reset_iqr_session "k" world_ranked).2).1
    = Return (JsonAdjudication false false) ∧
  (get_example_adjudication "k" "A" world_ranked).1
    = Return (JsonAdjudication true false).
Proof.
  split; [|by vm_compute].
  destruct (reset_empties_example_dictionaries "k" world_ranked)
    as [_ Hok].
  destruct Hok as (_ & _ & _ & _ & Hq & _).
  - eexists. vm_compute. reflexivity.
  - eexists. vm_compute. reflexivity.
  - eexists. vm_compute. reflexivity.
  - apply Hq.
Defined.

(** *** Slices with any indices *)

Lemma py_slice_segment {A} (l : list A) (i j : Z) :
  ∃ pre post, l = pre ++ py_slice l i j ++ post.
Proof.
  unfold py_slice.
  set (m := Z.to_nat (slice_index (Z.of_nat (length l)) i)).
  set (n := Z.to_nat (slice_index (Z.of_nat (length l)) j
                      - slice_index (Z.of_nat (length l)) i)).
  exists (take m l), (drop n (drop m l)).
  by rewrite take_drop, take_drop.
Qed.

Lemma py_slice_drop_last {A} (l : list A) (n : nat) :
  0 < n → py_slice l 0 (- Z.of_nat n) = take (length l - n) l.
Proof.
  intros Hn. unfold py_slice, slice_index.
  destruct (Z.ltb_spec 0 0); [lia|].
  destruct (Z.ltb_spec (- Z.of_nat n) 0); [|lia].
  replace (Z.to_nat (0 `min` Z.of_nat (length l))) with 0 by lia.
  rewrite drop_0. f_equal. lia.
Qed.

(** X9: for any optional indices, negative or out of range included,
    [iqr_ordered_results] returns a contiguous segment of the stored
    ranking in its order, and never fails; with [i = 0] and [j = -n] for
    [n > 0] it returns the ranking without its last [n] entries. *)
Theorem get_ordered_results_any_indices sid i_arg j_arg w :
  let stored := ordered_results (current_session sid (app w)) in
  (∃ pre r post,
     (get_ordered_results sid i_arg j_arg w).1
       = Return (JsonResults (result_pairs r)) ∧
     stored = pre ++ r ++ post) ∧
  (∀ n, 0 < n →
     (get_ordered_results sid (Some 0%Z) (Some (- Z.of_nat n)%Z) w).1
       = Return (JsonResults
                   (result_pairs (take (length stored - n) stored)))).
Proof.
  intros stored. split.
  - rewrite get_ordered_results_run. cbv zeta. fold stored.
    destruct (py_slice_segment stored (default 0%Z i_arg)
                (default
                   match results (current_session sid (app w)) with
                   | Some (x :: l) => Z.of_nat (length (x :: l))
                   | _ => 0%Z
                   end j_arg)) as (pre & post & Hseg).
    by eexists pre, _, post.
  - intros n Hn. rewrite get_ordered_results_run. cbv zeta. fold stored.
    simpl. by rewrite py_slice_drop_last.
Qed.

Lemma get_ordered_results_any_indices_witness :
  (get_ordered_results "k" (Some 0%Z) (Some (-1)%Z) world_ranked).1
    = Return (JsonResults [("A", Q2Qc (9 # 10))]).
Proof.
  destruct (get_ordered_results_any_indices "k" None None world_ranked)
    as [_ Hneg].
  change (-1)%Z with (- Z.of_nat 1)%Z. rewrite (Hneg 1) by lia.
  vm_compute. reflexivity.
Defined.

(** *** State export *)

(** X11: [get_iqr_state] names the archive after the session uuid; the
    positive vectors are those of the session's example descriptors and of
    its positive adjudications, the negative vectors those of its negative
    adjudications, each list without duplicates; the application is as
    after the lookup-or-create step. *)
Theorem iqr_session_state_vectors sid w exd :
  let s := current_session sid (app w) in
  let a := ensure_session sid (app w) in
  iqr_example_pos_descr a !! uuid s = Some exd →
  ∃ pos neg,
    (iqr_session_state sid w).1
      = Return (StateArchive (String.append (uuid s) ".IqrState") pos neg) ∧
    NoDup pos ∧ NoDup neg ∧
    (∀ v, v ∈ pos ↔
          (∃ k d, exd !! k = Some d ∧ d_vector d.2 = v) ∨
          (∃ k p, positive_descriptors s !! k = Some p ∧ d_vector p = v)) ∧
    (∀ v, v ∈ neg ↔
          ∃ k p, negative_descriptors s !! k = Some p ∧ d_vector p = v) ∧
    app (iqr_session_state sid w).2 = a.
Proof.
  intros s a Hexd.
  unfold iqr_session_state, bind. rewrite with_current_session_run.
  run_body. fold s a. rewrite Hexd. simpl.
  eexists _, _. split; [done|].
  split; [apply NoDup_remove_dups|]. split; [apply NoDup_remove_dups|].
  split; [|split].
  - intros v. rewrite elem_of_remove_dups, elem_of_app, !list_elem_of_fmap.
    split.
    + intros [([k d] & -> & Hin)|([k p] & -> & Hin)];
        apply elem_of_map_to_list in Hin; [left|right]; eauto.
    + intros [(k & d & Hk & <-)|(k & p & Hk & <-)]; [left|right].
      * exists (k, d). split; [done|]. by apply elem_of_map_to_list.
      * exists (k, p). split; [done|]. by apply elem_of_map_to_list.
  - intros v. rewrite elem_of_remove_dups, list_elem_of_fmap. split.
    + intros ([k p] & -> & Hin). apply elem_of_map_to_list in Hin. eauto.
    + intros (k & p & Hk & <-). exists (k, p). split; [done|].
      by apply elem_of_map_to_list.
  - apply set_controller_same.
Qed.

Lemma iqr_session_state_vectors_witness :
  ∃ pos neg,
    (iqr_session_state "k" world_ranked).1
      = Return (StateArchive "k.IqrState" pos neg) ∧
    d_vector vecA ∈ pos ∧ neg = [].
Proof.
  destruct (iqr_session_state_vectors "k" world_ranked {["A" := descA]})
    as (pos & neg & Hr & _ & _ & Hpos & Hneg & _).
  - vm_compute. reflexivity.
  - exists pos, neg. split; [exact Hr|]. split.
    + apply Hpos. left. exists "A", descA. split; [|done].
      vm_compute. reflexivity.
    + destruct neg as [|v neg]; [done|]. exfalso.
      destruct (proj1 (Hneg v)) as (k & p & Hk & _); [by left|].
      revert Hk. vm_compute. discriminate.
Defined.

(** *** Get-or-create *)

(** X14: [get_current_iqr_session] for an unregistered key registers a
    new session with the configured seed count under the key, with the
    work directory [<work_dir>/<key>] and two empty example dictionaries;
    the static cache and everything kept for other keys are unchanged. *)
Theorem get_current_iqr_session_new sid w :
  let a := app w in
  let a' := app (get_current_iqr_session sid w).2 in
  iqr_controller a !! sid = None →
  iqr_controller a' !! sid
    = Some (new_IqrSession (cfg_pos_seed_neighbors a) sid) ∧
  iqr_work_dirs a' !! sid = Some (path_join (work_dir a) sid) ∧
  iqr_example_data a' !! sid = Some ∅ ∧
  iqr_example_pos_descr a' !! sid = Some ∅ ∧
  static_cache a' = static_cache a ∧
  ∀ k, k ≠ sid →
    iqr_controller a' !! k = iqr_controller a !! k ∧
    iqr_work_dirs a' !! k = iqr_work_dirs a !! k ∧
    iqr_example_data a' !! k = iqr_example_data a !! k ∧
    iqr_example_pos_descr a' !! k = iqr_example_pos_descr a !! k.
Proof.
  intros a a' Hnone. subst a'. rewrite get_current_iqr_session_run. simpl.
  rewrite ensure_session_new by done. simpl.
  rewrite !lookup_insert_eq. repeat split; try done;
    by rewrite lookup_insert_ne.
Qed.

Lemma get_current_iqr_session_new_witness :
  iqr_work_dirs (app (get_current_iqr_session "k" world0).2) !! "k"
    = Some "/work/k".
Proof.
  destruct (get_current_iqr_session_new "k" world0) as (_ & Hwd & _).
  - vm_compute. reflexivity.
  - exact Hwd.
Defined.

(** *** Preview of a data element *)

(** X12: [get_data_preview_image] with saliency off.  For an element of
    the data set no lock is taken and no session is created; a failure of
    the preview propagates and leaves the application as it was; otherwise
    the element is put in the static cache unless one is cached already
    (then the cached one is used and nothing changes) and the response
    links the cached file and the preview.  For an identifier neither in
    the data set nor among the session's example data the response has
    success false and the message "UUID not part of the active data
    set!". *)
Theorem get_ingest_item_image_rep_no_saliency c sid uid w :
  let out := get_ingest_item_image_rep c sid uid w in
  saliency_descr_flag (app w) = false →
  (∀ de, data_set c !! uid = Some de →
     trace out.2 = trace w ∧
     iqr_controller (app out.2) = iqr_controller (app w) ∧
     match preview_image c de with
     | Raise e => out.1 = Raise e ∧ app out.2 = app w
     | Return pv =>
         ∃ cached,
           static_cache (app out.2) !! de_uuid de = Some cached ∧
           (static_cache (app w) !! de_uuid de = None → cached = de) ∧
           (∀ old, static_cache (app w) !! de_uuid de = Some old →
                   cached = old ∧ app out.2 = app w) ∧
           out.1 = Return (JsonPreview
             {| pi_success := true; pi_message := None;
                pi_shape := Some pv.2;
                pi_static_file_link :=
                  Some (path_join "static/data" (de_path cached));
                pi_static_preview_link :=
                  Some (path_join "static/data" pv.1);
                pi_smap_preview_link := None;
                pi_smap_static_file_link := None |})
     end) ∧
  (data_set c !! uid = None →
   ∀ ex, iqr_example_data (ensure_session sid (app w))
           !! uuid (current_session sid (app w)) = Some ex →
         ex !! uid = None →
     out.1 = Return (JsonPreview
       {| pi_success := false;
          pi_message := Some "UUID not part of the active data set!";
          pi_shape := None; pi_static_file_link := None;
          pi_static_preview_link := None; pi_smap_preview_link := None;
          pi_smap_static_file_link := None |}) ∧
     trace out.2 = trace w ++ session_block sid ∧
     app out.2 = ensure_session sid (app w)).
Proof.
  intros out Hflag. split.
  - intros de Hds.
    assert (Hout : out =
      match preview_image c de with
      | Raise e => (Raise e, w)
      | Return pv =>
          (Return (JsonPreview
             {| pi_success := true; pi_message := None;
                pi_shape := Some pv.2;
                pi_static_file_link :=
                  Some (path_join "static/data"
                          (de_path (default de
                                      (static_cache (app w) !! de_uuid de))));
                pi_static_preview_link :=
                  Some (path_join "static/data" pv.1);
                pi_smap_preview_link := None;
                pi_smap_static_file_link := None |}),
           {| app := match static_cache (app w) !! de_uuid de with
                     | Some _ => app w
                     | None => set_static_cache
                                 (<[de_uuid de := de]> (static_cache (app w)))
                                 (app w)
                     end;
              trace := trace w |})
      end).
    { subst out. unfold get_ingest_item_image_rep, cache_static.
      rewrite Hds. destruct w as [a tr]. simpl in Hflag.
      unfold bind, lift, modify, get, getitem, ret, raise, of_outcome.
      simpl. destruct (preview_image c de) as [[path shape]|e]; [|done].
      simpl. destruct (static_cache a !! de_uuid de) as [old|] eqn:Hc; simpl.
      - rewrite Hc. simpl. by rewrite Hflag.
      - rewrite lookup_insert_eq. simpl. by rewrite Hflag. }
    rewrite Hout. clear Hout.
    destruct (preview_image c de) as [pv|e]; simpl.
    + destruct (static_cache (app w) !! de_uuid de) as [old|] eqn:Hc; simpl.
      * split; [done|]. split; [done|]. exists old.
        split; [done|]. split; [done|]. split; [|done].
        intros ? ?; simplify_eq. split; [done|]. by destruct w.
      * split; [done|]. split; [done|]. exists de.
        rewrite lookup_insert_eq. done.
    + by destruct w.
  - intros Hds ex Hex Hnone.
    assert (Hf : saliency_descr_flag (ensure_session sid (app w)) = false).
    { destruct (iqr_controller (app w) !! sid) eqn:E.
      - by rewrite ensure_session_existing by eauto.
      - by rewrite ensure_session_new by done. }
    assert (Hout : out =
      (Return (JsonPreview
         {| pi_success := false;
            pi_message := Some "UUID not part of the active data set!";
            pi_shape := None; pi_static_file_link := None;
            pi_static_preview_link := None; pi_smap_preview_link := None;
            pi_smap_static_file_link := None |}),
       {| app := ensure_session sid (app w);
          trace := trace w ++ session_block sid |})).
    { subst out. unfold get_ingest_item_image_rep. rewrite Hds.
      unfold bind at 1. rewrite with_current_session_run. run_body.
      rewrite Hex. simpl. rewrite Hnone. simpl.
      unfold lift. simpl. rewrite set_controller_same. by rewrite Hf. }
    by rewrite Hout.
Qed.

Lemma get_ingest_item_image_rep_no_saliency_witness :
  (get_ingest_item_image_rep demo_caps "k" "nothing" world_ranked).1
    = Return (JsonPreview
       {| pi_success := false;
          pi_message := Some "UUID not part of the active data set!";
          pi_shape := None; pi_static_file_link := None;
          pi_static_preview_link := None; pi_smap_preview_link := None;
          pi_smap_static_file_link := None |}).
Proof.
  destruct (get_ingest_item_image_rep_no_saliency demo_caps "k" "nothing"
              world_ranked) as [_ Hmiss]; [by vm_compute|].
  destruct (Hmiss eq_refl
              {["A" := {| de_uuid := "A"; de_path := "/work/k/good" |}]})
    as (Hr & _).
  - vm_compute. reflexivity.
  - vm_compute. reflexivity.
  - exact Hr.
Defined.


(** *** Invariants with returned values *)

Section KeepsV.
Context {S : Type} (I : S → Prop).

Lemma kv_ret {A} (a : A) : keepsv I (λ _, True) (ret a).
Proof. by intros st. Qed.

Lemma kv_raise {A} e : keepsv I (λ _ : A, True) (raise e).
Proof. by intros st. Qed.

Lemma kv_get : keepsv I (λ _, True) get.
Proof. by intros st. Qed.

Lemma kv_of_outcome {A} (o : outcome A) : keepsv I (λ _, True) (of_outcome o).
Proof. by intros st. Qed.

Lemma kv_getitem {V} (m : gmap string V) k :
  keepsv I (λ _, True) (getitem m k).
Proof. intros st. unfold getitem. by case_match. Qed.

Lemma kv_modify f : (∀ st, I st → I (f st)) → keepsv I (λ _, True) (modify f).
Proof. intros Hf st Hst. split; [by apply Hf | done]. Qed.

Lemma kv_bind {A C} (V : A → Prop) (W : C → Prop) (m : St S A)
    (k : A → St S C) :
  keepsv I V m → (∀ a, V a → keepsv I W (k a)) → keepsv I W (bind m k).
Proof.
  intros Hm Hk st Hst. unfold bind.
  destruct (Hm st Hst) as [H1 H2]. destruct (m st) as [[a|e] st']; simpl in *.
  - by apply Hk; [apply H2|].
  - done.
Qed.

Lemma kv_try_except {A} (V : A → Prop) (m : St S A) h :
  keepsv I V m → (∀ e, keepsv I V (h e)) → keepsv I V (try_except m h).
Proof.
  intros Hm Hh st Hst. unfold try_except.
  destruct (Hm st Hst) as [H1 H2]. destruct (m st) as [[a|e] st']; simpl in *.
  - split; [done|]. intros a' ?; simplify_eq. by apply H2.
  - by apply Hh.
Qed.
End KeepsV.

Section OwnSessionBody.
Variable sid : string.
Variable Qb : IqrSearch → Prop.

Lemma kv_iqrs : keepsv (on_own_session sid Qb) (λ s, uuid s = sid) iqrs.
Proof. intros [s a] [Hs Ha]. split; [done|]. by intros ? ?; simplify_eq/=. Qed.

Lemma kv_self : keepsv (on_own_session sid Qb) (λ _, True) self.
Proof. by intros st. Qed.

Lemma kv_modify_iqrs f :
  (∀ s, uuid (f s) = uuid s) →
  keepsv (on_own_session sid Qb) (λ _, True) (modify_iqrs f).
Proof.
  intros Hf [s a] [Hs Ha]. split; [|done]. split; [|done]. simpl.
  by rewrite Hf.
Qed.

Lemma kv_modify_self f :
  (∀ a, Qb a → Qb (f a)) →
  keepsv (on_own_session sid Qb) (λ _, True) (modify_self f).
Proof.
  intros Hf [s a] [Hs Ha]. split; [|done]. split; [done|]. by apply Hf.
Qed.

Lemma kv_call_iqrs {A} (f : IqrSession → outcome A * IqrSession) :
  (∀ s, uuid (f s).2 = uuid s) →
  keepsv (on_own_session sid Qb) (λ _, True) (call_iqrs f).
Proof.
  intros Hf [s a] [Hs Ha]. unfold call_iqrs. simpl.
  specialize (Hf s). destruct (f s) as [r s']. simpl in *.
  split; [|done]. split; [simpl in *; congruence|done].
Qed.
End OwnSessionBody.

Section WorldLift.
Variable Qw : IqrSearch → Prop.

Lemma kv_lift_modify f :
  (∀ a, Qw a → Qw (f a)) →
  keepsv (λ w, Qw (app w)) (λ _, True) (lift (modify f)).
Proof. intros Hf w Hw. split; [by apply Hf | done]. Qed.

Lemma kv_lift_get : keepsv (λ w, Qw (app w)) Qw (lift get).
Proof. intros w Hw. split; [done|]. by intros a ?; simplify_eq/=. Qed.
End WorldLift.

Section OwnSession.
Variable sid : string.
Variables Qw Qb : IqrSearch → Prop.
Hypothesis enter : ∀ a,
  Qw a → uuid (current_session sid a) = sid ∧ Qb (ensure_session sid a).
Hypothesis leave : ∀ s a,
  uuid s = sid → Qb a →
  Qw (set_controller (<[sid := s]> (iqr_controller a)) a).

Lemma kv_with_current_session {A} (V : A → Prop)
    (body : St (IqrSession * IqrSearch) A) :
  keepsv (on_own_session sid Qb) V body →
  keepsv (λ w, Qw (app w)) (λ _, True) (with_current_session sid body).
Proof.
  intros Hbody w Hw. rewrite with_current_session_run.
  destruct (enter _ Hw) as [Hu Hb].
  destruct (Hbody (current_session sid (app w), ensure_session sid (app w)))
    as [[Hs' Ha'] _]; [by split|].
  destruct (body _) as [r [s' a']]. simpl in *.
  split; [by apply leave | done].
Qed.
End OwnSession.

Lemma update_working_index_uuid c s : uuid (update_working_index c s).2 = uuid s.
Proof.
  unfold update_working_index.
  destruct (map_to_list (positive_descriptors s)) as [|p ps]; [done|].
  by destruct (seed_neighbors c _ (p :: ps)).
Qed.

Lemma refine_uuid c s : uuid (refine c s).2 = uuid s.
Proof.
  unfold refine. repeat case_decide; try done. by destruct (rank c _ _ _).
Qed.

Section HandleKeeps.
Variable sid : string.
Variables Qw Qb : IqrSearch → Prop.
(** [Qs]: what is known when the saliency branch is entered. *)
Variable Qs : Prop.
Hypothesis enter : ∀ a,
  Qw a → uuid (current_session sid a) = sid ∧ Qb (ensure_session sid a).
Hypothesis leave : ∀ s a,
  uuid s = sid → Qb a →
  Qw (set_controller (<[sid := s]> (iqr_controller a)) a).
Hypothesis Qb_example_data : ∀ v a,
  Qb a → Qb (set_example_data (<[sid := v]> (iqr_example_data a)) a).
Hypothesis Qb_example_pos_descr : ∀ v a,
  Qb a → Qb (set_example_pos_descr (<[sid := v]> (iqr_example_pos_descr a)) a).
Hypothesis Qb_static_cache : ∀ k v a,
  Qb a → Qb (set_static_cache (<[k := v]> (static_cache a)) a).
Hypothesis Qw_static_cache : ∀ k v a,
  Qw a → Qw (set_static_cache (<[k := v]> (static_cache a)) a).
Hypothesis Qw_saliency : ∀ a, Qw a → saliency_descr_flag a = true → Qs.
Hypothesis Qb_saliency : ∀ desr m a,
  Qs → Qb a → Qb (update_saliency_map desr m a).

Ltac kv_uuid :=
  cbv beta in *;
  repeat match goal with
         | H : uuid ?s = sid |- context [uuid ?s] => rewrite H
         end.

Ltac kv_step :=
  first
    [ apply kv_ret | apply kv_raise | apply kv_iqrs | apply kv_self
    | apply kv_get | apply kv_getitem | apply kv_of_outcome
    | apply kv_lift_get
    | eapply (kv_with_current_session sid Qw Qb enter leave)
    | apply kv_try_except; [|intros ?]
    | eapply kv_bind; [|intros ? ?]
    | apply kv_modify_iqrs; intros ?; reflexivity
    | apply kv_call_iqrs; intros ?;
      first [apply update_working_index_uuid | apply refine_uuid]
    | apply kv_modify_self; intros ? ?; kv_uuid;
      first [ by apply Qb_example_data | by apply Qb_example_pos_descr
            | by apply Qb_saliency
            | case_match; [done | by apply Qb_static_cache] ]
    | apply kv_lift_modify; intros ? ?;
      case_match; [done | by apply Qw_static_cache]
    | progress case_match;
      try match goal with
          | Ha : Qw ?a, Hf : saliency_descr_flag ?a = true |- _ =>
              pose proof (Qw_saliency a Ha Hf); clear Hf
          end ].

Lemma handle_kv c req :
  keepsv (λ w, Qw (app w)) (λ _, True) (handle c sid req).
Proof.
  destruct req; simpl;
    unfold index, iqr_session_info, iqr_session_state,
      check_current_iqr_session, get_ingest_item_image_rep, cache_static,
      iqr_ingest_file, iqr_initialize, get_example_adjudication,
      get_index_adjudication, adjudicate, iqr_refine, get_ordered_results,
      reset_iqr_session, get_random_uids;
    repeat kv_step.
Qed.
End HandleKeeps.

(** *** The dictionaries kept beside the sessions *)

Lemma new_IqrSearch_well_formed seed sal wd :
  well_formed (new_IqrSearch seed sal wd).
Proof. intros k s H. simpl in H. by rewrite lookup_empty in H. Qed.

Lemma well_formed_enter sid a :
  well_formed a →
  uuid (current_session sid a) = sid ∧
  well_formed (ensure_session sid a) ∧
  is_Some (iqr_controller (ensure_session sid a) !! sid).
Proof.
  intros Ha. destruct (iqr_controller a !! sid) as [s|] eqn:E.
  - split; [unfold current_session; rewrite E; by apply (Ha sid s)|].
    rewrite ensure_session_existing by eauto. eauto.
  - split; [unfold current_session; by rewrite E|].
    split; [|rewrite ensure_session_lookup; eauto].
    rewrite ensure_session_new by done. intros k s. simpl.
    destruct (decide (sid = k)) as [->|Hne].
    + rewrite !lookup_insert_eq. intros ?; simplify_eq. eauto.
    + rewrite !lookup_insert_ne by done. apply Ha.
Qed.

Lemma well_formed_leave sid s a :
  uuid s = sid →
  well_formed a ∧ is_Some (iqr_controller a !! sid) →
  well_formed (set_controller (<[sid := s]> (iqr_controller a)) a).
Proof.
  intros Hs [Ha [s0 E]] k s'. simpl.
  destruct (decide (sid = k)) as [->|Hne].
  - rewrite lookup_insert_eq. intros ?; simplify_eq.
    by destruct (Ha _ _ E) as (_ & ?).
  - rewrite lookup_insert_ne by done. apply Ha.
Qed.

Lemma well_formed_example_data k v a :
  well_formed a →
  well_formed (set_example_data (<[k := v]> (iqr_example_data a)) a).
Proof.
  intros Ha k' s E. simpl in *. destruct (Ha _ _ E) as (? & ? & ? & ?).
  repeat split; try done. rewrite lookup_insert. by case_decide.
Qed.

Lemma well_formed_example_pos_descr k v a :
  well_formed a →
  well_formed (set_example_pos_descr (<[k := v]> (iqr_example_pos_descr a)) a).
Proof.
  intros Ha k' s E. simpl in *. destruct (Ha _ _ E) as (? & ? & ? & ?).
  repeat split; try done. rewrite lookup_insert. by case_decide.
Qed.

Lemma well_formed_static_cache m a :
  well_formed a → well_formed (set_static_cache m a).
Proof. intros Ha k s E. by apply Ha. Qed.

Lemma handle_well_formed c sid req w :
  well_formed (app w) → well_formed (app (handle c sid req w).2).
Proof.
  intros Hw.
  apply (handle_kv sid well_formed
           (λ a, well_formed a ∧ is_Some (iqr_controller a !! sid)) True);
    try done.
  - apply well_formed_enter.
  - apply well_formed_leave.
  - intros v a [? ?]. split; [by apply well_formed_example_data|done].
  - intros v a [? ?]. split; [by apply well_formed_example_pos_descr|done].
Qed.

Lemma serve_well_formed c reqs w :
  well_formed (app w) → well_formed (app (serve c reqs w).2).
Proof.
  revert w. induction reqs as [|[sid req] reqs IH]; intros w Hw; simpl.
  - done.
  - pose proof (handle_well_formed c sid req w Hw) as H1.
    destruct (handle c sid req w) as [r w1]. simpl in H1.
    specialize (IH w1 H1). by destruct (serve c reqs w1) as [rs w2].
Qed.

Lemma well_formed_entries sid a :
  well_formed a →
  uuid (current_session sid a) = sid ∧
  is_Some (iqr_work_dirs (ensure_session sid a) !! sid) ∧
  is_Some (iqr_example_data (ensure_session sid a) !! sid) ∧
  is_Some (iqr_example_pos_descr (ensure_session sid a) !! sid).
Proof.
  intros Ha. destruct (well_formed_enter sid a Ha) as (Hu & Hwf & [s E]).
  split; [done|]. by destruct (Hwf _ _ E) as (_ & ?).
Qed.

(** X3: from a newly constructed application, after any sequence of
    requests every registered session is stored under its own uuid and has
    a work directory and both example dictionaries.  Hence the dictionary
    lookups by session uuid never miss: for every client
    [reset_iqr_session] answers success, and [get_example_adjudication],
    [iqr_session_info] and [get_iqr_state] return. *)
Theorem dictionaries_never_miss c seed sal wd reqs sid :
  let w := (serve c reqs {| app := new_IqrSearch seed sal wd;
                            trace := [] |}).2 in
  well_formed (app w) ∧
  (reset_iqr_session sid w).1 = Return (JsonSuccess true) ∧
  (∀ u, ∃ b, (get_example_adjudication sid u w).1
               = Return (JsonAdjudication b false)) ∧
  (∃ pos neg ex init n, (iqr_session_info sid w).1
     = Return (JsonSessionInfo sid pos neg ex init n)) ∧
  (∃ pos neg, (iqr_session_state sid w).1
     = Return (StateArchive (String.append sid ".IqrState") pos neg)).
Proof.
  intros w.
  assert (Hw : well_formed (app w)).
  { apply serve_well_formed, new_IqrSearch_well_formed. }
  split; [done|].
  destruct (well_formed_entries sid (app w) Hw)
    as (Hu & [wdir Hwd] & [ex Hex] & [exd Hexd]).
  generalize dependent w. intros w _ Hu Hwd Hex Hexd.
  split; [|split; [|split]].
  - unfold reset_iqr_session. rewrite with_current_session_run. run_body.
    rewrite Hu, Hwd. simpl. rewrite Hex. simpl. by rewrite Hexd.
  - intros u. unfold get_example_adjudication.
    rewrite with_current_session_run. run_body. rewrite Hu, Hexd. simpl.
    eauto.
  - unfold iqr_session_info. rewrite with_current_session_run. run_body.
    rewrite Hu, Hexd. simpl. eauto 10.
  - unfold iqr_session_state, bind. rewrite with_current_session_run.
    run_body. rewrite Hu, Hexd. simpl. eauto.
Qed.

(** *** Clients do not touch each other's sessions *)

Lemma untouched_enter sid a0 a :
  untouched sid a0 a →
  uuid (current_session sid a) = sid ∧
  untouched sid a0 (ensure_session sid a) ∧
  is_Some (iqr_controller (ensure_session sid a) !! sid).
Proof.
  intros Ha. pose proof Ha as (Hothers & Hkept & Huuid).
  destruct (iqr_controller a !! sid) as [s|] eqn:E.
  - split; [unfold current_session; rewrite E; by apply Huuid|].
    rewrite ensure_session_existing by eauto.
    split; [done|]. eauto.
  - clear Ha. split; [unfold current_session; by rewrite E|].
    split; [|rewrite ensure_session_lookup; eauto].
    rewrite ensure_session_new by done. repeat split; simpl.
    + rewrite lookup_insert_ne by done. by apply Hothers.
    + rewrite lookup_insert_ne by done. by apply Hothers.
    + rewrite lookup_insert_ne by done. by apply Hothers.
    + rewrite lookup_insert_ne by done. by apply Hothers.
    + rewrite lookup_insert_eq. eauto.
    + rewrite lookup_insert_eq. by intros s ?; simplify_eq.
Qed.

Lemma untouched_leave sid a0 s a :
  uuid s = sid →
  untouched sid a0 a ∧ is_Some (iqr_controller a !! sid) →
  untouched sid a0 (set_controller (<[sid := s]> (iqr_controller a)) a).
Proof.
  intros Hs [(Hothers & Hkept & Huuid) Hreg]. repeat split; simpl.
  - rewrite lookup_insert_ne by done. by apply Hothers.
  - by apply Hothers.
  - by apply Hothers.
  - by apply Hothers.
  - rewrite lookup_insert_eq. eauto.
  - rewrite lookup_insert_eq. by intros s' ?; simplify_eq.
Qed.

Lemma untouched_example_data sid a0 v a :
  untouched sid a0 a →
  untouched sid a0 (set_example_data (<[sid := v]> (iqr_example_data a)) a).
Proof.
  intros (Hothers & Hkept & Huuid). repeat split; simpl; try done.
  - by apply Hothers.
  - by apply Hothers.
  - rewrite lookup_insert_ne by done. by apply Hothers.
  - by apply Hothers.
Qed.

Lemma untouched_example_pos_descr sid a0 v a :
  untouched sid a0 a →
  untouched sid a0
    (set_example_pos_descr (<[sid := v]> (iqr_example_pos_descr a)) a).
Proof.
  intros (Hothers & Hkept & Huuid). repeat split; simpl; try done.
  - by apply Hothers.
  - by apply Hothers.
  - by apply Hothers.
  - rewrite lookup_insert_ne by done. by apply Hothers.
Qed.

Lemma handle_untouched c sid req w :
  (∀ s, iqr_controller (app w) !! sid = Some s → uuid s = sid) →
  untouched sid (app w) (app (handle c sid req w).2).
Proof.
  intros Hw.
  apply (handle_kv sid (untouched sid (app w))
           (λ a, untouched sid (app w) a ∧
                 is_Some (iqr_controller a !! sid)) True); try done.
  - apply untouched_enter.
  - apply untouched_leave.
  - intros v a [? ?]. split; [by apply untouched_example_data|done].
  - intros v a [? ?]. split; [by apply untouched_example_pos_descr|done].
Qed.

Lemma ensure_session_saliency sid a :
  saliency_descr_flag (ensure_session sid a) = saliency_descr_flag a ∧
  saliency_maps (ensure_session sid a) = saliency_maps a.
Proof.
  destruct (iqr_controller a !! sid) as [s|] eqn:E.
  - by rewrite ensure_session_existing by eauto.
  - by rewrite ensure_session_new by done.
Qed.

Lemma handle_saliency_off c sid req w :
  well_formed (app w) →
  saliency_descr_flag (app w) = false →
  saliency_descr_flag (app (handle c sid req w).2) = false ∧
  saliency_maps (app (handle c sid req w).2) = saliency_maps (app w).
Proof.
  intros Hw Hoff.
  apply (handle_kv sid
           (λ a, well_formed a ∧ saliency_descr_flag a = false ∧
                 saliency_maps a = saliency_maps (app w))
           (λ a, (well_formed a ∧ is_Some (iqr_controller a !! sid)) ∧
                 saliency_descr_flag a = false ∧
                 saliency_maps a = saliency_maps (app w)) False);
    try done.
  - intros a (Ha & Hf & Hm).
    destruct (well_formed_enter sid a Ha) as (Hu & Hwf & Hreg).
    destruct (ensure_session_saliency sid a) as [Hf' Hm'].
    split; [done|]. split; [done|]. by rewrite Hf', Hm'.
  - intros s a Hs (Hb & Hf & Hm).
    split; [by apply well_formed_leave|done].
  - intros v a ((Ha & Hreg) & Hf & Hm).
    split; [|done]. split; [by apply well_formed_example_data|done].
  - intros v a ((Ha & Hreg) & Hf & Hm).
    split; [|done]. split; [by apply well_formed_example_pos_descr|done].
  - intros a (_ & Hf & _) Hon. congruence.
Qed.

(** X2: requests do not touch other clients.  In an application whose
    sessions are registered under their own uuid with their dictionaries,
    after serving any sequence of requests the session, the work directory
    and both example dictionaries of every key that none of the requests
    came from are as before; and every session registered before is still
    registered.  The elements of the index are shared by the sessions
    that hold them: with saliency off no saliency map of an element is
    written, so the elements too are as before; with saliency on a
    preview request may write one, which every holder then sees. *)
Theorem serve_other_clients_untouched c reqs w :
  well_formed (app w) →
  let a' := app (serve c reqs w).2 in
  (∀ k, k ∉ reqs.*1 →
     iqr_controller a' !! k = iqr_controller (app w) !! k ∧
     iqr_work_dirs a' !! k = iqr_work_dirs (app w) !! k ∧
     iqr_example_data a' !! k = iqr_example_data (app w) !! k ∧
     iqr_example_pos_descr a' !! k = iqr_example_pos_descr (app w) !! k) ∧
  (∀ k, is_Some (iqr_controller (app w) !! k) →
     is_Some (iqr_controller a' !! k)) ∧
  (saliency_descr_flag (app w) = false →
     saliency_maps a' = saliency_maps (app w) ∧
     ∀ desr, saliency_map a' desr = saliency_map (app w) desr).
Proof.
  revert w. induction reqs as [|[sid req] reqs IH]; intros w Hw; simpl.
  - done.
  - pose proof (handle_well_formed c sid req w Hw) as Hwf.
    pose proof (handle_untouched c sid req w) as (Hothers & Hkept & _).
    { intros s E. by apply (Hw sid s). }
    pose proof (handle_saliency_off c sid req w Hw) as Hsal.
    destruct (handle c sid req w) as [r w1]. simpl in *.
    specialize (IH w1 Hwf). destruct (serve c reqs w1) as [rs w2].
    simpl in *. destruct IH as (IH1 & IH2 & IH3). split; [|split].
    + intros k Hk. apply not_elem_of_cons in Hk as [Hne Hk].
      destruct (IH1 k Hk) as (-> & -> & -> & ->). by apply Hothers.
    + intros k Hk. apply IH2. destruct (decide (k = sid)) as [->|Hne].
      * by apply Hkept.
      * by destruct (Hothers k Hne) as (-> & _).
    + intros Hoff. destruct (Hsal Hoff) as [Hoff1 Hm1].
      destruct (IH3 Hoff1) as [Hm2 _]. split; [congruence|].
      intros desr. unfold saliency_map. congruence.
Qed.

Lemma serve_other_clients_untouched_witness :
  iqr_controller
    (app (serve demo_caps [("j", IqrIngestFile "good"); ("j", IqrInitialize);
                           ("j", ResetIqrSession)] world_ranked).2) !! "k"
    = iqr_controller (app world_ranked) !! "k".
Proof.
  destruct (serve_other_clients_untouched demo_caps
              [("j", IqrIngestFile "good"); ("j", IqrInitialize);
               ("j", ResetIqrSession)] world_ranked) as [H _].
  - apply serve_well_formed, new_IqrSearch_well_formed.
  - destruct (H "k") as (Hk & _); [|exact Hk].
    apply (bool_decide_unpack _). by vm_compute.
Defined.

(** With saliency on the elements are not isolated: the preview that
    client "j" asks for element "B" writes a saliency map into the
    element, and client "k", whose session is as before, holds the same
    element in its working index. *)
Lemma preview_writes_shared_element :
  let w' := (get_ingest_item_image_rep saliency_caps "j" "B"
               world_saliency).2 in
  working_index (current_session "k" (app world_saliency)) !! "B"
    = Some vecB ∧
  saliency_map (app world_saliency) descB = [] ∧
  saliency_map (app w') descB = [(7%Z, "sm")] ∧
  iqr_controller (app w') !! "k"
    = iqr_controller (app world_saliency) !! "k".
Proof. repeat split; vm_compute; reflexivity. Qed.

(** *** Locks over a sequence of requests *)

Lemma held_after_block_list ks :
  held_after (concat (session_block <$> ks)) [] = [].
Proof.
  induction ks as [|k ks IH]; [done|].
  cbn [fmap list_fmap concat].
  by rewrite held_after_app, held_after_session_block.
Qed.

Lemma never_both_block_list ks :
  never_both (concat (session_block <$> ks)).
Proof.
  induction ks as [|k ks IH]; intros m.
  - cbn [fmap list_fmap concat]. by rewrite take_nil.
  - cbn [fmap list_fmap concat]. rewrite take_app.
    rewrite held_after_app.
    destruct (decide (m < 4)) as [Hm|Hm].
    + replace (m - length (session_block k)) with 0 by (simpl; lia).
      rewrite take_0. cbn [held_after].
      do 4 (destruct m as [|m]; [simpl; try by rewrite ?decide_True|]).
      lia.
    + rewrite (take_ge (session_block k)) by (simpl; lia).
      rewrite held_after_session_block. apply IH.
Qed.

Lemma serve_trace c reqs w :
  ∃ ks, trace (serve c reqs w).2 = trace w ++ concat (session_block <$> ks) ∧
        ∀ k, k ∈ ks → k ∈ reqs.*1.
Proof.
  revert w. induction reqs as [|[sid req] reqs IH]; intros w; simpl.
  - exists []. simpl. by rewrite app_nil_r.
  - destruct (handle_emits c sid req w) as [n Hn].
    destruct (handle c sid req w) as [r w1]. simpl in Hn.
    destruct (IH w1) as (ks & Hks & Hin).
    destruct (serve c reqs w1) as [rs w2]. simpl in *.
    exists (replicate n sid ++ ks). split.
    + rewrite Hks, Hn, fmap_app, concat_app, fmap_replicate.
      by rewrite app_assoc.
    + intros k [Hk|Hk]%elem_of_app.
      * apply elem_of_replicate in Hk as [-> _]. by left.
      * right. by apply Hin.
Qed.

(** X10: over any sequence of requests of any clients the lock events
    are whole session blocks, each for the key of one of the requests; at
    no point are the registry lock and a session lock both held, and at
    the end no lock is held. *)
Theorem serve_lock_discipline c reqs a :
  let tr := trace (serve c reqs {| app := a; trace := [] |}).2 in
  never_both tr ∧
  held_after tr [] = [] ∧
  ∃ ks, (∀ k, k ∈ ks → k ∈ reqs.*1) ∧
        tr = concat ((λ k, [Acquire RegistryLock; Release RegistryLock;
                            Acquire (SessionLock k);
                            Release (SessionLock k)]) <$> ks).
Proof.
  intros tr. subst tr.
  destruct (serve_trace c reqs {| app := a; trace := [] |})
    as (ks & Hks & Hin).
  simpl in Hks. rewrite Hks.
  split; [apply never_both_block_list|].
  split; [apply held_after_block_list|].
  by exists ks.
Qed.

(** *** Concurrent callers and the registry *)

(** X13: any number of concurrent callers of [get_current_iqr_session]
    under any schedule: two callers are never inside the registry block at
    once, and a caller is inside exactly when it holds the registry lock;
    a session registered at the start stays registered as it is; every
    registered session was registered at the start or was constructed by a
    caller, for one of the callers' keys that was not registered at the
    start. *)
Theorem concurrent_callers_registry a keys sched :
  let st := run sched (start a keys) in
  (∀ t t' cl cl',
     c_callers st !! t = Some cl → in_cs (pc cl) = true →
     c_callers st !! t' = Some cl' → in_cs (pc cl') = true → t' = t) ∧
  (∀ t cl, c_callers st !! t = Some cl →
     (in_cs (pc cl) = true ↔ c_lock st = Some t)) ∧
  (∀ k s, iqr_controller a !! k = Some s →
     iqr_controller (c_app st) !! k = Some s) ∧
  (∀ k s, iqr_controller (c_app st) !! k = Some s →
     iqr_controller a !! k = Some s ∨
     (s ∈ c_created st ∧ uuid s ∈ keys ∧ iqr_controller a !! uuid s = None)).
Proof.
  intros st.
  assert (Hinv : conc_inv a st) by apply run_inv, conc_inv_start.
  split; [|split; [|split]].
  - intros t t' cl cl' Ht Hcs Ht' Hcs'. by eapply inv_exclusive.
  - apply (inv_lock a st Hinv).
  - apply (inv_mono a st Hinv).
  - intros k s Hs. destruct (inv_registry a st Hinv k s Hs) as [?|Hc].
    + by left.
    + right. split; [done|]. by apply (run_created a keys sched).
Qed.

Lemma concurrent_callers_registry_witness :
  iqr_controller
    (c_app (run [0; 1; 0; 1; 0; 0; 0] (start (app world_ranked) ["j"; "k"])))
    !! "k"
  = iqr_controller (app world_ranked) !! "k".
Proof.
  destruct (concurrent_callers_registry (app world_ranked) ["j"; "k"]
              [0; 1; 0; 1; 0; 0; 0]) as (_ & _ & Hmono & _).
  assert (H : ∃ s, iqr_controller (app world_ranked) !! "k" = Some s)
    by (eexists; vm_compute; reflexivity).
  destruct H as [s Hs]. rewrite Hs. by apply Hmono.
Defined.

Lemma serve_lock_discipline_witness :
  held_after
    (trace (serve demo_caps [("k", IqrIngestFile "good"); ("j", IqrRefine)]
              world0).2) [] = [].
Proof.
  by destruct (serve_lock_discipline demo_caps
                 [("k", IqrIngestFile "good"); ("j", IqrRefine)] app0)
    as (_ & H & _).
Defined.

(** *** Labels after an adjudicate request *)

Lemma resolve_uuids (m : gmap string DescriptorPayload) l :
  Forall (λ u, is_Some (m !! u)) l → d_uuid <$> resolve m l = l.
Proof.
  induction 1 as [|u l [p Hp] _ IH]; [done|].
  unfold resolve in *. cbn [omap list_omap]. rewrite Hp.
  cbn [fmap option_fmap option_map]. rewrite fmap_cons. by f_equal.
Qed.

Lemma adjudicate_resolved sid pos_to_add pos_to_remove neg_to_add
    neg_to_remove w :
  let s := current_session sid (app w) in
  let wi := working_index s in
  Forall (λ u, is_Some (wi !! u))
    (pos_to_add ++ neg_to_add ++ pos_to_remove ++ neg_to_remove) →
  adjudicate sid pos_to_add pos_to_remove neg_to_add neg_to_remove w =
    (Return (JsonStatus true
               (adjudicate_message pos_to_add pos_to_remove neg_to_add
                  neg_to_remove)),
     {| app := set_controller
                 (<[sid := session_adjudicate (resolve wi pos_to_add)
                             (resolve wi neg_to_add)
                             (resolve wi pos_to_remove)
                             (resolve wi neg_to_remove) s]>
                    (iqr_controller (ensure_session sid (app w))))
                 (ensure_session sid (app w));
        trace := trace w ++ session_block sid |}).
Proof.
  intros s wi. rewrite !Forall_app. intros (F1 & F2 & F3 & F4).
  rewrite adjudicate_run. cbv zeta. fold s wi.
  assert (Hok : ∀ l, Forall (λ u, is_Some (wi !! u)) l →
                  get_many_descriptors wi l = Return (resolve wi l)).
  { intros l HF. pose proof (get_many_descriptors_spec wi l) as H.
    destruct (get_many_descriptors wi l) as [ds|e].
    - by destruct H as [-> _].
    - destruct H as (u & _ & Hin & Hnone). rewrite Forall_forall in HF.
      apply HF in Hin. rewrite Hnone in Hin. by destruct Hin. }
  by rewrite !Hok.
Qed.

(** X15: labels after [adjudicate].  After a request whose identifiers
    are all in the working index, [get_index_adjudication] reports an
    identifier positive exactly when it is not in [neg_to_add] and is in
    [pos_to_add] or was positive and is not in [pos_to_remove]; negative
    exactly when it is in [neg_to_add], or is neither in [pos_to_add] nor
    in [neg_to_remove] and was negative. *)
Theorem adjudicate_then_get_index_adjudication sid pos_to_add pos_to_remove
    neg_to_add neg_to_remove w u :
  let s := current_session sid (app w) in
  Forall (λ u, is_Some (working_index s !! u))
    (pos_to_add ++ neg_to_add ++ pos_to_remove ++ neg_to_remove) →
  let w' := (adjudicate sid pos_to_add pos_to_remove neg_to_add
               neg_to_remove w).2 in
  (get_index_adjudication sid u w').1 =
    Return (JsonAdjudication
      (bool_decide
         ((u ∉ neg_to_add) ∧
          (u ∈ pos_to_add ∨
           (u ∈ uuids (positive_descriptors s) ∧ (u ∉ pos_to_remove)))))
      (bool_decide
         (u ∈ neg_to_add ∨
          ((u ∉ pos_to_add) ∧ (u ∉ neg_to_remove) ∧
           u ∈ uuids (negative_descriptors s))))).
Proof.
  intros s HF w'. subst w'.
  rewrite (adjudicate_resolved sid _ _ _ _ w HF). fold s.
  rewrite get_index_adjudication_run. cbv zeta.
  unfold current_session. cbn [app snd iqr_controller set_controller].
  rewrite lookup_insert_eq. cbn [default id].
  apply Forall_app in HF as (F1 & HF). apply Forall_app in HF as (F2 & HF).
  apply Forall_app in HF as (F3 & F4).
  destruct (dom_session_adjudicate
              (resolve (working_index s) pos_to_add)
              (resolve (working_index s) neg_to_add)
              (resolve (working_index s) pos_to_remove)
              (resolve (working_index s) neg_to_remove) s) as [Hp Hn].
  rewrite !resolve_uuids in Hp, Hn by done.
  do 2 f_equal; apply bool_decide_ext; rewrite !elem_of_uuids.
  - rewrite Hp. set_solver.
  - rewrite Hn. set_solver.
Qed.

Lemma adjudicate_then_get_index_adjudication_witness :
  (get_index_adjudication "k" "B"
     (adjudicate "k" [] [] ["B"] [] world_ranked).2).1
    = Return (JsonAdjudication false true).
Proof.
  assert (HF : Forall
            (λ u, is_Some
                    (working_index (current_session "k" (app world_ranked))
                       !! u))
            ([] ++ ["B"] ++ [] ++ [])).
  { apply Forall_cons. split; [|done]. eexists. vm_compute. reflexivity. }
  rewrite (adjudicate_then_get_index_adjudication "k" [] [] ["B"] []
             world_ranked "B" HF).
  reflexivity.
Defined.

(** *** Ingest with saliency on *)

(** X16: an upload with saliency on.  When the computed descriptor has no
    saliency map entry the request raises IndexError after the element
    and its descriptor have been stored in the session's two example
    dictionaries, and the session has no new positive.  Otherwise the
    first label of the saliency map becomes the session's target label,
    the descriptor is adjudicated positive and the request answers the
    data uuid with status 200. *)
Theorem iqr_ingest_file_saliency c sid fid w wdir ex exd d :
  let s := current_session sid (app w) in
  let a := ensure_session sid (app w) in
  let upload := uploaded_data c wdir fid in
  let out := iqr_ingest_file c sid fid w in
  iqr_work_dirs a !! uuid s = Some wdir →
  iqr_example_data a !! uuid s = Some ex →
  iqr_example_pos_descr a !! uuid s = Some exd →
  saliency_descr_flag a = true →
  compute_descriptor c upload = Return d →
  iqr_example_data (app out.2) !! uuid s
    = Some (<[de_uuid upload := upload]> ex) ∧
  iqr_example_pos_descr (app out.2) !! uuid s
    = Some (<[de_uuid upload := d]> exd) ∧
  match d_saliency_map d.2 with
  | [] =>
      out.1 = Raise (IndexError "list index out of range") ∧
      iqr_controller (app out.2) !! sid = Some s
  | (l, _) :: _ =>
      out.1 = Return (Text (de_uuid upload) 200) ∧
      iqr_controller (app out.2) !! sid
        = Some (session_adjudicate [d] [] [] []
                  (set_target_label (Some l) s))
  end.
Proof.
  intros s a upload out Hwd Hex Hexd Hsal Hok. subst out.
  unfold iqr_ingest_file. rewrite with_current_session_run. run_body.
  fold s a. rewrite Hwd. simpl. rewrite Hex. simpl.
  fold upload. rewrite Hok. simpl. rewrite Hexd. simpl. rewrite Hsal.
  destruct (d_saliency_map d.2) as [|[l x] rest]; simpl;
    by rewrite !lookup_insert_eq.
Qed.

Lemma iqr_ingest_file_saliency_witness :
  (iqr_ingest_file demo_caps "k" "good"
     {| app := new_IqrSearch 2 true "/work"; trace := [] |}).1
    = Raise (IndexError "list index out of range").
Proof.
  destruct (iqr_ingest_file_saliency demo_caps "k" "good"
              {| app := new_IqrSearch 2 true "/work"; trace := [] |}
              "/work/k" ∅ ∅ descA) as (_ & _ & H).
  - vm_compute. reflexivity.
  - vm_compute. reflexivity.
  - vm_compute. reflexivity.
  - vm_compute. reflexivity.
  - vm_compute. reflexivity.
  - simpl in H. apply H.
Defined.
